(** * brittle-matter-matters: integer helpers and the DEM engine

    A shallow embedding of [common_uint.h], [common_sint.h] and [dem.c].

    - C integers are modelled by [Z] together with the range of their type;
      unsigned arithmetic wraps modulo [2 ^ bits], signed arithmetic that
      leaves the range of the type it is computed in is undefined.
    - [double]: the functions whose result turns on the values that the
      arithmetic produces (the cell of a particle, the expiry of the cache,
      the force between two particles) are embedded over binary64 doubles,
      the kernel's primitive floats ([Double], [Fp64], [Dem64]).  The
      particle store, the rebuild of the cache and the passes of the force
      accumulator are embedded over the real numbers [R]: what is proved of
      them is which entries are written, where and how often, and
      distances are compared as the reals compare them.
    - C arrays are total functions from indices, records are records. *)

From Stdlib Require Import ZArith List Lia Bool Reals Lra Zfloor.
From Stdlib Require Import FunctionalExtensionality FinFun.
From Stdlib Require Floats.
Import ListNotations.

Local Open Scope Z_scope.

(** ** Outcomes of a C computation *)

Module Outcome.

(** A run either yields a value, hits undefined behaviour (an overflow or a
    division by zero), or is cut off by the step budget of a loop. *)
Inductive outcome (T : Type) : Type :=
| Val (v : T)
| Undefined
| OutOfFuel.

Arguments Val {T} v.
Arguments Undefined {T}.
Arguments OutOfFuel {T}.

Definition bind {T U : Type} (m : outcome T) (k : T -> outcome U) : outcome U :=
  match m with
  | Val v => k v
  | Undefined => Undefined
  | OutOfFuel => OutOfFuel
  end.

End Outcome.
Export Outcome.

Declare Scope outcome_scope.
Delimit Scope outcome_scope with outcome.
Notation "x <- m ;; k" := (bind m (fun x => k))
  (at level 61, m at next level, right associativity) : outcome_scope.
Local Open Scope outcome_scope.

(** ** C integer types *)

Module CInt.

Record ctype : Type := { signed : bool; bits : Z }.

Definition minval (A : ctype) : Z :=
  if signed A then - 2 ^ (bits A - 1) else 0.

Definition maxval (A : ctype) : Z :=
  if signed A then 2 ^ (bits A - 1) - 1 else 2 ^ bits A - 1.

Definition fits (A : ctype) (v : Z) : bool :=
  (minval A <=? v) && (v <=? maxval A).

Definition signed_char : ctype := {| signed := true; bits := 8 |}.
Definition unsigned_char : ctype := {| signed := false; bits := 8 |}.
Definition int : ctype := {| signed := true; bits := 32 |}.
Definition long_long : ctype := {| signed := true; bits := 64 |}.
Definition size_t : ctype := {| signed := false; bits := 64 |}.

(** Integer promotion: operands of a type narrower than [int] are computed
    in [int]. *)
Definition promote (A : ctype) : ctype :=
  if bits A <? bits int then int else A.

(** [chk A v] is the value [v] produced in, or stored into, the type [A];
    leaving the range of [A] is reported as [Undefined], so that a [Val]
    means that nothing overflowed or wrapped around. *)
Definition chk (A : ctype) (v : Z) : outcome Z :=
  if fits A v then Val v else Undefined.

(** The operators [-], [+], [*], [/] and [%] on operands of type [A]. *)
Definition c_sub (A : ctype) (x y : Z) : outcome Z := chk (promote A) (x - y).
Definition c_add (A : ctype) (x y : Z) : outcome Z := chk (promote A) (x + y).
Definition c_mul (A : ctype) (x y : Z) : outcome Z := chk (promote A) (x * y).
Definition c_div (A : ctype) (x y : Z) : outcome Z :=
  if y =? 0 then Undefined else chk (promote A) (Z.quot x y).
Definition c_rem (A : ctype) (x y : Z) : outcome Z :=
  if y =? 0 then Undefined
  else _ <- chk (promote A) (Z.quot x y) ;; Val (Z.rem x y).

End CInt.
Export CInt.

(** ** common_uint.h *)

Module CommonUint.

(** [bmm_quot]: [{.quot = x / y, .rem = x % y}]. *)
Definition bmm_quot (x y : Z) : outcome (Z * Z) :=
  if y =? 0 then Undefined else Val (Z.quot x y, Z.rem x y).

(** [bmm_wrap]:
<<
  A const c = b - a;
  A const r = x % c;
  A const s = a % c;
  return (r >= s ? r - s : c - (s - r)) + a;
>> *)
Definition bmm_wrap (A : ctype) (x a b : Z) : outcome Z :=
  c0 <- c_sub A b a ;; c <- chk A c0 ;;
  r0 <- c_rem A x c ;; r <- chk A r0 ;;
  s0 <- c_rem A a c ;; s <- chk A s0 ;;
  t <- (if r >=? s then c_sub A r s
        else (d <- c_sub A s r ;; c_sub A c d)) ;;
  y <- c_add A t a ;;
  chk A y.

(** [bmm_uwrap]: [x % b]. *)
Definition bmm_uwrap (A : ctype) (x b : Z) : outcome Z :=
  r <- c_rem A x b ;; chk A r.

(** Arrays of [A] are lists read with [nth] and written with [set_nth]. *)
Fixpoint set_nth (d : nat) (v : Z) (l : list Z) : list Z :=
  match l, d with
  | [], _ => []
  | _ :: t, O => v :: t
  | h :: t, S d' => h :: set_nth d' v t
  end.

(** One round of the loop of [bmm_hcd]:
<<
  dm = bmm_quot(dm.quot, nper[ndim - 1 - idim]);
  pij[ndim - 1 - idim] = dm.rem;
>> *)
Definition hcd_step (ndim : nat) (nper : list Z)
    (st : outcome (Z * list Z)) (idim : nat) : outcome (Z * list Z) :=
  qp <- st ;;
  dm <- bmm_quot (fst qp) (nth (ndim - 1 - idim) nper 0) ;;
  Val (fst dm, set_nth (ndim - 1 - idim) (snd dm) (snd qp)).

(** [bmm_hcd(pij, i, ndim, nper)]; the result is the array [pij]. *)
Definition bmm_hcd (pij : list Z) (i : Z) (ndim : nat) (nper : list Z)
    : outcome (list Z) :=
  qp <- fold_left (hcd_step ndim nper) (seq 0 ndim) (Val (i, pij)) ;;
  Val (snd qp).

(** [bmm_unhcd(ij, ndim, nper)] in an unsigned type of [w] bits:
<<
  A i = 0;
  for (size_t idim = 0; idim < ndim; ++idim) {
    i *= nper[idim];
    i += ij[idim];
  }
>> *)
Definition unhcd_step (w : Z) (ij nper : list Z) (i : Z) (idim : nat) : Z :=
  (((i * nth idim nper 0) mod 2 ^ w) + nth idim ij 0) mod 2 ^ w.

Definition bmm_unhcd (w : Z) (ij : list Z) (ndim : nat) (nper : list Z) : Z :=
  fold_left (unhcd_step w ij nper) (seq 0 ndim) 0.

(** The number of cells of a hypercuboid. *)
Definition prod (nper : list Z) : Z := fold_right Z.mul 1 nper.

End CommonUint.

(** ** common_sint.h *)

Module CommonSint.

(** [bmm_sgn] is declared outside the given sources; its use as a sign
    test fixes it to the three-valued sign. *)
Definition bmm_sgn (x : Z) : Z := Z.sgn x.

(** [bmm_quot]:
<<
  A const q = x / y;
  A const r = x % y;
  A const s = r >= 0 ? 0 : y < 0 ? -1 : 1;
  qr = {.quot = q - s, .rem = r + s * y};
>> *)
Definition bmm_quot (A : ctype) (x y : Z) : outcome (Z * Z) :=
  q0 <- c_div A x y ;; q <- chk A q0 ;;
  r0 <- c_rem A x y ;; r <- chk A r0 ;;
  let s := if r >=? 0 then 0 else if y <? 0 then -1 else 1 in
  q1 <- c_sub A q s ;; quot <- chk A q1 ;;
  sy <- c_mul A s y ;;
  r1 <- c_add A r sy ;; rem <- chk A r1 ;;
  Val (quot, rem).

(** [do y += c; while (y < a);] on [long long], at most [fuel] rounds. *)
Fixpoint wrap_up (fuel : nat) (c a y : Z) : outcome Z :=
  match fuel with
  | O => OutOfFuel
  | S k =>
      y' <- c_add long_long y c ;;
      if y' <? a then wrap_up k c a y' else Val y'
  end.

(** [do y -= c; while (y >= b);] on [long long], at most [fuel] rounds. *)
Fixpoint wrap_down (fuel : nat) (c b y : Z) : outcome Z :=
  match fuel with
  | O => OutOfFuel
  | S k =>
      y' <- c_sub long_long y c ;;
      if y' >=? b then wrap_down k c b y' else Val y'
  end.

(** [bmm_wrap]:
<<
  if (bmm_sgn(a) == bmm_sgn(b)) {
    A const c = b - a;
    A const xmc = bmm_quot(x, c).rem;
    A const amc = bmm_quot(a, c).rem;
    return (xmc >= amc ? xmc - amc : c - (amc - xmc)) + a;
  }
  long long int const c = b - a;
  long long int y = x;
  if (y < a) do y += c; while (y < a);
  else if (y >= b) do y -= c; while (y >= b);
  return y;
>> *)
Definition bmm_wrap (fuel : nat) (A : ctype) (x a b : Z) : outcome Z :=
  if bmm_sgn a =? bmm_sgn b then
    c0 <- c_sub A b a ;; c <- chk A c0 ;;
    qx <- bmm_quot A x c ;;
    qa <- bmm_quot A a c ;;
    let xmc := snd qx in
    let amc := snd qa in
    t <- (if xmc >=? amc then c_sub A xmc amc
          else (d <- c_sub A amc xmc ;; c_sub A c d)) ;;
    y <- c_add A t a ;;
    chk A y
  else
    c0 <- c_sub A b a ;; c <- chk long_long c0 ;;
    y0 <- chk long_long x ;;
    y <- (if y0 <? a then wrap_up fuel c a y0
          else if y0 >=? b then wrap_down fuel c b y0
          else Val y0) ;;
    chk A y.

End CommonSint.


(** ** Floating-point and geometry helpers

    [fp.h], [geom2d.h], [geom.h] and [neigh.h] are not among the sources.
    What [dem.c] uses of them is modelled here. *)

Module Fp.
Local Open Scope R_scope.

(** [double[BMM_NDIM]] with [BMM_NDIM = 2]. *)
Definition vec : Type := (R * R)%type.

(** The component [v[idim]] of a two-element array. *)
Definition dim {T : Type} (v : T * T) (idim : Z) : T :=
  if (idim =? 0)%Z then fst v else snd v.

(** C comparisons of doubles as booleans. *)
Definition Rltb (x y : R) : bool := if Rlt_dec x y then true else false.
Definition Rgtb (x y : R) : bool := if Rgt_dec x y then true else false.
Definition Rgeb (x y : R) : bool := if Rge_dec x y then true else false.
Definition Reqb (x y : R) : bool := if Req_dec_T x y then true else false.

(** [copysign(x, y)] of [math.h]. *)
Definition copysign (x y : R) : R := if Rlt_dec y 0 then - Rabs x else Rabs x.

(** Modelled from the spec: [bmm_fp_sq] of [fp.h], the square. *)
Definition bmm_fp_sq (x : R) : R := x * x.

(** Modelled from the spec: [bmm_fp_lerp(x, x0, x1, y0, y1)] of [fp.h], the
    linear interpolation that takes [[x0, x1]] to [[y0, y1]];
    [bmm_dem_cache_ijcell] compares its result with the two ends [y0] and
    [y1]. *)
Definition bmm_fp_lerp (x x0 x1 y0 y1 : R) : R :=
  (x - x0) * (y1 - y0) / (x1 - x0) + y0.

(** Modelled from the spec: [bmm_fp_swrap(x, p)] of [fp.h], "symmetric wrap
    into [−p/2, p/2)": [x] shifted by the multiple of [p] that brings it
    there. *)
Definition bmm_fp_swrap (x p : R) : R :=
  x - p * IZR (Zfloor ((x + p / 2) / p)).

(** Modelled from the spec: the 2D vector primitives of [geom2d.h];
    [diff] is the difference [x0 − x1] of its arguments ("v[i] − v[j]");
    [cpdiff] is the periodic shortest difference [x1 − x0] that leads from
    the first point to the second (the normal of a contact points from
    [x[i]] to [x[j]], so that [−fn·n] pushes the particle [i] away from
    [j], and a bond takes its angle from [dir(x_j − x_i)]), wrapped in the
    periodic dimensions only. *)
Definition bmm_geom2d_diff (x0 x1 : vec) : vec :=
  (fst x0 - fst x1, snd x0 - snd x1).

Definition bmm_geom2d_cpdiff (x0 x1 xper : vec) (per : bool * bool) : vec :=
  ((if fst per then bmm_fp_swrap (fst x1 - fst x0) (fst xper) else fst x1 - fst x0),
   (if snd per then bmm_fp_swrap (snd x1 - snd x0) (snd xper) else snd x1 - snd x0)).

Definition bmm_geom2d_dot (x y : vec) : R := fst x * fst y + snd x * snd y.
Definition bmm_geom2d_norm2 (x : vec) : R := bmm_geom2d_dot x x.
Definition bmm_geom2d_scale (x : vec) (a : R) : vec := (fst x * a, snd x * a).
Definition bmm_geom2d_rperp (x : vec) : vec := (snd x, - fst x).
Definition bmm_geom2d_addto (x y : vec) : vec := (fst x + fst y, snd x + snd y).

Definition bmm_geom2d_cpdist2 (x0 x1 xper : vec) (per : bool * bool) : R :=
  bmm_geom2d_norm2 (bmm_geom2d_cpdiff x0 x1 xper per).

(** Modelled from the spec: [bmm_geom_ballprmoi(2) = 1/2] of [geom.h]. *)
Definition bmm_geom_ballprmoi2 : R := / 2.

End Fp.
Export Fp.

(** ** Neighbour cells *)

Module Neigh.
Import CommonUint.

Inductive mask : Type := BMM_NEIGH_MASK_FULL | BMM_NEIGH_MASK_UPPERH.

(** Modelled from the spec: [bmm_neigh_ncpij] and [bmm_neigh_icpij] of
    [neigh.h] enumerate the cells of the masked Moore neighbourhood of a
    cell: with the upper-half mask "the cell itself plus cells whose offset
    vector is lexicographically greater than zero", 5 of the 9 cells in 2D,
    in row-major order; cells outside [[0, ncell[d])] of a non-periodic
    dimension are skipped.  In a periodic dimension the index wraps over the
    inner cells [[1, ncell[d] − 1)], as the tests [neigh_ijcp] and
    [neigh_ijcpuh] of [tests.c] expect (cell 5 of 6 is cell 1, cell 0 is
    cell 4). *)
Definition offsets (m : mask) : list (Z * Z) :=
  match m with
  | BMM_NEIGH_MASK_FULL =>
      [(-1, -1); (-1, 0); (-1, 1); (0, -1); (0, 0); (0, 1); (1, -1); (1, 0); (1, 1)]
  | BMM_NEIGH_MASK_UPPERH =>
      [(0, 0); (0, 1); (1, -1); (1, 0); (1, 1)]
  end.

Definition neigh_dim (c off ncell : Z) (per : bool) : option Z :=
  let c' := c + off in
  if per then
    Some (if c' <? 1 then c' + (ncell - 2)
          else if c' >=? ncell - 1 then c' - (ncell - 2) else c')
  else if (0 <=? c') && (c' <? ncell) then Some c' else None.

Definition neigh_cell (ij ncell : Z * Z) (per : bool * bool) (off : Z * Z)
    : list (Z * Z) :=
  match neigh_dim (fst ij) (fst off) (fst ncell) (fst per),
        neigh_dim (snd ij) (snd off) (snd ncell) (snd per) with
  | Some a, Some b => [(a, b)]
  | _, _ => []
  end.

(** [bmm_neigh_ijcpij]: the index vectors of the neighbour cells. *)
Definition neigh_cells (ij ncell : Z * Z) (per : bool * bool) (m : mask)
    : list (Z * Z) :=
  flat_map (neigh_cell ij ncell per) (offsets m).

Definition bmm_neigh_ncpij (ij ncell : Z * Z) (per : bool * bool) (m : mask) : Z :=
  Z.of_nat (length (neigh_cells ij ncell per m)).

Definition bmm_neigh_icpij (ij : Z * Z) (ineigh : Z) (ncell : Z * Z)
    (per : bool * bool) (m : mask) : Z :=
  let c := nth (Z.to_nat ineigh) (neigh_cells ij ncell per m) (0, 0) in
  bmm_unhcd 64 [fst c; snd c] 2 [fst ncell; snd ncell].

(** Cells are compared by their index vectors. *)
Definition cell_eq_dec (c c' : Z * Z) : {c = c'} + {c <> c'}.
Proof. decide equality; apply Z.eq_dec. Defined.

(** The offset that leads from the cell [c] to the cell [c']. *)
Definition cell_diff (c' c : Z * Z) : Z * Z := (fst c' - fst c, snd c' - snd c).






End Neigh.
Export Neigh.

(** ** dem.c: the simulation state *)

Module Dem.
Import CommonUint.

Definition SIZE_MAX : Z := 2 ^ 64 - 1.

(** [size_t] arithmetic wraps around. *)
Definition size_wrap (v : Z) : Z := v mod 2 ^ 64.

(** An array is a total function of the index; [upd a i v] is [a[i] = v]. *)
Definition upd {T : Type} (a : Z -> T) (i : Z) (v : T) : Z -> T :=
  fun k => if k =? i then v else a k.

(** The indices [0, 1, ..., n − 1] of a [for] loop. *)
Definition zrange (n : Z) : list Z := map Z.of_nat (seq 0 (Z.to_nat n)).

Inductive bmm_dem_famb : Type :=
| BMM_DEM_FAMB_CREEPING | BMM_DEM_FAMB_QUAD | BMM_DEM_FAMB_CORR.

Inductive bmm_dem_fnorm : Type :=
| BMM_DEM_FNORM_NONE | BMM_DEM_FNORM_DASHPOT | BMM_DEM_FNORM_VISCOEL.

Inductive bmm_dem_ftang : Type :=
| BMM_DEM_FTANG_NONE | BMM_DEM_FTANG_HW | BMM_DEM_FTANG_CS.

Inductive bmm_dem_caching : Type :=
| BMM_DEM_CACHING_NONE | BMM_DEM_CACHING_NEIGH.

Inductive bmm_dem_role : Type :=
| BMM_DEM_ROLE_FREE | BMM_DEM_ROLE_FIXED | BMM_DEM_ROLE_DRIVEN.

Inductive bmm_dem_mode : Type :=
| BMM_DEM_MODE_IDLE | BMM_DEM_MODE_BEGIN | BMM_DEM_MODE_CREATE
| BMM_DEM_MODE_SEDIMENT | BMM_DEM_MODE_LINK | BMM_DEM_MODE_SMASH
| BMM_DEM_MODE_ACCEL | BMM_DEM_MODE_CRUNCH | BMM_DEM_MODE_FAULT
| BMM_DEM_MODE_SEPARATE | BMM_DEM_MODE_MEASURE.

(** [struct bmm_dem_opts], the fields read by the functions below. *)
Record bmm_dem_opts : Type := {
  opts_caching : bmm_dem_caching;
  opts_famb : bmm_dem_famb;
  opts_fnorm : bmm_dem_fnorm;
  opts_ftang : bmm_dem_ftang;
  box_x : vec;
  box_per : bool * bool;
  opts_part_y : R;
  dashpot_gamma : R;
  hw_gamma : R;
  hw_mu : R;
  script_mode : Z -> bmm_dem_mode;
  sediment_kcohes : Z -> R;
  cache_ncell : Z * Z;
  cache_rcutoff : R
}.

(** [dem->part]: the parallel arrays of the particles. *)
Record bmm_dem_part : Type := {
  part_n : Z;
  part_lnew : Z;
  part_l : Z -> Z;
  part_role : Z -> bmm_dem_role;
  part_r : Z -> R;
  part_m : Z -> R;
  part_jred : Z -> R;
  part_x : Z -> vec;
  part_v : Z -> vec;
  part_a : Z -> vec;
  part_phi : Z -> R;
  part_omega : Z -> R;
  part_alpha : Z -> R;
  part_f : Z -> vec;
  part_tau : Z -> R
}.

(** [dem->link.part[ipart]]: the bonds stored on one particle. *)
Record bmm_dem_links : Type := {
  link_n : Z;
  link_i : Z -> Z;
  link_rrest : Z -> R;
  link_phirest : Z -> R * R;
  link_rlim : Z -> R;
  link_philim : Z -> R
}.

(** [dem->cache].  The bounded lists [{size_t n; size_t i[...];}] of the
    cells and of the neighbours are lists: [n] is the length, [i[k]] the
    [k]-th element, clearing gives [[]] and appending adds at the end. *)
Record bmm_dem_cache : Type := {
  cache_stale : bool;
  cache_j : Z -> R;
  cache_x : Z -> vec;
  cache_ijcell : Z -> Z * Z;
  cache_icell : Z -> Z;
  cache_part : Z -> list Z;
  cache_neigh : Z -> list Z
}.

(** [struct bmm_dem]. *)
Record bmm_dem : Type := {
  opts : bmm_dem_opts;
  part : bmm_dem_part;
  link : Z -> bmm_dem_links;
  script_i : Z;
  cache : bmm_dem_cache
}.

(** *** Field updates *)

Definition set_opts_famb (a : bmm_dem_famb) (o : bmm_dem_opts) : bmm_dem_opts :=
  {| opts_caching := opts_caching o; opts_famb := a; opts_fnorm := opts_fnorm o;
     opts_ftang := opts_ftang o; box_x := box_x o; box_per := box_per o;
     opts_part_y := opts_part_y o; dashpot_gamma := dashpot_gamma o;
     hw_gamma := hw_gamma o; hw_mu := hw_mu o; script_mode := script_mode o;
     sediment_kcohes := sediment_kcohes o; cache_ncell := cache_ncell o;
     cache_rcutoff := cache_rcutoff o |}.

Definition set_opts (o : bmm_dem_opts) (dem : bmm_dem) : bmm_dem :=
  {| opts := o; part := part dem; link := link dem; script_i := script_i dem;
     cache := cache dem |}.

Definition set_part (p : bmm_dem_part) (dem : bmm_dem) : bmm_dem :=
  {| opts := opts dem; part := p; link := link dem; script_i := script_i dem;
     cache := cache dem |}.

Definition set_link (l : Z -> bmm_dem_links) (dem : bmm_dem) : bmm_dem :=
  {| opts := opts dem; part := part dem; link := l; script_i := script_i dem;
     cache := cache dem |}.

Definition set_cache (c : bmm_dem_cache) (dem : bmm_dem) : bmm_dem :=
  {| opts := opts dem; part := part dem; link := link dem; script_i := script_i dem;
     cache := c |}.

Definition set_famb (a : bmm_dem_famb) (dem : bmm_dem) : bmm_dem :=
  set_opts (set_opts_famb a (opts dem)) dem.

Definition set_part_n (n : Z) (p : bmm_dem_part) : bmm_dem_part :=
  {| part_n := n; part_lnew := part_lnew p; part_l := part_l p;
     part_role := part_role p; part_r := part_r p; part_m := part_m p;
     part_jred := part_jred p; part_x := part_x p; part_v := part_v p;
     part_a := part_a p; part_phi := part_phi p; part_omega := part_omega p;
     part_alpha := part_alpha p; part_f := part_f p; part_tau := part_tau p |}.

Definition set_part_f (f : Z -> vec) (p : bmm_dem_part) : bmm_dem_part :=
  {| part_n := part_n p; part_lnew := part_lnew p; part_l := part_l p;
     part_role := part_role p; part_r := part_r p; part_m := part_m p;
     part_jred := part_jred p; part_x := part_x p; part_v := part_v p;
     part_a := part_a p; part_phi := part_phi p; part_omega := part_omega p;
     part_alpha := part_alpha p; part_f := f; part_tau := part_tau p |}.

Definition set_part_tau (tau : Z -> R) (p : bmm_dem_part) : bmm_dem_part :=
  {| part_n := part_n p; part_lnew := part_lnew p; part_l := part_l p;
     part_role := part_role p; part_r := part_r p; part_m := part_m p;
     part_jred := part_jred p; part_x := part_x p; part_v := part_v p;
     part_a := part_a p; part_phi := part_phi p; part_omega := part_omega p;
     part_alpha := part_alpha p; part_f := part_f p; part_tau := tau |}.

Definition set_cache_stale (b : bool) (c : bmm_dem_cache) : bmm_dem_cache :=
  {| cache_stale := b; cache_j := cache_j c; cache_x := cache_x c;
     cache_ijcell := cache_ijcell c; cache_icell := cache_icell c;
     cache_part := cache_part c; cache_neigh := cache_neigh c |}.

Definition set_cache_j (j : Z -> R) (c : bmm_dem_cache) : bmm_dem_cache :=
  {| cache_stale := cache_stale c; cache_j := j; cache_x := cache_x c;
     cache_ijcell := cache_ijcell c; cache_icell := cache_icell c;
     cache_part := cache_part c; cache_neigh := cache_neigh c |}.

Definition set_cache_x (x : Z -> vec) (c : bmm_dem_cache) : bmm_dem_cache :=
  {| cache_stale := cache_stale c; cache_j := cache_j c; cache_x := x;
     cache_ijcell := cache_ijcell c; cache_icell := cache_icell c;
     cache_part := cache_part c; cache_neigh := cache_neigh c |}.

Definition set_cache_ijcell (ij : Z -> Z * Z) (c : bmm_dem_cache) : bmm_dem_cache :=
  {| cache_stale := cache_stale c; cache_j := cache_j c; cache_x := cache_x c;
     cache_ijcell := ij; cache_icell := cache_icell c;
     cache_part := cache_part c; cache_neigh := cache_neigh c |}.

Definition set_cache_icell (ic : Z -> Z) (c : bmm_dem_cache) : bmm_dem_cache :=
  {| cache_stale := cache_stale c; cache_j := cache_j c; cache_x := cache_x c;
     cache_ijcell := cache_ijcell c; cache_icell := ic;
     cache_part := cache_part c; cache_neigh := cache_neigh c |}.

Definition set_cache_part (p : Z -> list Z) (c : bmm_dem_cache) : bmm_dem_cache :=
  {| cache_stale := cache_stale c; cache_j := cache_j c; cache_x := cache_x c;
     cache_ijcell := cache_ijcell c; cache_icell := cache_icell c;
     cache_part := p; cache_neigh := cache_neigh c |}.

Definition set_cache_neigh (g : Z -> list Z) (c : bmm_dem_cache) : bmm_dem_cache :=
  {| cache_stale := cache_stale c; cache_j := cache_j c; cache_x := cache_x c;
     cache_ijcell := cache_ijcell c; cache_icell := cache_icell c;
     cache_part := cache_part c; cache_neigh := g |}.

(** A [for] loop over a list of indices whose body may fail; the loop
    returns [false] at the first failure, with the state reached. *)
Fixpoint for_each (l : list Z) (body : bmm_dem -> Z -> bool * bmm_dem)
    (dem : bmm_dem) : bool * bmm_dem :=
  match l with
  | [] => (true, dem)
  | i :: l' =>
      let r := body dem i in
      if fst r then for_each l' body (snd r) else (false, snd r)
  end.

(** *** Compile-time capacities

    [BMM_MPART], [BMM_NGROUP] and [BMM_NCELL] come from [conf.h], which is
    not among the sources; they are parameters of the model. *)

Section Conf.
Variables BMM_MPART BMM_NGROUP BMM_NCELL : Z.

Definition BMM_NDIM : Z := 2.

(** *** The neighbour cache *)

(** [bmm_dem_cache_j]. *)
Definition bmm_dem_cache_j (dem : bmm_dem) (ipart : Z) : bmm_dem :=
  let p := part dem in
  set_cache (set_cache_j
    (upd (cache_j (cache dem)) ipart
       (part_jred p ipart * part_m p ipart * bmm_fp_sq (part_r p ipart))%R)
    (cache dem)) dem.

(** [bmm_dem_cache_x]: both components of the position are copied. *)
Definition bmm_dem_cache_x (dem : bmm_dem) (ipart : Z) : bmm_dem :=
  set_cache (set_cache_x
    (upd (cache_x (cache dem)) ipart (part_x (part dem) ipart))
    (cache dem)) dem.

(** One round of the loop of [bmm_dem_cache_ijcell]:
<<
  size_t const i = dem->opts.cache.ncell[idim] - 1;
  double const a = 1.0;
  double const b = (double) i;
  double const t = bmm_fp_lerp(dem->cache.x[ipart][idim],
      0.0, dem->opts.box.x[idim], a, b);
  if (t < a) ijcell = 0;
  else if (t >= b) ijcell = i;
  else ijcell = (size_t) t;
>>
    This is the binning over the reals that the rebuild below uses; what
    is proved of the rebuild is stated in terms of the cells stored, however
    they were rounded.  The value that the double arithmetic yields is
    [Dem64.cache_ijcell_dim]. *)
Definition cache_ijcell_dim (ncell : Z) (boxx x : R) : Z :=
  let i := size_wrap (ncell - 1) in
  let a := 1%R in
  let b := IZR i in
  let t := bmm_fp_lerp x 0 boxx a b in
  if Rltb t a then 0
  else if Rgeb t b then i
  else Zfloor t.

(** [bmm_dem_cache_ijcell]. *)
Definition bmm_dem_cache_ijcell (dem : bmm_dem) (ipart : Z) : bmm_dem :=
  let o := opts dem in
  let x := cache_x (cache dem) ipart in
  set_cache (set_cache_ijcell
    (upd (cache_ijcell (cache dem)) ipart
       (cache_ijcell_dim (fst (cache_ncell o)) (fst (box_x o)) (fst x),
        cache_ijcell_dim (snd (cache_ncell o)) (snd (box_x o)) (snd x)))
    (cache dem)) dem.

(** [bmm_dem_cache_icell]: [bmm_size_unhcd] is [bmm_unhcd] at [size_t]. *)
Definition bmm_dem_cache_icell (dem : bmm_dem) (ipart : Z) : bmm_dem :=
  let ij := cache_ijcell (cache dem) ipart in
  let ncell := cache_ncell (opts dem) in
  set_cache (set_cache_icell
    (upd (cache_icell (cache dem)) ipart
       (bmm_unhcd 64 [fst ij; snd ij] 2 [fst ncell; snd ncell]))
    (cache dem)) dem.

(** [bmm_dem_cache_clrparts]: [nmembof(dem->cache.part)] is
    [BMM_POW(BMM_NCELL, BMM_NDIM)]. *)
Definition bmm_dem_cache_clrparts (dem : bmm_dem) : bmm_dem :=
  fold_left (fun dem icell =>
      set_cache (set_cache_part (upd (cache_part (cache dem)) icell [])
                   (cache dem)) dem)
    (zrange (BMM_NCELL ^ BMM_NDIM)) dem.

(** [bmm_dem_cache_addpart]: [nmembof(dem->cache.part[icell].i)] is
    [BMM_NGROUP]. *)
Definition bmm_dem_cache_addpart (dem : bmm_dem) (ipart : Z) : bool * bmm_dem :=
  let icell := cache_icell (cache dem) ipart in
  let cell := cache_part (cache dem) icell in
  if Z.of_nat (length cell) >=? BMM_NGROUP then (false, dem)
  else (true, set_cache (set_cache_part
                 (upd (cache_part (cache dem)) icell (cell ++ [ipart]))
                 (cache dem)) dem).

(** [bmm_dem_cache_eligible]. *)
Definition bmm_dem_cache_eligible (dem : bmm_dem) (ipart jpart : Z) : bool :=
  let c := cache dem in
  if (cache_icell c ipart =? cache_icell c jpart) && (jpart <=? ipart) then false
  else if Rgtb (bmm_geom2d_cpdist2 (cache_x c ipart) (cache_x c jpart)
                  (box_x (opts dem)) (box_per (opts dem)))
               (bmm_fp_sq (cache_rcutoff (opts dem)))
  then false
  else true.

(** [bmm_dem_cache_clrneighs]. *)
Definition bmm_dem_cache_clrneighs (dem : bmm_dem) : bmm_dem :=
  fold_left (fun dem ipart =>
      set_cache (set_cache_neigh (upd (cache_neigh (cache dem)) ipart [])
                   (cache dem)) dem)
    (zrange (part_n (part dem))) dem.

(** The covariant block of [bmm_dem_cache_addfrom];
    [nmembof(dem->cache.neigh[ipart].i)] is
    [BMM_NGROUP * (BMM_POW(3, BMM_NDIM) / 2)]. *)
Definition addfrom_body (ipart : Z) (dem : bmm_dem) (jpart : Z) : bool * bmm_dem :=
  if bmm_dem_cache_eligible dem ipart jpart then
    let l := cache_neigh (cache dem) ipart in
    if Z.of_nat (length l) >=? BMM_NGROUP * (3 ^ BMM_NDIM / 2) then (false, dem)
    else (true, set_cache (set_cache_neigh
                   (upd (cache_neigh (cache dem)) ipart (l ++ [jpart]))
                   (cache dem)) dem)
  else (true, dem).

(** The cells visited by [bmm_dem_cache_addfrom] for [ipart]. *)
Definition addfrom_cells (dem : bmm_dem) (ipart : Z) (m : mask) : list Z :=
  let ij := cache_ijcell (cache dem) ipart in
  let o := opts dem in
  map (fun ineigh => bmm_neigh_icpij ij ineigh (cache_ncell o) (box_per o) m)
      (zrange (bmm_neigh_ncpij ij (cache_ncell o) (box_per o) m)).

(** [bmm_dem_cache_addfrom]: the outer loop runs over the neighbour cells,
    the inner loop over the particles of the cell. *)
Definition bmm_dem_cache_addfrom (dem : bmm_dem) (ipart : Z) (m : mask)
    : bool * bmm_dem :=
  for_each (addfrom_cells dem ipart m)
    (fun dem icell => for_each (cache_part (cache dem) icell) (addfrom_body ipart) dem)
    dem.

(** [bmm_dem_cache_build]. *)
Definition bmm_dem_cache_build (dem : bmm_dem) : bool * bmm_dem :=
  let dem := fold_left bmm_dem_cache_j (zrange (part_n (part dem))) dem in
  let dem := fold_left bmm_dem_cache_x (zrange (part_n (part dem))) dem in
  let dem := fold_left bmm_dem_cache_ijcell (zrange (part_n (part dem))) dem in
  let dem := fold_left bmm_dem_cache_icell (zrange (part_n (part dem))) dem in
  let dem := bmm_dem_cache_clrparts dem in
  let r := for_each (zrange (part_n (part dem))) bmm_dem_cache_addpart dem in
  if negb (fst r) then (false, snd r)
  else
    let dem := bmm_dem_cache_clrneighs (snd r) in
    let r := for_each (zrange (part_n (part dem)))
               (fun dem ipart => bmm_dem_cache_addfrom dem ipart BMM_NEIGH_MASK_UPPERH)
               dem in
    if negb (fst r) then (false, snd r)
    else (true, set_cache (set_cache_stale false (cache (snd r))) (snd r)).

(** *** The rebuilt cache in closed form

    What the loops of [bmm_dem_cache_build] leave behind when none of them
    runs out of capacity. *)

Definition memb (k : Z) (l : list Z) : bool := existsb (Z.eqb k) l.

(** The array [a] after [a[k] = g k] for every [k < n]. *)
Definition fill {T : Type} (n : Z) (g : Z -> T) (a : Z -> T) : Z -> T :=
  fun k => if memb k (zrange n) then g k else a k.

(** After the loops that cache the moments of inertia, the positions, the
    cell index vectors and the cell indices. *)
Definition cache_cells (dem : bmm_dem) : bmm_dem :=
  let n := part_n (part dem) in
  let p := part dem in
  let c := cache dem in
  let o := opts dem in
  let cx := fill n (part_x p) (cache_x c) in
  let cij := fill n (fun k =>
      (cache_ijcell_dim (fst (cache_ncell o)) (fst (box_x o)) (fst (cx k)),
       cache_ijcell_dim (snd (cache_ncell o)) (snd (box_x o)) (snd (cx k))))
    (cache_ijcell c) in
  let cic := fill n (fun k =>
      bmm_unhcd 64 [fst (cij k); snd (cij k)] 2
        [fst (cache_ncell o); snd (cache_ncell o)])
    (cache_icell c) in
  set_cache
    {| cache_stale := cache_stale c;
       cache_j := fill n (fun k =>
           (part_jred p k * part_m p k * bmm_fp_sq (part_r p k))%R) (cache_j c);
       cache_x := cx;
       cache_ijcell := cij;
       cache_icell := cic;
       cache_part := cache_part c;
       cache_neigh := cache_neigh c |}
    dem.

(** After the cell lists have been cleared and filled: the list of a cell
    holds the particles binned to it, in index order. *)
Definition binned (dem : bmm_dem) : bmm_dem :=
  let s := cache_cells dem in
  set_cache (set_cache_part
    (fun icell =>
       fill (BMM_NCELL ^ BMM_NDIM) (fun _ => []) (cache_part (cache s)) icell ++
       filter (fun jpart => cache_icell (cache s) jpart =? icell)
              (zrange (part_n (part s))))
    (cache s)) s.

(** The neighbours that [bmm_dem_cache_addfrom] finds for [ipart]: the
    eligible particles of the cells it visits, in the order of the visit. *)
Definition neigh_list (dem : bmm_dem) (ipart : Z) : list Z :=
  filter (bmm_dem_cache_eligible dem ipart)
    (flat_map (cache_part (cache dem))
       (addfrom_cells dem ipart BMM_NEIGH_MASK_UPPERH)).

(** After the whole rebuild. *)
Definition built (dem : bmm_dem) : bmm_dem :=
  let s := binned dem in
  set_cache (set_cache_stale false
    (set_cache_neigh
       (fill (part_n (part s)) (neigh_list s) (cache_neigh (cache s)))
       (cache s))) s.

(** *** Particles *)

(** [bmm_dem_addpart]; the result is the returned index and the state. *)
Definition bmm_dem_addpart (dem : bmm_dem) : Z * bmm_dem :=
  let p := part dem in
  let ipart := part_n p in
  if ipart >=? BMM_MPART then (SIZE_MAX, dem)
  else
    (ipart,
     set_cache (set_cache_stale true (cache dem))
       (set_part
          {| part_n := size_wrap (ipart + 1);
             part_lnew := size_wrap (part_lnew p + 1);
             part_l := upd (part_l p) ipart (part_lnew p);
             part_role := upd (part_role p) ipart BMM_DEM_ROLE_FREE;
             part_r := upd (part_r p) ipart 1%R;
             part_m := upd (part_m p) ipart 1%R;
             part_jred := upd (part_jred p) ipart bmm_geom_ballprmoi2;
             part_x := upd (part_x p) ipart (0, 0)%R;
             part_v := upd (part_v p) ipart (0, 0)%R;
             part_a := upd (part_a p) ipart (0, 0)%R;
             part_phi := upd (part_phi p) ipart 0%R;
             part_omega := upd (part_omega p) ipart 0%R;
             part_alpha := upd (part_alpha p) ipart 0%R;
             part_f := upd (part_f p) ipart (0, 0)%R;
             part_tau := upd (part_tau p) ipart 0%R |}
          dem)).

(** The copy loops of [bmm_dem_reassign] over the bonds of [jpart]: the
    entries below [link.part[jpart].n] are copied, the others stay. *)
Definition copy_below {T : Type} (n : Z) (src dst : Z -> T) : Z -> T :=
  fold_left (fun a ilink => upd a ilink (src ilink)) (zrange n) dst.

(** [bmm_dem_reassign]. *)
Definition bmm_dem_reassign (dem : bmm_dem) (ipart jpart : Z) : bmm_dem :=
  let p := part dem in
  let li := link dem ipart in
  let lj := link dem jpart in
  set_link
    (upd (link dem) ipart
       {| link_n := link_n lj;
          link_i := copy_below (link_n lj) (link_i lj) (link_i li);
          link_rrest := copy_below (link_n lj) (link_rrest lj) (link_rrest li);
          link_phirest := copy_below (link_n lj) (link_phirest lj) (link_phirest li);
          link_rlim := copy_below (link_n lj) (link_rlim lj) (link_rlim li);
          link_philim := copy_below (link_n lj) (link_philim lj) (link_philim li) |})
    (set_part
       {| part_n := part_n p;
          part_lnew := part_lnew p;
          part_l := upd (part_l p) ipart (part_l p jpart);
          part_role := upd (part_role p) ipart (part_role p jpart);
          part_r := upd (part_r p) ipart (part_r p jpart);
          part_m := upd (part_m p) ipart (part_m p jpart);
          part_jred := upd (part_jred p) ipart (part_jred p jpart);
          part_x := upd (part_x p) ipart (part_x p jpart);
          part_v := upd (part_v p) ipart (part_v p jpart);
          part_a := upd (part_a p) ipart (part_a p jpart);
          part_phi := upd (part_phi p) ipart (part_phi p jpart);
          part_omega := upd (part_omega p) ipart (part_omega p jpart);
          part_alpha := upd (part_alpha p) ipart (part_alpha p jpart);
          part_f := upd (part_f p) ipart (part_f p jpart);
          part_tau := upd (part_tau p) ipart (part_tau p jpart) |}
       dem).

(** [bmm_dem_rempart]. *)
Definition bmm_dem_rempart (dem : bmm_dem) (ipart : Z) : bmm_dem :=
  let dem := set_part (set_part_n (size_wrap (part_n (part dem) - 1)) (part dem)) dem in
  let jpart := part_n (part dem) in
  let dem := if negb (jpart =? ipart) then bmm_dem_reassign dem ipart jpart else dem in
  set_cache (set_cache_stale true (cache dem)) dem.

(** *** Forces *)

(** [f[ipart] += df] and [tau[ipart] += dtau]. *)
Definition add_f (dem : bmm_dem) (ipart : Z) (df : vec) : bmm_dem :=
  let p := part dem in
  set_part (set_part_f (upd (part_f p) ipart (bmm_geom2d_addto (part_f p ipart) df)) p) dem.

Definition add_tau (dem : bmm_dem) (ipart : Z) (dtau : R) : bmm_dem :=
  let p := part dem in
  set_part (set_part_tau (upd (part_tau p) ipart (part_tau p ipart + dtau)%R) p) dem.

(** The local variables of [bmm_dem_force_pair] once the pair is known to
    be in contact. *)
Record contact : Type := {
  c_d : R;
  c_xnorm : vec;
  c_xtang : vec;
  c_xi : R;
  c_dotxi : R;
  c_vtang : R;
  c_fn : R;
  c_ft : R
}.

(** The first half of [bmm_dem_force_pair]: [None] is the early [return]
    at [d2 > r2 || d2 == 0.0]. *)
Definition force_pair_contact (dem : bmm_dem) (ipart jpart : Z) : option contact :=
  let o := opts dem in
  let p := part dem in
  let xdiff := bmm_geom2d_cpdiff (part_x p ipart) (part_x p jpart) (box_x o) (box_per o) in
  let d2 := bmm_geom2d_norm2 xdiff in
  let r := (part_r p ipart + part_r p jpart)%R in
  let r2 := bmm_fp_sq r in
  if Rgtb d2 r2 || Reqb d2 0 then None
  else
    let d := sqrt d2 in
    let xnorm := bmm_geom2d_scale xdiff (1 / d) in
    let xtang := bmm_geom2d_rperp xnorm in
    let vdiff := bmm_geom2d_diff (part_v p ipart) (part_v p jpart) in
    let xi := (r - d)%R in
    let dotxi := bmm_geom2d_dot vdiff xnorm in
    let vtang := (bmm_geom2d_dot vdiff xtang +
                  part_r p ipart * part_omega p ipart +
                  part_r p jpart * part_omega p jpart)%R in
    let fn := match opts_fnorm o with
              | BMM_DEM_FNORM_DASHPOT =>
                  Rmax 0 (opts_part_y o * xi + dashpot_gamma o * dotxi)
              | _ => 0%R
              end in
    let ft := match opts_ftang o with
              | BMM_DEM_FTANG_HW =>
                  (- copysign (Rmin (hw_gamma o * Rabs vtang) (hw_mu o * fn)) vtang)%R
              | _ => 0%R
              end in
    Some {| c_d := d; c_xnorm := xnorm; c_xtang := xtang; c_xi := xi;
            c_dotxi := dotxi; c_vtang := vtang; c_fn := fn; c_ft := ft |}.

(** [bmm_dem_force_pair]. *)
Definition bmm_dem_force_pair (dem : bmm_dem) (ipart jpart : Z) : bmm_dem :=
  match force_pair_contact dem ipart jpart with
  | None => dem
  | Some c =>
      let ri := part_r (part dem) ipart in
      let rj := part_r (part dem) jpart in
      let fdiff := bmm_geom2d_scale (c_xnorm c) (- c_fn c) in
      let dem := add_f dem ipart fdiff in
      let fdiff2 := bmm_geom2d_scale fdiff (-1) in
      let dem := add_f dem jpart fdiff2 in
      let fdiff := bmm_geom2d_scale (c_xtang c) (c_ft c) in
      let dem := add_f dem ipart fdiff in
      let dem := add_tau dem ipart (c_ft c * ri) in
      let fdiff2 := bmm_geom2d_scale fdiff (-1) in
      let dem := add_f dem jpart fdiff2 in
      add_tau dem jpart (c_ft c * rj)
  end.

(** [bmm_dem_force_ambient]: every component of [f[ipart]] is multiplied by
    [1.0 - 1e-2] (creeping) or by [1.0]. *)
Definition bmm_dem_force_ambient (dem : bmm_dem) (ipart : Z) : bmm_dem :=
  let p := part dem in
  let k := match opts_famb (opts dem) with
           | BMM_DEM_FAMB_CREEPING => (1 - 1 / 100)%R
           | BMM_DEM_FAMB_QUAD => 1%R
           | BMM_DEM_FAMB_CORR => 1%R
           end in
  set_part (set_part_f (upd (part_f p) ipart
                          (fst (part_f p ipart) * k, snd (part_f p ipart) * k)%R) p) dem.

(** [bmm_dem_force_link]: the body is [return;]. *)
Definition bmm_dem_force_link (dem : bmm_dem) (ipart jpart ilink : Z) : bmm_dem :=
  dem.

(** [bmm_dem_force_external]. *)
Definition bmm_dem_force_external (dem : bmm_dem) (ipart : Z) : bmm_dem :=
  let o := opts dem in
  match script_mode o (script_i dem) with
  | BMM_DEM_MODE_SEDIMENT =>
      let p := part dem in
      set_part (set_part_f
        (upd (part_f p) ipart
           (fst (part_f p ipart),
            snd (part_f p ipart) +
            sediment_kcohes o (script_i dem) *
            (snd (box_x o) / 2 - snd (part_x p ipart)))%R) p) dem
  | _ => dem
  end.

(** The passes of [bmm_dem_force]. *)
Definition force_clear (dem : bmm_dem) : bmm_dem :=
  fold_left (fun dem ipart =>
      let p := part dem in
      let dem := set_part (set_part_f (upd (part_f p) ipart (0, 0)%R) p) dem in
      let p := part dem in
      set_part (set_part_tau (upd (part_tau p) ipart 0%R) p) dem)
    (zrange (part_n (part dem))) dem.

Definition force_ambients (dem : bmm_dem) : bmm_dem :=
  fold_left bmm_dem_force_ambient (zrange (part_n (part dem))) dem.

Definition force_pairs (dem : bmm_dem) : bmm_dem :=
  match opts_caching (opts dem) with
  | BMM_DEM_CACHING_NONE =>
      fold_left (fun dem ipart =>
          fold_left (fun dem k => bmm_dem_force_pair dem ipart (ipart + 1 + k))
            (zrange (part_n (part dem) - (ipart + 1))) dem)
        (zrange (part_n (part dem))) dem
  | BMM_DEM_CACHING_NEIGH =>
      fold_left (fun dem ipart =>
          fold_left (fun dem jpart => bmm_dem_force_pair dem ipart jpart)
            (cache_neigh (cache dem) ipart) dem)
        (zrange (part_n (part dem))) dem
  end.

(** The cohesive-bond pass. *)
Definition force_links (dem : bmm_dem) : bmm_dem :=
  fold_left (fun dem ipart =>
      fold_left (fun dem ilink =>
          bmm_dem_force_link dem ipart (link_i (link dem ipart) ilink) ilink)
        (zrange (link_n (link dem ipart))) dem)
    (zrange (part_n (part dem))) dem.

Definition force_externals (dem : bmm_dem) : bmm_dem :=
  fold_left bmm_dem_force_external (zrange (part_n (part dem))) dem.

(** [bmm_dem_force]. *)
Definition bmm_dem_force (dem : bmm_dem) : bmm_dem :=
  force_externals (force_links (force_pairs (force_ambients (force_clear dem)))).

(** *** The initial state *)

Definition links_zero : bmm_dem_links :=
  {| link_n := 0; link_i := fun _ => 0; link_rrest := fun _ => 0%R;
     link_phirest := fun _ => (0, 0)%R; link_rlim := fun _ => 0%R;
     link_philim := fun _ => 0%R |}.

(** [bmm_dem_def]: the state is zeroed by [memset] and the counters are
    set to zero. *)
Definition bmm_dem_def (o : bmm_dem_opts) : bmm_dem :=
  {| opts := o;
     part := {| part_n := 0; part_lnew := 0; part_l := fun _ => 0;
                part_role := fun _ => BMM_DEM_ROLE_FREE;
                part_r := fun _ => 0%R; part_m := fun _ => 0%R;
                part_jred := fun _ => 0%R; part_x := fun _ => (0, 0)%R;
                part_v := fun _ => (0, 0)%R; part_a := fun _ => (0, 0)%R;
                part_phi := fun _ => 0%R; part_omega := fun _ => 0%R;
                part_alpha := fun _ => 0%R; part_f := fun _ => (0, 0)%R;
                part_tau := fun _ => 0%R |};
     link := fun _ => links_zero;
     script_i := 0;
     cache := {| cache_stale := false; cache_j := fun _ => 0%R;
                 cache_x := fun _ => (0, 0)%R; cache_ijcell := fun _ => (0, 0);
                 cache_icell := fun _ => 0; cache_part := fun _ => [];
                 cache_neigh := fun _ => [] |} |}.

(** *** Sequences of add and remove operations *)

Inductive op : Type :=
| Add
| Remove (ipart : Z).

(** One operation; a remove needs a valid index [ipart < n]. *)
Definition step (dem : bmm_dem) (o : op) : option bmm_dem :=
  match o with
  | Add => Some (snd (bmm_dem_addpart dem))
  | Remove ipart =>
      if (0 <=? ipart) && (ipart <? part_n (part dem))
      then Some (bmm_dem_rempart dem ipart)
      else None
  end.

Fixpoint run (ops : list op) (dem : bmm_dem) : option bmm_dem :=
  match ops with
  | [] => Some dem
  | o :: ops' =>
      match step dem o with
      | Some dem' => run ops' dem'
      | None => None
      end
  end.

Definition count_adds (ops : list op) : Z :=
  Z.of_nat (length (filter (fun o => match o with Add => true | _ => false end) ops)).

(** The labels of the active slots are pairwise distinct. *)
Definition labels_distinct (dem : bmm_dem) : Prop :=
  forall i j, 0 <= i < part_n (part dem) -> 0 <= j < part_n (part dem) ->
    part_l (part dem) i = part_l (part dem) j -> i = j.

(** The invariant behind the labels: [k] labels have been handed out so
    far, the counter [lnew] is [k] (in [size_t]), and the active slots
    carry pairwise distinct labels below [k]. *)
Definition labels_inv (k : Z) (dem : bmm_dem) : Prop :=
  0 <= part_n (part dem) <= BMM_MPART /\
  0 <= k <= 2 ^ 64 /\
  part_lnew (part dem) = size_wrap k /\
  (forall i, 0 <= i < part_n (part dem) -> 0 <= part_l (part dem) i < k) /\
  labels_distinct dem.

End Conf.

(** The clamp of the specification. *)
Definition clamp (v lo hi : Z) : Z := Z.max lo (Z.min v hi).

End Dem.

(** ** Concrete states *)

Module Examples.
Import Dem.
Local Open Scope R_scope.

(** A box of 4 by 4 with 6 by 6 cells (4 by 4 inside the box), not
    periodic, cutoff 1, dashpot and Haff-Werner laws with unit
    parameters. *)
Definition opts_ex : bmm_dem_opts :=
  {| opts_caching := BMM_DEM_CACHING_NEIGH;
     opts_famb := BMM_DEM_FAMB_CREEPING;
     opts_fnorm := BMM_DEM_FNORM_DASHPOT;
     opts_ftang := BMM_DEM_FTANG_HW;
     box_x := (4, 4);
     box_per := (false, false);
     opts_part_y := 1;
     dashpot_gamma := 1;
     hw_gamma := 1;
     hw_mu := 1;
     script_mode := fun _ => BMM_DEM_MODE_IDLE;
     sediment_kcohes := fun _ => 0;
     cache_ncell := (6, 6)%Z;
     cache_rcutoff := 1 |}.

(** Two particles with labels 0 and 1, unit mass, the given positions,
    velocities, radii and cached positions. *)
Definition two_particles (x0 x1 v0 v1 : vec) (r : R) (cx0 cx1 : vec) : bmm_dem :=
  let d := bmm_dem_def opts_ex in
  let sel {T : Type} (a b : T) : Z -> T := fun k => if (k =? 0)%Z then a else b in
  set_cache (set_cache_x (sel cx0 cx1) (cache d))
    (set_part
       {| part_n := 2; part_lnew := 2; part_l := fun k => k;
          part_role := fun _ => BMM_DEM_ROLE_FREE;
          part_r := fun _ => r; part_m := fun _ => 1;
          part_jred := fun _ => bmm_geom_ballprmoi2;
          part_x := sel x0 x1; part_v := sel v0 v1;
          part_a := fun _ => (0, 0);
          part_phi := fun _ => 0; part_omega := fun _ => 0;
          part_alpha := fun _ => 0; part_f := fun _ => (0, 0);
          part_tau := fun _ => 0 |}
       d).

(** Two touching particles of radius 1 that move apart. *)
Definition dem_touching : bmm_dem :=
  two_particles (0, 0) (2, 0) (-1, 0) (0, 0) 1 (0, 0) (2, 0).

(** Two particles 3/4 apart in horizontally adjacent cells; the particle
    with the lower index is in the cell with the higher index. *)
Definition dem_adjacent : bmm_dem :=
  two_particles (5 / 2, 5 / 2) (7 / 4, 5 / 2) (0, 0) (0, 0) (/ 8) (0, 0) (0, 0).




(** One add, then [2 ^ 64 - 1] rounds of an add and a remove of the second
    particle, then a final add: [2 ^ 64 + 1] adds in all. *)
Definition ops_wrap_around : list op :=
  Add :: concat (repeat [Add; Remove 1] (Z.to_nat (2 ^ 64 - 1))) ++ [Add].

End Examples.

(** ** [scalar_sint.h]: overflow tests for signed integer types

    [type(zero, A)()], [type(one, A)()], [type(minval, A)()] and
    [type(maxval, A)()] are declared outside the given sources; they are the
    constants 0 and 1 and the limits of the type [A]. *)

Module ScalarSint.
Import Outcome CInt.

(** The operators [&&] and [||]: the right operand is evaluated only when
    the left one does not decide. *)
Definition and_then (a b : outcome bool) : outcome bool :=
  l <- a ;; if l then b else Val false.

Definition or_else (a b : outcome bool) : outcome bool :=
  l <- a ;; if l then Val true else b.

(** The unary operator [-] on an operand of type [A]. *)
Definition c_neg (A : ctype) (x : Z) : outcome Z := chk (promote A) (- x).

(** [add_ovf]:
<<
  return (y > zero() && maxval() - y < x) ||
    (y < zero() && minval() - y > x);
>> *)
Definition add_ovf (A : ctype) (x y : Z) : outcome bool :=
  or_else
    (and_then (Val (y >? 0)) (d <- c_sub A (maxval A) y ;; Val (d <? x)))
    (and_then (Val (y <? 0)) (d <- c_sub A (minval A) y ;; Val (d >? x))).

(** [neg_ovf]:
<<
  return (x > zero() && minval() + x > zero()) ||
    (x < zero() && maxval() + x < zero());
>> *)
Definition neg_ovf (A : ctype) (x : Z) : outcome bool :=
  or_else
    (and_then (Val (x >? 0)) (d <- c_add A (minval A) x ;; Val (d >? 0)))
    (and_then (Val (x <? 0)) (d <- c_add A (maxval A) x ;; Val (d <? 0))).

(** [sub_ovf]:
<<
  return (y > zero() && minval() + y > x) ||
    (y < zero() && maxval() + y < x);
>> *)
Definition sub_ovf (A : ctype) (x y : Z) : outcome bool :=
  or_else
    (and_then (Val (y >? 0)) (d <- c_add A (minval A) y ;; Val (d >? x)))
    (and_then (Val (y <? 0)) (d <- c_add A (maxval A) y ;; Val (d <? x))).

(** [mul_ovf]:
<<
  return x != zero() && (x > zero() ?
      (y > zero() ? maxval() / x < y :
        minval() / x > y) :
      (y > zero() ? minval() / y > x :
        (minval() + maxval() <= zero() ?
          maxval() / x > y :
          maxval() / -x < -y)));
>> *)
Definition mul_ovf (A : ctype) (x y : Z) : outcome bool :=
  and_then (Val (negb (x =? 0)))
    (if x >? 0 then
       (if y >? 0 then q <- c_div A (maxval A) x ;; Val (q <? y)
        else q <- c_div A (minval A) x ;; Val (q >? y))
     else
       (if y >? 0 then q <- c_div A (minval A) y ;; Val (q >? x)
        else
          s <- c_add A (minval A) (maxval A) ;;
          if s <=? 0 then q <- c_div A (maxval A) x ;; Val (q >? y)
          else
            nx <- c_neg A x ;; q <- c_div A (maxval A) nx ;;
            ny <- c_neg A y ;; Val (q <? ny))).

(** The condition that [quott_ovf] asserts about the limits of the type:
<<
  (minval() + maxval() <= zero() &&
    minval() / (one() + one()) + maxval() >= zero()) ||
  (minval() + maxval() >= zero() &&
    minval() + maxval() / (one() + one()) <= zero())
>> *)
Definition quott_limits (A : ctype) : outcome bool :=
  or_else
    (and_then (s <- c_add A (minval A) (maxval A) ;; Val (s <=? 0))
       (two <- c_add A 1 1 ;; h <- c_div A (minval A) two ;;
        s <- c_add A h (maxval A) ;; Val (s >=? 0)))
    (and_then (s <- c_add A (minval A) (maxval A) ;; Val (s >=? 0))
       (two <- c_add A 1 1 ;; h <- c_div A (maxval A) two ;;
        s <- c_add A (minval A) h ;; Val (s <=? 0))).

(** [quott_ovf], the value it returns:
<<
  return minval() + maxval() <= zero() ?
    x < -maxval() && y < zero() && y == -one() :
    x > -minval() && y < zero() && y == -one();
>> *)
Definition quott_ovf (A : ctype) (x y : Z) : outcome bool :=
  s <- c_add A (minval A) (maxval A) ;;
  if s <=? 0 then
    and_then (and_then (m <- c_neg A (maxval A) ;; Val (x <? m)) (Val (y <? 0)))
      (m <- c_neg A 1 ;; Val (y =? m))
  else
    and_then (and_then (m <- c_neg A (minval A) ;; Val (x >? m)) (Val (y <? 0)))
      (m <- c_neg A 1 ;; Val (y =? m)).

End ScalarSint.

(** ** [common_uint.h]: hypercubes *)

Module Hypercube.
Import Outcome CInt CommonUint.

(** One round of the loop of [bmm_hc]:
<<
  dm = bmm_quot(dm.quot, nper);
  pij[ndim - 1 - idim] = dm.rem;
>> *)
Definition hc_step (ndim : nat) (nper : Z)
    (st : outcome (Z * list Z)) (idim : nat) : outcome (Z * list Z) :=
  qp <- st ;;
  dm <- bmm_quot (fst qp) nper ;;
  Val (fst dm, set_nth (ndim - 1 - idim) (snd dm) (snd qp)).

(** [bmm_hc(pij, i, ndim, nper)]; the result is the array [pij]. *)
Definition bmm_hc (pij : list Z) (i : Z) (ndim : nat) (nper : Z)
    : outcome (list Z) :=
  qp <- fold_left (hc_step ndim nper) (seq 0 ndim) (Val (i, pij)) ;;
  Val (snd qp).

(** [bmm_unhc(ij, ndim, nper)] in an unsigned type of [w] bits:
<<
  A i = 0;
  for (size_t idim = 0; idim < ndim; ++idim) {
    i *= nper;
    i += ij[idim];
  }
>> *)
Definition unhc_step (w : Z) (ij : list Z) (nper : Z) (i : Z) (idim : nat) : Z :=
  (((i * nper) mod 2 ^ w) + nth idim ij 0) mod 2 ^ w.

Definition bmm_unhc (w : Z) (ij : list Z) (ndim : nat) (nper : Z) : Z :=
  fold_left (unhc_step w ij nper) (seq 0 ndim) 0.

End Hypercube.

(** ** [tests.c]: the truncated arithmetic mean *)

Module Tamean.
Import Outcome CInt.

(** The value of a comparison used as an integer. *)
Definition b2z (b : bool) : Z := if b then 1 else 0.

(** [tamean2] at [signed char] (the file defines [A] as [signed_char]):
<<
  A const z = (x / 2 + y / 2);
  if ((x % 2 == 0) && (y % 2 == 0)) return z;
  if ((x % 2 == 1) && (y % 2 == 1)) return z + (z >= 0);
  if ((x % 2 == -1) && (y % 2 == -1)) return z - (z <= 0);
  if ((x % 2 == 1 && y % 2 == -1) || (x % 2 == -1 && y % 2 == 1)) return z;
  if ((x % 2 == 0 && y % 2 == 1) || (x % 2 == 1 && y % 2 == 0))
    return z + (z < 0);
  if ((x % 2 == -1 && y % 2 == 0) || (x % 2 == 0 && y % 2 == -1))
    return z - (z > 0);
  return -128;
>>
    The remainders [x % 2] and [y % 2], which the source writes out at
    every use, are computed once. *)
Definition tamean2 (x y : Z) : outcome Z :=
  let A := signed_char in
  qx <- c_div A x 2 ;; qy <- c_div A y 2 ;;
  z0 <- c_add A qx qy ;; z <- chk A z0 ;;
  rx <- c_rem A x 2 ;; ry <- c_rem A y 2 ;;
  if (rx =? 0) && (ry =? 0) then Val z
  else if (rx =? 1) && (ry =? 1) then
    r <- c_add A z (b2z (z >=? 0)) ;; chk A r
  else if (rx =? -1) && (ry =? -1) then
    r <- c_sub A z (b2z (z <=? 0)) ;; chk A r
  else if ((rx =? 1) && (ry =? -1)) || ((rx =? -1) && (ry =? 1)) then Val z
  else if ((rx =? 0) && (ry =? 1)) || ((rx =? 1) && (ry =? 0)) then
    r <- c_add A z (b2z (z <? 0)) ;; chk A r
  else if ((rx =? -1) && (ry =? 0)) || ((rx =? 0) && (ry =? -1)) then
    r <- c_sub A z (b2z (z >? 0)) ;; chk A r
  else Val (-128).

(** [ref], the reference of the test: [(x + y) / 2] computed in [int]. *)
Definition ref (x y : Z) : outcome Z :=
  s <- c_add int x y ;; c_div int s 2.

End Tamean.

(** ** [dem.c]: bonds and estimators *)

Module DemMore.
Import Fp Neigh Dem.
Local Open Scope R_scope.

(** [dem->link.part[ipart].n = n]. *)
Definition set_link_n (n : Z) (l : bmm_dem_links) : bmm_dem_links :=
  {| link_n := n; link_i := link_i l; link_rrest := link_rrest l;
     link_phirest := link_phirest l; link_rlim := link_rlim l;
     link_philim := link_philim l |}.

(** [bmm_dem_unlink]. *)
Definition bmm_dem_unlink (dem : bmm_dem) : bool * bmm_dem :=
  (true,
   fold_left (fun dem ipart =>
       set_link (upd (link dem) ipart (set_link_n 0 (link dem ipart))) dem)
     (zrange (part_n (part dem))) dem).

(** [bmm_dem_maxvel]; [fmax] is the maximum of two reals. *)
Definition bmm_dem_maxvel (dem : bmm_dem) : vec :=
  (fold_left (fun v ipart => Rmax v (fst (part_v (part dem) ipart)))
     (zrange (part_n (part dem))) 0,
   fold_left (fun v ipart => Rmax v (snd (part_v (part dem) ipart)))
     (zrange (part_n (part dem))) 0).

(** [bmm_dem_maxrad]. *)
Definition bmm_dem_maxrad (dem : bmm_dem) : R :=
  fold_left (fun r ipart => Rmax r (part_r (part dem) ipart))
    (zrange (part_n (part dem))) 0.

(** Two states that differ in the cache only. *)
Definition same_model (d d' : bmm_dem) : Prop :=
  opts d' = opts d /\ part d' = part d /\ link d' = link d /\
  script_i d' = script_i d.


(** Everything that [dem->part] holds about the particle in the slot
    [k]. *)
Definition particle (d : bmm_dem) (k : Z)
    : Z * bmm_dem_role * (R * R * R) * (vec * vec * vec) * (R * R * R) * (vec * R) :=
  let p := part d in
  (part_l p k, part_role p k, (part_r p k, part_m p k, part_jred p k),
   (part_x p k, part_v p k, part_a p k),
   (part_phi p k, part_omega p k, part_alpha p k),
   (part_f p k, part_tau p k)).

End DemMore.

(** ** C doubles: IEEE 754 binary64

    The kernel's primitive floats are binary64 numbers with the operations
    of IEEE 754 in the round-to-nearest-even mode, which is how a C
    [double] computes; a double is read through [Prim2SF] as a sign, a
    mantissa and an exponent.  There is one NaN, without sign or payload. *)

Module Double.
Import PrimFloat SpecFloat FloatOps CInt.

(** [double[BMM_NDIM]] with [BMM_NDIM = 2]. *)
Definition vec : Set := (float * float)%type.

(** [x > y] and [x >= y]; like [x < y] ([ltb]), [x <= y] ([leb]) and
    [x == y] ([eqb]) they are false when an operand is a NaN. *)
Definition gtb (x y : float) : bool := ltb y x.
Definition geb (x y : float) : bool := leb y x.

(** [fmax] and [fmin] of [math.h]: a NaN operand is dropped in favour of
    the other operand; of two zeros the first is returned. *)
Definition fmax (x y : float) : float := if is_nan y || geb x y then x else y.
Definition fmin (x y : float) : float := if is_nan y || leb x y then x else y.

(** [copysign(x, y)] of [math.h]; the NaN counts as positive. *)
Definition copysign (x y : float) : float :=
  if get_sign y then opp (abs x) else abs x.

(** The conversion [(double) v] of an integer, rounded to the nearest
    double. *)
Definition of_Z (v : Z) : float := SF2Prim (binary_normalize prec emax v 0 false).

(** The exact value of a finite double, in units of [2 ^ -1074]. *)
Definition SFscaled (f : spec_float) : Z :=
  match f with
  | S754_finite s m e => cond_Zopp s (Zpos m * 2 ^ (e + 1074))
  | _ => 0
  end.

(** Zeros and finite numbers, as opposed to the infinities and the NaN. *)
Definition SFnumber (f : spec_float) : bool :=
  match f with
  | S754_zero _ | S754_finite _ _ _ => true
  | _ => false
  end.

(** The floor of the exact value [s m * 2 ^ e] of a finite double. *)
Definition SFfloor (f : spec_float) : option Z :=
  match f with
  | S754_zero _ => Some 0
  | S754_finite s m e => Some (Z.shiftl (cond_Zopp s (Zpos m)) e)
  | _ => None
  end.

(** [floor] of [math.h]: doubles at a non-negative exponent are integers,
    and so are the zeros, the infinities and the NaN their own floor. *)
Definition floor (x : float) : float :=
  match Prim2SF x with
  | S754_finite s m e =>
      if e <? 0 then of_Z (Z.shiftl (cond_Zopp s (Zpos m)) e) else x
  | _ => x
  end.

(** The conversion [(size_t) t]: the value is truncated towards zero; the
    conversion is undefined when the truncated value is not a value of
    [size_t], and for the infinities and the NaN. *)
Definition to_size (t : float) : outcome Z :=
  match Prim2SF t with
  | S754_zero _ => Val 0
  | S754_finite s m e => chk size_t (cond_Zopp s (Z.shiftl (Zpos m) e))
  | _ => Undefined
  end.

End Double.

(** ** [fp.h] and [geom2d.h] in doubles

    The two headers are not among the sources; what [dem.c] uses of them
    is modelled here, every operation rounded as the double operation
    is. *)

Module Fp64.
Import PrimFloat Double.
Local Open Scope float_scope.

(** Modelled from the spec: [bmm_fp_sq] of [fp.h], the square. *)
Definition bmm_fp_sq (x : float) : float := x * x.

(** Modelled from the spec: [bmm_fp_lerp(x, x0, x1, y0, y1)] of [fp.h], the
    linear interpolation that takes [[x0, x1]] to [[y0, y1]]. *)
Definition bmm_fp_lerp (x x0 x1 y0 y1 : float) : float :=
  (x - x0) * (y1 - y0) / (x1 - x0) + y0.

(** Modelled from the spec: [bmm_fp_swrap(x, p)] of [fp.h], "symmetric wrap
    into [−p/2, p/2)": [x] shifted by the multiple of [p] that brings it
    there. *)
Definition bmm_fp_swrap (x p : float) : float :=
  x - p * floor ((x + p / 2) / p).

(** Modelled from the spec: the 2D vector primitives of [geom2d.h].
    [diff] is the difference [x0 − x1] of its arguments ("v[i] − v[j]");
    [cpdiff] is the periodic shortest difference [x1 − x0] that leads from
    the first point to the second (the normal of a contact points from
    [x[i]] to [x[j]], so that [−fn·n] pushes the particle [i] away from
    [j], and a bond takes its angle from [dir(x_j − x_i)]), wrapped in the
    periodic dimensions only. *)
Definition bmm_geom2d_diff (x0 x1 : vec) : vec :=
  (fst x0 - fst x1, snd x0 - snd x1).

Definition bmm_geom2d_cpdiff (x0 x1 xper : vec) (per : bool * bool) : vec :=
  ((if fst per then bmm_fp_swrap (fst x1 - fst x0) (fst xper) else fst x1 - fst x0),
   (if snd per then bmm_fp_swrap (snd x1 - snd x0) (snd xper) else snd x1 - snd x0)).

Definition bmm_geom2d_dot (x y : vec) : float := fst x * fst y + snd x * snd y.
Definition bmm_geom2d_norm2 (x : vec) : float := bmm_geom2d_dot x x.
Definition bmm_geom2d_scale (x : vec) (a : float) : vec := (fst x * a, snd x * a).
Definition bmm_geom2d_rperp (x : vec) : vec := (snd x, - fst x).
Definition bmm_geom2d_addto (x y : vec) : vec := (fst x + fst y, snd x + snd y).

End Fp64.

(** ** [dem.c] in doubles

    The functions of [dem.c] whose result turns on the values that the
    double arithmetic produces: the cell of a particle, the expiry of the
    cache and the force between two particles. *)

Module Dem64.
Import PrimFloat SpecFloat FloatOps CInt Double Fp64.
Import Dem.

(** [struct bmm_dem_opts], the fields read by the functions below. *)
Record bmm_dem_opts : Type := {
  opts_fnorm : bmm_dem_fnorm;
  opts_ftang : bmm_dem_ftang;
  box_x : vec;
  box_per : bool * bool;
  opts_part_y : float;
  dashpot_gamma : float;
  hw_gamma : float;
  hw_mu : float;
  cache_ncell : Z * Z
}.

(** [dem->part], the arrays read or written by the functions below. *)
Record bmm_dem_part : Type := {
  part_n : Z;
  part_r : Z -> float;
  part_x : Z -> vec;
  part_v : Z -> vec;
  part_omega : Z -> float;
  part_f : Z -> vec;
  part_tau : Z -> float
}.

(** [dem->cache], the arrays read or written by the functions below. *)
Record bmm_dem_cache : Type := {
  cache_x : Z -> vec;
  cache_ijcell : Z -> Z * Z
}.

(** [struct bmm_dem]. *)
Record bmm_dem : Type := {
  opts : bmm_dem_opts;
  part : bmm_dem_part;
  cache : bmm_dem_cache
}.

Definition set_part (p : bmm_dem_part) (dem : bmm_dem) : bmm_dem :=
  {| opts := opts dem; part := p; cache := cache dem |}.

Definition set_cache (c : bmm_dem_cache) (dem : bmm_dem) : bmm_dem :=
  {| opts := opts dem; part := part dem; cache := c |}.

Definition set_part_f (f : Z -> vec) (p : bmm_dem_part) : bmm_dem_part :=
  {| part_n := part_n p; part_r := part_r p; part_x := part_x p;
     part_v := part_v p; part_omega := part_omega p; part_f := f;
     part_tau := part_tau p |}.

Definition set_part_tau (tau : Z -> float) (p : bmm_dem_part) : bmm_dem_part :=
  {| part_n := part_n p; part_r := part_r p; part_x := part_x p;
     part_v := part_v p; part_omega := part_omega p; part_f := part_f p;
     part_tau := tau |}.

Definition set_cache_ijcell (ij : Z -> Z * Z) (c : bmm_dem_cache) : bmm_dem_cache :=
  {| cache_x := cache_x c; cache_ijcell := ij |}.

(** *** The cell of a particle *)

(** The clamped floor [clamp(floor(t), lo, hi)] of a double [t]: the floor
    is that of the exact value of [t], the infinities are clamped to the
    ends, and a NaN has no floor. *)
Definition clamp_floor (t : float) (lo hi : Z) : option Z :=
  match Prim2SF t with
  | S754_nan => None
  | S754_infinity s => Some (if s then lo else hi)
  | f => option_map (fun z => clamp z lo hi) (SFfloor f)
  end.

(** The interpolated coordinate [t] of [bmm_dem_cache_ijcell]:
<<
  size_t const i = dem->opts.cache.ncell[idim] - 1;
  double const a = 1.0;
  double const b = (double) i;
  double const t = bmm_fp_lerp(dem->cache.x[ipart][idim],
      0.0, dem->opts.box.x[idim], a, b);
>> *)
Definition cache_ijcell_t (ncell : Z) (boxx x : float) : float :=
  bmm_fp_lerp x 0 boxx 1 (of_Z (size_wrap (ncell - 1))).

(** One round of the loop of [bmm_dem_cache_ijcell]:
<<
  if (t < a) ijcell = 0;
  else if (t >= b) ijcell = i;
  else {
    size_t const j = (size_t) t;
    dynamic_assert(j < i, "Invalid truncation");
    ijcell = j;
  }
>>
    The assertion is not part of the result. *)
Definition cache_ijcell_dim (ncell : Z) (boxx x : float) : outcome Z :=
  let i := size_wrap (ncell - 1) in
  let a := 1%float in
  let b := of_Z i in
  let t := cache_ijcell_t ncell boxx x in
  if ltb t a then Val 0
  else if geb t b then Val i
  else to_size t.

(** [bmm_dem_cache_ijcell]. *)
Definition bmm_dem_cache_ijcell (dem : bmm_dem) (ipart : Z) : outcome bmm_dem :=
  let o := opts dem in
  let x := cache_x (cache dem) ipart in
  (j0 <- cache_ijcell_dim (fst (cache_ncell o)) (fst (box_x o)) (fst x) ;;
   j1 <- cache_ijcell_dim (snd (cache_ncell o)) (snd (box_x o)) (snd x) ;;
   Val (set_cache (set_cache_ijcell
          (upd (cache_ijcell (cache dem)) ipart (j0, j1)) (cache dem)) dem))%outcome.

(** *** The expiry of the cache *)

(** The two sides of the comparison of [bmm_dem_cache_expired]:
<<
  double const dx = dem->opts.box.x[idim] /
    (double) ((dem->opts.cache.ncell[idim] - 2) * 2);
  ...
  fabs(bmm_fp_swrap(dem->part.x[ipart][idim] -
       dem->cache.x[ipart][idim], dem->opts.box.x[idim])) >=
    dx - dem->part.r[ipart]
>> *)
Definition drift (dem : bmm_dem) (idim ipart : Z) : float :=
  abs (bmm_fp_swrap
         (sub (dim (part_x (part dem) ipart) idim)
              (dim (cache_x (cache dem) ipart) idim))
         (dim (box_x (opts dem)) idim)).

Definition safe_radius (dem : bmm_dem) (idim ipart : Z) : float :=
  let o := opts dem in
  let dx := div (dim (box_x o) idim)
                (of_Z (size_wrap (size_wrap (dim (cache_ncell o) idim - 2) * 2))) in
  sub dx (part_r (part dem) ipart).

(** [bmm_dem_cache_expired]: [true] at the first dimension and particle
    for which the comparison holds. *)
Definition bmm_dem_cache_expired (dem : bmm_dem) : bool :=
  existsb (fun idim =>
      existsb (fun ipart => geb (drift dem idim ipart) (safe_radius dem idim ipart))
              (zrange (part_n (part dem))))
    (zrange BMM_NDIM).

(** *** The force between two particles *)

(** [f[ipart] += df] ([bmm_geom2d_addto]) and [tau[ipart] += dtau]. *)
Definition add_f (dem : bmm_dem) (ipart : Z) (df : vec) : bmm_dem :=
  let p := part dem in
  set_part (set_part_f (upd (part_f p) ipart (bmm_geom2d_addto (part_f p ipart) df)) p) dem.

Definition add_tau (dem : bmm_dem) (ipart : Z) (dtau : float) : bmm_dem :=
  let p := part dem in
  set_part (set_part_tau (upd (part_tau p) ipart (add (part_tau p ipart) dtau)) p) dem.

(** The first lines of [bmm_dem_force_pair]: the squared distance [d2] of
    the centres and the sum [r] of the radii. *)
Definition pair_d2 (dem : bmm_dem) (ipart jpart : Z) : float :=
  bmm_geom2d_norm2
    (bmm_geom2d_cpdiff (part_x (part dem) ipart) (part_x (part dem) jpart)
       (box_x (opts dem)) (box_per (opts dem))).

Definition pair_r (dem : bmm_dem) (ipart jpart : Z) : float :=
  add (part_r (part dem) ipart) (part_r (part dem) jpart).

(** The local variables of [bmm_dem_force_pair] once the pair is known to
    be in contact. *)
Record contact : Type := {
  c_d : float;
  c_xnorm : vec;
  c_xtang : vec;
  c_xi : float;
  c_dotxi : float;
  c_vtang : float;
  c_fn : float;
  c_ft : float
}.

(** The first half of [bmm_dem_force_pair]: [None] is the early [return]
    at [d2 > r2 || d2 == 0.0]. *)
Definition force_pair_contact (dem : bmm_dem) (ipart jpart : Z) : option contact :=
  let o := opts dem in
  let p := part dem in
  let xdiff := bmm_geom2d_cpdiff (part_x p ipart) (part_x p jpart) (box_x o) (box_per o) in
  let d2 := bmm_geom2d_norm2 xdiff in
  let r := add (part_r p ipart) (part_r p jpart) in
  let r2 := bmm_fp_sq r in
  if gtb d2 r2 || eqb d2 0 then None
  else
    let d := sqrt d2 in
    let xnorm := bmm_geom2d_scale xdiff (div 1 d) in
    let xtang := bmm_geom2d_rperp xnorm in
    let vdiff := bmm_geom2d_diff (part_v p ipart) (part_v p jpart) in
    let xi := sub r d in
    let dotxi := bmm_geom2d_dot vdiff xnorm in
    let vtang := add (add (bmm_geom2d_dot vdiff xtang)
                          (mul (part_r p ipart) (part_omega p ipart)))
                     (mul (part_r p jpart) (part_omega p jpart)) in
    let fn := match opts_fnorm o with
              | BMM_DEM_FNORM_DASHPOT =>
                  fmax 0 (add (mul (opts_part_y o) xi) (mul (dashpot_gamma o) dotxi))
              | _ => 0%float
              end in
    let ft := match opts_ftang o with
              | BMM_DEM_FTANG_HW =>
                  opp (copysign (fmin (mul (hw_gamma o) (abs vtang)) (mul (hw_mu o) fn))
                         vtang)
              | _ => 0%float
              end in
    Some {| c_d := d; c_xnorm := xnorm; c_xtang := xtang; c_xi := xi;
            c_dotxi := dotxi; c_vtang := vtang; c_fn := fn; c_ft := ft |}.

(** [bmm_dem_force_pair]. *)
Definition bmm_dem_force_pair (dem : bmm_dem) (ipart jpart : Z) : bmm_dem :=
  match force_pair_contact dem ipart jpart with
  | None => dem
  | Some c =>
      let ri := part_r (part dem) ipart in
      let rj := part_r (part dem) jpart in
      let fdiff := bmm_geom2d_scale (c_xnorm c) (opp (c_fn c)) in
      let dem := add_f dem ipart fdiff in
      let fdiff2 := bmm_geom2d_scale fdiff (-1) in
      let dem := add_f dem jpart fdiff2 in
      let fdiff := bmm_geom2d_scale (c_xtang c) (c_ft c) in
      let dem := add_f dem ipart fdiff in
      let dem := add_tau dem ipart (mul (c_ft c) ri) in
      let fdiff2 := bmm_geom2d_scale fdiff (-1) in
      let dem := add_f dem jpart fdiff2 in
      add_tau dem jpart (mul (c_ft c) rj)
  end.

End Dem64.

(** ** Concrete states in doubles *)

Module Examples64.
Import PrimFloat Double Dem Dem64.

(** A box of 4 by 4 with 6 by 6 cells (4 by 4 inside the box), not
    periodic, dashpot and Haff-Werner laws with unit parameters. *)
Definition opts_ex : bmm_dem_opts :=
  {| opts_fnorm := BMM_DEM_FNORM_DASHPOT;
     opts_ftang := BMM_DEM_FTANG_HW;
     box_x := (4, 4)%float;
     box_per := (false, false);
     opts_part_y := 1;
     dashpot_gamma := 1;
     hw_gamma := 1;
     hw_mu := 1;
     cache_ncell := (6, 6) |}.

(** Two particles that do not rotate, with the given positions,
    velocities, radii and cached positions. *)
Definition two_particles (x0 x1 v0 v1 : vec) (r : float) (cx0 cx1 : vec) : bmm_dem :=
  let sel {T : Type} (a b : T) : Z -> T := fun k => if k =? 0 then a else b in
  {| opts := opts_ex;
     part := {| part_n := 2; part_r := fun _ => r;
                part_x := sel x0 x1; part_v := sel v0 v1;
                part_omega := fun _ => 0%float;
                part_f := fun _ => (0, 0)%float;
                part_tau := fun _ => 0%float |};
     cache := {| cache_x := sel cx0 cx1; cache_ijcell := fun _ => (0, 0) |} |}.

(** Two touching particles of radius 1, the first at the origin and
    moving towards the second with speed 1. *)
Definition dem_touching : bmm_dem :=
  two_particles (0, 0)%float (2, 0)%float (1, 0)%float (0, 0)%float 1
    (0, 0)%float (2, 0)%float.

(** A particle of radius 1/4 that has moved by 1/4 along the first axis
    since the last rebuild, and one that has not moved. *)
Definition dem_drifted : bmm_dem :=
  two_particles (2.25, 2)%float (1, 1)%float (0, 0)%float (0, 0)%float 0.25
    (2, 2)%float (1, 1)%float.

(** Two particles of radius [(1 + 2^-52) / 2] whose centres are
    [(1 + 2^-52, 2^-26)] apart: the squared distance is the double
    [1 + 3 · 2^-52], whose rounded square root is the sum of the radii
    [1 + 2^-52], while the rounded square of that sum is [1 + 2^-51]. *)
Definition dem_grazing : bmm_dem :=
  two_particles (0, 0)%float (0x1.0000000000001p+0, 0x1p-26)%float
    (0, 0)%float (0, 0)%float 0x1.0000000000001p-1
    (0, 0)%float (0x1.0000000000001p+0, 0x1p-26)%float.

End Examples64.
(** * Properties *)

(** ** Ranges and checked arithmetic *)

Module CIntFacts.

Lemma fits_iff A v : fits A v = true <-> minval A <= v <= maxval A.
Proof. unfold fits. rewrite andb_true_iff, !Z.leb_le. tauto. Qed.

Lemma chk_fits A v : minval A <= v <= maxval A -> chk A v = Val v.
Proof. intros H. unfold chk. apply fits_iff in H. now rewrite H. Qed.

Lemma chk_out A v : ~ (minval A <= v <= maxval A) -> chk A v = Undefined.
Proof.
  intros H. unfold chk. destruct (fits A v) eqn:E; [|reflexivity].
  apply fits_iff in E. contradiction.
Qed.

Lemma pow2_le (n m : Z) : 0 <= n <= m -> 2 ^ n <= 2 ^ m.
Proof. intros H. apply Z.pow_le_mono_r; lia. Qed.

(** Promotion never narrows the range. *)
Lemma promote_range A :
  1 <= bits A ->
  minval (promote A) <= minval A /\ maxval A <= maxval (promote A).
Proof.
  intros Hb. unfold promote. destruct (Z.ltb_spec (bits A) (bits int)) as [H|H].
  - cbn in H. unfold minval, maxval. cbn [signed bits int].
    destruct (signed A).
    + pose proof (pow2_le (bits A - 1) 31 ltac:(lia)). lia.
    + pose proof (pow2_le (bits A) 31 ltac:(lia)).
      change (2 ^ (32 - 1)) with (2 ^ 31). lia.
  - lia.
Qed.

Lemma range_nonempty A : 1 <= bits A -> minval A <= 0 <= maxval A.
Proof.
  intros Hb. unfold minval, maxval.
  pose proof (Z.pow_pos_nonneg 2 (bits A - 1) ltac:(lia) ltac:(lia)).
  pose proof (Z.pow_pos_nonneg 2 (bits A) ltac:(lia) ltac:(lia)).
  destruct (signed A); lia.
Qed.

(** In a signed type narrower than [int] the difference, sum or small
    multiple of two values always fits [int]. *)
Lemma narrow_signed A :
  signed A = true -> 2 <= bits A < 32 ->
  minval (promote A) = - 2 ^ 31 /\ maxval (promote A) = 2 ^ 31 - 1 /\
  - 2 ^ 30 <= minval A /\ maxval A = - minval A - 1 /\ minval A <= - 2.
Proof.
  intros Hs Hb. unfold promote.
  destruct (Z.ltb_spec (bits A) (bits int)) as [H|H]; [|cbn in H; lia].
  unfold minval, maxval. rewrite Hs. cbn [signed bits int].
  change (2 ^ (32 - 1)) with (2 ^ 31).
  pose proof (pow2_le (bits A - 1) 30 ltac:(lia)).
  pose proof (pow2_le 1 (bits A - 1) ltac:(lia)).
  change (2 ^ 1) with 2 in *. lia.
Qed.

End CIntFacts.

(** ** The unsigned wrap *)

Module CommonUintFacts.
Import CIntFacts CommonUint.

Ltac step_chk :=
  rewrite chk_fits by lia; cbn [bind].

Lemma unsigned_range A :
  signed A = false -> 1 <= bits A ->
  minval A = 0 /\ 0 < maxval A /\
  minval (promote A) <= 0 /\ maxval A <= maxval (promote A).
Proof.
  intros Hs Hb. pose proof (promote_range A ltac:(lia)) as [H1 H2].
  assert (Hmin : minval A = 0) by (unfold minval; now rewrite Hs).
  assert (Hmax : maxval A = 2 ^ bits A - 1) by (unfold maxval; now rewrite Hs).
  pose proof (pow2_le 1 (bits A) ltac:(lia)). change (2 ^ 1) with 2 in *. lia.
Qed.

Lemma rem_nonneg A x c :
  minval (promote A) <= 0 -> 0 <= x <= maxval (promote A) -> 0 < c ->
  c_rem A x c = Val (x mod c).
Proof.
  intros Hm Hx Hc. unfold c_rem.
  destruct (Z.eqb_spec c 0) as [->|_]; [lia|].
  rewrite Z.quot_div_nonneg, Z.rem_mod_nonneg by lia.
  pose proof (Z.div_pos x c ltac:(lia) Hc).
  pose proof (Z.div_le_upper_bound x c x Hc ltac:(nia)).
  now step_chk.
Qed.

(** The unsigned [bmm_wrap] returns, without any wrap-around on the way,
    the representative of [x] modulo [b - a] in [[a, b)]. *)
Lemma wrap_uint_spec A x a b :
  signed A = false -> 1 <= bits A ->
  0 <= x <= maxval A -> 0 <= a -> b <= maxval A -> a < b ->
  exists y, bmm_wrap A x a b = Val y /\ a <= y < b /\ (y - x) mod (b - a) = 0.
Proof.
  intros Hs Hb Hx Ha Hbm Hab.
  destruct (unsigned_range A Hs Hb) as (Hmin & Hmax & Hpmin & Hpmax).
  unfold bmm_wrap, c_sub, c_add.
  set (c := b - a). assert (Hc : 0 < c) by (unfold c; lia).
  do 2 step_chk.
  pose proof (Z.mod_pos_bound x c Hc) as Hr.
  pose proof (Z.mod_pos_bound a c Hc) as Hsb.
  rewrite rem_nonneg by lia. cbn [bind]. step_chk.
  rewrite rem_nonneg by lia. cbn [bind]. step_chk.
  pose proof (Z.div_mod x c ltac:(lia)) as Ex.
  pose proof (Z.div_mod a c ltac:(lia)) as Ea.
  destruct (Z.geb_spec (x mod c) (a mod c)) as [Hge|Hlt].
  - do 3 step_chk. eexists; split; [reflexivity|]. split; [lia|].
    replace (x mod c - a mod c + a - x) with ((a / c - x / c) * c) by lia.
    apply Z.mod_mul. lia.
  - do 4 step_chk. eexists; split; [reflexivity|]. split; [lia|].
    replace (c - (a mod c - x mod c) + a - x) with ((1 + a / c - x / c) * c) by lia.
    apply Z.mod_mul. lia.
Qed.

End CommonUintFacts.

(** ** The signed quotient and wrap *)

Module CommonSintFacts.
Import CIntFacts CommonSint.

Ltac step_chk :=
  rewrite chk_fits by lia; cbn [bind].

Lemma signed_range A :
  signed A = true -> 2 <= bits A ->
  minval A = - maxval A - 1 /\ 1 <= maxval A /\
  minval (promote A) <= minval A /\ maxval A <= maxval (promote A).
Proof.
  intros Hs Hb. pose proof (promote_range A ltac:(lia)) as [H1 H2].
  assert (Hmin : minval A = - 2 ^ (bits A - 1)) by (unfold minval; now rewrite Hs).
  assert (Hmax : maxval A = 2 ^ (bits A - 1) - 1) by (unfold maxval; now rewrite Hs).
  pose proof (pow2_le 1 (bits A - 1) ltac:(lia)). change (2 ^ 1) with 2 in *. lia.
Qed.

(** For a positive divisor the signed [bmm_quot] is the floor division and
    its non-negative remainder, computed without overflow. *)
Lemma quot_sint_pos A x c :
  signed A = true -> 2 <= bits A ->
  minval A <= x <= maxval A -> 0 < c <= maxval A ->
  bmm_quot A x c = Val (x / c, x mod c).
Proof.
  intros Hs Hb Hx Hc.
  destruct (signed_range A Hs Hb) as (Hmin & Hmax & Hpmin & Hpmax).
  pose proof (Z.quot_rem' x c) as E.
  assert (Hq : minval A <= Z.quot x c <= maxval A /\ - c < Z.rem x c < c /\
               (Z.rem x c < 0 -> minval A < Z.quot x c)).
  { destruct (Z.le_gt_cases 0 x) as [H0|H0].
    - pose proof (Z.rem_bound_pos x c H0 ltac:(lia)). nia.
    - pose proof (Z.rem_bound_pos (- x) c ltac:(lia) ltac:(lia)).
      pose proof (Z.rem_opp_l' x c). nia. }
  destruct Hq as (Hq & Hr & Hq').
  unfold bmm_quot, c_div, c_rem, c_sub, c_mul, c_add.
  destruct (Z.eqb_spec c 0) as [->|_]; [lia|].
  repeat step_chk.
  destruct (Z.geb_spec (Z.rem x c) 0) as [Hge|Hlt].
  - repeat step_chk. f_equal. f_equal.
    + apply Z.div_unique with (r := Z.rem x c); lia.
    + apply Z.mod_unique with (q := Z.quot x c); lia.
  - destruct (Z.ltb_spec c 0) as [?|_]; [lia|].
    repeat step_chk. f_equal. f_equal.
    + apply Z.div_unique with (r := Z.rem x c + 1 * c); lia.
    + apply Z.mod_unique with (q := Z.quot x c - 1); lia.
Qed.

Lemma long_long_range :
  minval long_long = - 2 ^ 63 /\ maxval long_long = 2 ^ 63 - 1 /\
  minval (promote long_long) = - 2 ^ 63 /\ maxval (promote long_long) = 2 ^ 63 - 1.
Proof. repeat split. Qed.

(** The upward loop stops after at most [(a - y) / c + 1] rounds. *)
Lemma wrap_up_spec fuel : forall c a y,
  0 < c <= 2 ^ 62 -> - 2 ^ 62 <= y -> y < a <= 2 ^ 62 ->
  a - y <= Z.of_nat fuel * c ->
  exists y', wrap_up fuel c a y = Val y' /\ a <= y' < a + c /\
             exists k, y' = y + k * c.
Proof.
  destruct long_long_range as (_ & _ & Hl & Hu).
  induction fuel as [|fuel IH]; intros c a y Hc Hy Ha Hf.
  - cbn in Hf. lia.
  - cbn [wrap_up]. unfold c_add. step_chk.
    destruct (Z.ltb_spec (y + c) a) as [Hlt|Hge].
    + destruct (IH c a (y + c)) as (y' & E & Hy' & k & Ek); try lia.
      exists y'. repeat split; try lia; try assumption. exists (k + 1). lia.
    + exists (y + c). repeat split; try lia. exists 1. lia.
Qed.

(** The downward loop stops after at most [(y - b) / c + 1] rounds. *)
Lemma wrap_down_spec fuel : forall c b y,
  0 < c <= 2 ^ 62 -> y <= 2 ^ 62 -> - 2 ^ 62 <= b <= y ->
  y - b < Z.of_nat fuel * c ->
  exists y', wrap_down fuel c b y = Val y' /\ b - c <= y' < b /\
             exists k, y' = y + k * c.
Proof.
  destruct long_long_range as (_ & _ & Hl & Hu).
  induction fuel as [|fuel IH]; intros c b y Hc Hy Hb Hf.
  - cbn in Hf. lia.
  - cbn [wrap_down]. unfold c_sub. step_chk.
    destruct (Z.geb_spec (y - c) b) as [Hge|Hlt].
    + destruct (IH c b (y - c)) as (y' & E & Hy' & k & Ek); try lia.
      exists y'. repeat split; try lia; try assumption. exists (k - 1). lia.
    + exists (y - c). repeat split; try lia. exists (-1). lia.
Qed.

(** The signed [bmm_wrap] at a type narrower than [int] (such as
    [signed char], the type of the tests): no operation overflows and the
    result is the representative of [x] modulo [b - a] in [[a, b)]. *)
Lemma wrap_sint_narrow_spec A fuel x a b :
  signed A = true -> 2 <= bits A < 32 ->
  minval A <= x <= maxval A -> minval A <= a -> b <= maxval A -> a < b ->
  2 ^ bits A <= Z.of_nat fuel ->
  exists y, bmm_wrap fuel A x a b = Val y /\ a <= y < b /\ (y - x) mod (b - a) = 0.
Proof.
  intros Hs Hb Hx Ha Hbm Hab Hfuel.
  destruct (signed_range A Hs ltac:(lia)) as (Hmin & Hmax & Hpmin & Hpmax).
  destruct (narrow_signed A Hs Hb) as (Hp1 & Hp2 & Hn & _ & _).
  destruct long_long_range as (Hl1 & Hl2 & _ & _).
  assert (H30 : 2 ^ 30 < 2 ^ 31 /\ 2 ^ 31 < 2 ^ 62 /\ 2 ^ 62 < 2 ^ 63) by (cbn; lia).
  set (c := b - a). assert (Hc : 0 < c) by (unfold c; lia).
  unfold bmm_wrap. destruct (Z.eqb_spec (bmm_sgn a) (bmm_sgn b)) as [Hsgn|Hsgn].
  - assert (Hcm : c <= maxval A).
    { unfold bmm_sgn in Hsgn. unfold c.
      destruct (Z.sgn_spec a) as [[? ?]|[[? ?]|[? ?]]];
      destruct (Z.sgn_spec b) as [[? ?]|[[? ?]|[? ?]]]; lia. }
    unfold c_sub, c_add. fold c. repeat step_chk.
    rewrite !quot_sint_pos by (try assumption; lia). cbn [bind snd].
    pose proof (Z.mod_pos_bound x c Hc) as Hr.
    pose proof (Z.mod_pos_bound a c Hc) as Hsb.
    pose proof (Z.div_mod x c ltac:(lia)) as Ex.
    pose proof (Z.div_mod a c ltac:(lia)) as Ea.
    destruct (Z.geb_spec (x mod c) (a mod c)) as [Hge|Hlt].
    + repeat step_chk. eexists; split; [reflexivity|]. split; [lia|].
      replace (x mod c - a mod c + a - x) with ((a / c - x / c) * c) by lia.
      apply Z.mod_mul. lia.
    + repeat step_chk. eexists; split; [reflexivity|]. split; [lia|].
      replace (c - (a mod c - x mod c) + a - x) with ((1 + a / c - x / c) * c) by lia.
      apply Z.mod_mul. lia.
  - unfold c_sub. fold c. repeat step_chk.
    assert (Hw : 2 ^ bits A = 2 * (maxval A + 1)).
    { replace (bits A) with (Z.succ (bits A - 1)) at 1 by lia.
      rewrite Z.pow_succ_r by lia. unfold maxval. rewrite Hs. lia. }
    destruct (Z.ltb_spec x a) as [Hlt|Hge].
    + destruct (wrap_up_spec fuel c a x) as (y & E & Hy & k & Ek); try lia; [nia|].
      rewrite E. cbn [bind]. step_chk. exists y. repeat split; try (unfold c in *; lia).
      replace (y - x) with (k * c) by lia. apply Z.mod_mul. lia.
    + destruct (Z.geb_spec x b) as [Hgeb|Hltb].
      * destruct (wrap_down_spec fuel c b x) as (y & E & Hy & k & Ek); try lia; [nia|].
        rewrite E. cbn [bind]. step_chk. exists y. repeat split; try (unfold c in *; lia).
        replace (y - x) with (k * c) by lia. apply Z.mod_mul. lia.
      * cbn [bind]. step_chk. exists x. repeat split; try lia.
        rewrite Z.sub_diag. apply Z.mod_0_l. lia.
Qed.

End CommonSintFacts.

(** ** Packing and unpacking hypercuboid indices *)

Module HcFacts.
Import CommonUint.

Lemma set_nth_length d v l : length (set_nth d v l) = length l.
Proof.
  revert d; induction l as [|h t IH]; intros [|d]; cbn; auto.
Qed.

Lemma set_nth_app_l d v l t :
  (d < length l)%nat -> set_nth d v (l ++ t) = set_nth d v l ++ t.
Proof.
  revert d; induction l as [|h l IH]; intros [|d] H; cbn in *; try lia; auto.
  f_equal. apply IH. lia.
Qed.

Lemma set_nth_last v l p : set_nth (length l) v (l ++ [p]) = l ++ [v].
Proof. induction l as [|h l IH]; cbn; [reflexivity|now f_equal]. Qed.

Lemma nth_last (l : list Z) p : nth (length l) (l ++ [p]) 0 = p.
Proof. rewrite app_nth2, Nat.sub_diag by lia. reflexivity. Qed.

Lemma prod_app l m : prod (l ++ [m]) = prod l * m.
Proof.
  unfold prod. induction l as [|h l IH]; cbn [app fold_right]; [lia|].
  rewrite IH. lia.
Qed.

Lemma prod_nonneg l : Forall (fun m => 0 <= m) l -> 0 <= prod l.
Proof.
  unfold prod. induction 1; cbn [fold_right]; [lia|].
  apply Z.mul_nonneg_nonneg; assumption.
Qed.

(** The state of the unpacking loop with one more cell at the end of [pij]. *)
Definition ext (r : Z) (st : outcome (Z * list Z)) : outcome (Z * list Z) :=
  qp <- st ;; Val (fst qp, snd qp ++ [r]).

Definition wf (n : nat) (st : outcome (Z * list Z)) : Prop :=
  match st with Val qp => length (snd qp) = n | _ => True end.

Lemma hcd_step_wf n nper st idim : wf n st -> wf n (hcd_step n nper st idim).
Proof.
  destruct st as [[q p]| |]; cbn; auto. intros H. unfold bmm_quot.
  destruct (_ =? 0); cbn; auto. now rewrite set_nth_length.
Qed.

Lemma hcd_step_ext n nper m r st idim :
  (idim < n)%nat -> length nper = n -> wf n st ->
  hcd_step (S n) (nper ++ [m]) (ext r st) (S idim) = ext r (hcd_step n nper st idim).
Proof.
  intros Hi Hn Hw. destruct st as [[q p]| |]; cbn in *; try reflexivity.
  replace (n - 0 - S idim)%nat with (n - 1 - idim)%nat by lia.
  rewrite app_nth1 by lia. unfold bmm_quot.
  destruct (_ =? 0); cbn; [reflexivity|].
  now rewrite set_nth_app_l by lia.
Qed.

Lemma hcd_fold_ext n nper m r l : forall st,
  Forall (fun idim => (idim < n)%nat) l -> length nper = n -> wf n st ->
  fold_left (hcd_step (S n) (nper ++ [m])) (map S l) (ext r st) =
  ext r (fold_left (hcd_step n nper) l st).
Proof.
  induction l as [|idim l IH]; intros st Hl Hn Hw; cbn [map fold_left].
  - reflexivity.
  - apply Forall_cons_iff in Hl as [Hi Hl]. rewrite hcd_step_ext by assumption.
    apply IH; auto using hcd_step_wf.
Qed.

(** Unpacking over [nper ++ [m]] splits off the last cell first. *)
Lemma hcd_snoc pij p i nper m :
  length pij = length nper ->
  bmm_hcd (pij ++ [p]) i (S (length nper)) (nper ++ [m]) =
  if m =? 0 then Undefined
  else ij <- bmm_hcd pij (Z.quot i m) (length nper) nper ;; Val (ij ++ [Z.rem i m]).
Proof.
  intros Hp. unfold bmm_hcd. rewrite <- cons_seq, <- seq_shift. cbn [fold_left].
  unfold hcd_step at 2. cbn [bind fst snd].
  replace (S (length nper) - 1 - 0)%nat with (length nper) by lia.
  rewrite nth_last. unfold bmm_quot. destruct (m =? 0).
  - cbn [bind]. clear. induction (map S _); cbn; auto.
  - cbn [bind fst snd].
    replace (set_nth (length nper) (Z.rem i m) (pij ++ [p])) with (pij ++ [Z.rem i m])
      by (rewrite <- Hp; symmetry; apply set_nth_last).
    change (Val (Z.quot i m, pij ++ [Z.rem i m]))
      with (ext (Z.rem i m) (Val (Z.quot i m, pij))).
    rewrite hcd_fold_ext; [|apply Forall_forall; intros ? ?%in_seq; lia|reflexivity|exact Hp].
    destruct (fold_left _ _ _) as [[q l]| |]; reflexivity.
Qed.

Lemma unhcd_fold_ext w ij d nper m l : forall acc,
  Forall (fun idim => (idim < length nper)%nat) l -> length ij = length nper ->
  fold_left (unhcd_step w (ij ++ [d]) (nper ++ [m])) l acc =
  fold_left (unhcd_step w ij nper) l acc.
Proof.
  induction l as [|idim l IH]; intros acc Hl Hn; cbn [fold_left]; [reflexivity|].
  apply Forall_cons_iff in Hl as [Hi Hl]. rewrite IH by assumption. f_equal.
  unfold unhcd_step. now rewrite !app_nth1 by lia.
Qed.

(** Packing over [nper ++ [m]] is one more Horner step. *)
Lemma unhcd_snoc w ij d nper m :
  length ij = length nper ->
  bmm_unhcd w (ij ++ [d]) (S (length nper)) (nper ++ [m]) =
  ((bmm_unhcd w ij (length nper) nper * m) mod 2 ^ w + d) mod 2 ^ w.
Proof.
  intros Hn. unfold bmm_unhcd. rewrite seq_S, fold_left_app. cbn [fold_left Nat.add].
  rewrite unhcd_fold_ext; [|apply Forall_forall; intros ? ?%in_seq; lia|exact Hn].
  unfold unhcd_step at 1. rewrite nth_last. rewrite <- Hn at 2. now rewrite nth_last.
Qed.

Lemma snoc_length {T} (l : list T) n :
  length l = S n -> exists l' x, l = l' ++ [x] /\ length l' = n.
Proof.
  intros H. destruct (exists_last (l := l)) as (l' & x & ->).
  - intros ->. discriminate.
  - exists l', x. split; [reflexivity|]. rewrite length_app in H. cbn in H. lia.
Qed.

(** Unpacking an index below the number of cells and packing it again. *)
Lemma unhcd_hcd w : 0 <= w -> forall nper pij i,
  length pij = length nper -> Forall (fun m => 0 <= m) nper ->
  0 <= i < prod nper -> i < 2 ^ w ->
  exists ij, bmm_hcd pij i (length nper) nper = Val ij /\
             bmm_unhcd w ij (length nper) nper = i /\
             Forall2 (fun d m => 0 <= d < m) ij nper.
Proof.
  intros Hw. induction nper as [|m nper IH] using rev_ind; intros pij i Hp Hn Hi Hi2.
  - destruct pij; [|discriminate]. exists []. repeat split. cbn in *. lia. constructor.
  - rewrite length_app in Hp |- *. cbn [length] in Hp |- *.
    rewrite Nat.add_1_r in Hp |- *.
    destruct (snoc_length _ _ Hp) as (pij' & p & -> & Hp').
    apply Forall_app in Hn as [Hn Hm]. inversion Hm as [|? ? Hm0 _]; subst.
    rewrite prod_app in Hi. pose proof (prod_nonneg _ Hn) as Hpn.
    assert (Hmpos : 0 < m) by nia.
    rewrite hcd_snoc by assumption.
    destruct (Z.eqb_spec m 0) as [->|_]; [lia|].
    rewrite Z.quot_div_nonneg, Z.rem_mod_nonneg by lia.
    pose proof (Z.div_mod i m ltac:(lia)) as E.
    pose proof (Z.mod_pos_bound i m Hmpos) as Hr.
    assert (Hq : 0 <= i / m) by (apply Z.div_pos; lia).
    destruct (IH pij' (i / m)) as (ij & E1 & E2 & F); try assumption.
    + split; [assumption|]. apply Z.div_lt_upper_bound; lia.
    + nia.
    + rewrite E1. cbn [bind]. eexists; split; [reflexivity|]. split.
      * rewrite unhcd_snoc by (apply Forall2_length in F; assumption).
        rewrite E2. rewrite (Z.mod_small (i / m * m)), Z.mod_small; nia.
      * apply Forall2_app; [assumption|]. constructor; [lia|constructor].
Qed.

(** Packing an index vector inside the hypercuboid and unpacking it again,
    when the number of cells is representable. *)
Lemma hcd_unhcd w : 0 <= w -> forall nper pij ij,
  length pij = length nper -> Forall2 (fun d m => 0 <= d < m) ij nper ->
  prod nper <= 2 ^ w ->
  0 <= bmm_unhcd w ij (length nper) nper < prod nper /\
  bmm_hcd pij (bmm_unhcd w ij (length nper) nper) (length nper) nper = Val ij.
Proof.
  intros Hw. induction nper as [|m nper IH] using rev_ind; intros pij ij Hp F Hprod.
  - inversion F; subst. destruct pij; [|discriminate]. cbn. split; [lia|reflexivity].
  - apply Forall2_app_inv_r in F as (ij' & l2 & F1 & F2 & ->).
    inversion F2 as [|d ? ? ? Hd F3]; subst. inversion F3; subst.
    rewrite length_app in Hp |- *. cbn [length] in Hp |- *.
    rewrite Nat.add_1_r in Hp |- *.
    destruct (snoc_length _ _ Hp) as (pij' & p & -> & Hp').
    rewrite prod_app in Hprod |- *.
    assert (Hn : Forall (fun m => 0 <= m) nper).
    { clear - F1. induction F1; constructor; [lia|assumption]. }
    pose proof (prod_nonneg _ Hn) as Hpn.
    assert (Hsmall : prod nper <= 2 ^ w).
    { destruct (Z.eq_dec (prod nper) 0) as [->|?]; [apply Z.pow_nonneg; lia|nia]. }
    destruct (IH pij' ij' Hp' F1 Hsmall) as (HU & E).
    rewrite unhcd_snoc by (apply Forall2_length in F1; assumption).
    set (U := bmm_unhcd w ij' (length nper) nper) in *.
    rewrite (Z.mod_small (U * m)), Z.mod_small by nia.
    split; [nia|]. rewrite hcd_snoc by assumption.
    destruct (Z.eqb_spec m 0) as [->|_]; [lia|].
    rewrite Z.quot_div_nonneg, Z.rem_mod_nonneg by nia.
    replace ((U * m + d) / m) with U by (apply Z.div_unique with (r := d); lia).
    replace ((U * m + d) mod m) with d by (apply Z.mod_unique with (q := U); lia).
    rewrite E. reflexivity.
Qed.

End HcFacts.

(** ** Arrays and loops of the engine *)

Module DemFacts.
Import Dem.

Lemma upd_same {T} (a : Z -> T) i v : upd a i v i = v.
Proof. unfold upd. now rewrite Z.eqb_refl. Qed.

Lemma upd_other {T} (a : Z -> T) i v k : k <> i -> upd a i v k = a k.
Proof. intros H. unfold upd. destruct (Z.eqb_spec k i); [contradiction|reflexivity]. Qed.

Lemma upd_id {T} (a : Z -> T) i : upd a i (a i) = a.
Proof.
  apply functional_extensionality. intros k. unfold upd.
  destruct (Z.eqb_spec k i); congruence.
Qed.

Lemma in_zrange n k : In k (zrange n) <-> 0 <= k < n.
Proof.
  unfold zrange. rewrite in_map_iff. split.
  - intros (m & <- & Hm%in_seq). lia.
  - intros H. exists (Z.to_nat k). split; [lia|]. apply in_seq. lia.
Qed.

Lemma zrange_nonpos n : n <= 0 -> zrange n = [].
Proof. intros H. unfold zrange. now replace (Z.to_nat n) with 0%nat by lia. Qed.

Lemma zrange_succ n : 0 <= n -> zrange (n + 1) = zrange n ++ [n].
Proof.
  intros H. unfold zrange. replace (Z.to_nat (n + 1)) with (S (Z.to_nat n)) by lia.
  rewrite seq_S, map_app. cbn. now rewrite Z2Nat.id by lia.
Qed.

Lemma zrange_NoDup n : NoDup (zrange n).
Proof.
  unfold zrange. apply Injective_map_NoDup; [|apply seq_NoDup].
  intros a b. apply Nat2Z.inj.
Qed.

(** A loop whose body does nothing does nothing. *)
Lemma fold_left_id {S I} (l : list I) (s : S) : fold_left (fun s _ => s) l s = s.
Proof. induction l; cbn; auto. Qed.

(** A loop commutes with a map of the state that its body commutes with. *)
Lemma fold_left_commute {S I} (g : S -> S) (body : S -> I -> S) (l : list I) :
  (forall s i, body (g s) i = g (body s i)) ->
  forall s, fold_left body l (g s) = g (fold_left body l s).
Proof.
  intros H. induction l as [|i l IH]; intros s; cbn; [reflexivity|].
  now rewrite H, IH.
Qed.

(** Record eta for the parts of the state. *)
Lemma set_part_f_id p : set_part_f (part_f p) p = p.
Proof. now destruct p. Qed.

Lemma set_part_id dem : set_part (part dem) dem = dem.
Proof. now destruct dem. Qed.

(** *** The force accumulator *)

Lemma force_links_id dem : force_links dem = dem.
Proof.
  unfold force_links, bmm_dem_force_link.
  induction (zrange (part_n (part dem))) as [|i l IH]; cbn [fold_left].
  - reflexivity.
  - now rewrite fold_left_id.
Qed.

(** After the clearing pass the force of every active particle is zero. *)
Lemma force_clear_f dem k :
  0 <= k < part_n (part dem) -> part_f (part (force_clear dem)) k = (0, 0)%R.
Proof.
  unfold force_clear. intros Hk%in_zrange. revert Hk.
  generalize (zrange (part_n (part dem))). intros l. revert dem.
  induction l as [|i l IH] using rev_ind; intros dem Hk; [contradiction|].
  rewrite fold_left_app. cbn [fold_left].
  set (d := fold_left _ l dem). cbn [part set_part set_part_tau set_part_f part_f].
  apply in_app_or in Hk as [Hk|[->|[]]].
  - unfold upd. destruct (k =? i); [reflexivity|]. now apply IH.
  - apply upd_same.
Qed.

Lemma force_clear_n dem : part_n (part (force_clear dem)) = part_n (part dem).
Proof.
  unfold force_clear. generalize (zrange (part_n (part dem))). intros l. revert dem.
  induction l as [|i l IH]; intros dem; cbn [fold_left]; [reflexivity|].
  now rewrite IH.
Qed.

(** On a zero force the ambient law of any kind changes nothing. *)
Lemma force_ambient_zero dem i :
  part_f (part dem) i = (0, 0)%R -> bmm_dem_force_ambient dem i = dem.
Proof.
  intros H. unfold bmm_dem_force_ambient. rewrite H. cbn [fst snd].
  rewrite Rmult_0_l, <- H, upd_id, set_part_f_id. apply set_part_id.
Qed.

Lemma force_ambients_clear dem : force_ambients (force_clear dem) = force_clear dem.
Proof.
  unfold force_ambients. rewrite force_clear_n.
  assert (H : forall k, In k (zrange (part_n (part dem))) ->
                        part_f (part (force_clear dem)) k = (0, 0)%R).
  { intros k Hk%in_zrange. now apply force_clear_f. }
  revert H. generalize (force_clear dem). generalize (zrange (part_n (part dem))).
  induction l as [|i l IH]; intros d H; cbn [fold_left]; [reflexivity|].
  rewrite force_ambient_zero by (apply H; now left).
  apply IH. intros k Hk. apply H. now right.
Qed.

(** No pass but the ambient one reads the ambient law. *)
Lemma force_clear_famb a dem : force_clear (set_famb a dem) = set_famb a (force_clear dem).
Proof. unfold force_clear. cbn [part set_famb set_opts]. now apply fold_left_commute. Qed.

Lemma force_pair_famb a dem i j :
  bmm_dem_force_pair (set_famb a dem) i j = set_famb a (bmm_dem_force_pair dem i j).
Proof.
  unfold bmm_dem_force_pair.
  change (force_pair_contact (set_famb a dem) i j) with (force_pair_contact dem i j).
  destruct (force_pair_contact dem i j); reflexivity.
Qed.

Lemma force_pairs_famb a dem : force_pairs (set_famb a dem) = set_famb a (force_pairs dem).
Proof.
  unfold force_pairs.
  change (opts_caching (opts (set_famb a dem))) with (opts_caching (opts dem)).
  change (part_n (part (set_famb a dem))) with (part_n (part dem)).
  destruct (opts_caching (opts dem)); apply fold_left_commute; intros s i.
  - change (part_n (part (set_famb a s))) with (part_n (part s)).
    apply fold_left_commute. intros. apply force_pair_famb.
  - change (cache_neigh (cache (set_famb a s)) i) with (cache_neigh (cache s) i).
    apply fold_left_commute. intros. apply force_pair_famb.
Qed.

Lemma force_externals_famb a dem :
  force_externals (set_famb a dem) = set_famb a (force_externals dem).
Proof.
  unfold force_externals.
  change (part_n (part (set_famb a dem))) with (part_n (part dem)).
  apply fold_left_commute. intros s i. unfold bmm_dem_force_external.
  change (script_mode (opts (set_famb a s)) (script_i (set_famb a s)))
    with (script_mode (opts s) (script_i s)).
  destruct (script_mode (opts s) (script_i s)); reflexivity.
Qed.

(** The accumulated forces do not depend on the ambient law at all. *)
Lemma force_famb a dem : bmm_dem_force (set_famb a dem) = set_famb a (bmm_dem_force dem).
Proof.
  unfold bmm_dem_force.
  rewrite !force_ambients_clear, force_clear_famb, force_pairs_famb,
    !force_links_id, force_externals_famb.
  reflexivity.
Qed.

End DemFacts.

(** ** Deciding comparisons of concrete reals *)

Module RealEval.
Import Dem.
Local Open Scope R_scope.

Lemma Rltb_true x y : x < y -> Rltb x y = true.
Proof. intros H. unfold Rltb. destruct (Rlt_dec x y); [reflexivity|contradiction]. Qed.

Lemma Rltb_false x y : ~ x < y -> Rltb x y = false.
Proof. intros H. unfold Rltb. destruct (Rlt_dec x y); [contradiction|reflexivity]. Qed.

Lemma Rgtb_true x y : x > y -> Rgtb x y = true.
Proof. intros H. unfold Rgtb. destruct (Rgt_dec x y); [reflexivity|contradiction]. Qed.

Lemma Rgtb_false x y : ~ x > y -> Rgtb x y = false.
Proof. intros H. unfold Rgtb. destruct (Rgt_dec x y); [contradiction|reflexivity]. Qed.

Lemma Rgeb_true x y : x >= y -> Rgeb x y = true.
Proof. intros H. unfold Rgeb. destruct (Rge_dec x y); [reflexivity|contradiction]. Qed.

Lemma Rgeb_false x y : ~ x >= y -> Rgeb x y = false.
Proof. intros H. unfold Rgeb. destruct (Rge_dec x y); [contradiction|reflexivity]. Qed.

Lemma Reqb_true x y : x = y -> Reqb x y = true.
Proof. intros H. unfold Reqb. destruct (Req_dec_T x y); [reflexivity|contradiction]. Qed.

Lemma Reqb_false x y : x <> y -> Reqb x y = false.
Proof. intros H. unfold Reqb. destruct (Req_dec_T x y); [contradiction|reflexivity]. Qed.

Lemma Rgeb_iff x y : Rgeb x y = true <-> x >= y.
Proof.
  unfold Rgeb. destruct (Rge_dec x y); split; auto; discriminate.
Qed.

(** The comparisons of the goal, decided by linear arithmetic. *)
Ltac rcmp :=
  repeat match goal with
  | |- context [Rltb ?x ?y] =>
      first [rewrite (Rltb_true x y) by lra | rewrite (Rltb_false x y) by lra]
  | |- context [Rgtb ?x ?y] =>
      first [rewrite (Rgtb_true x y) by lra | rewrite (Rgtb_false x y) by lra]
  | |- context [Rgeb ?x ?y] =>
      first [rewrite (Rgeb_true x y) by lra | rewrite (Rgeb_false x y) by lra]
  | |- context [Reqb ?x ?y] =>
      first [rewrite (Reqb_true x y) by lra | rewrite (Reqb_false x y) by lra]
  end.

Lemma Zfloor_at (z : Z) x : IZR z <= x < IZR z + 1 -> Zfloor x = z.
Proof. apply Zfloor_eq. Qed.


End RealEval.

(** ** Cells *)

Module GeomFacts.
Import Dem DemFacts RealEval.
Local Open Scope R_scope.

(** The interpolation used for the cells, in closed form. *)
Lemma lerp_cell ncell boxx x :
  bmm_fp_lerp x 0 boxx 1 (IZR (ncell - 1)) = 1 + x * IZR (ncell - 2) / boxx.
Proof.
  unfold bmm_fp_lerp. replace (ncell - 2)%Z with (ncell - 1 - 1)%Z by lia.
  rewrite (minus_IZR (ncell - 1) 1). unfold Rdiv. rewrite !Rminus_0_r. ring.
Qed.

(** The cell of a coordinate is the floor of the interpolation onto
    [[1, ncell − 1]], clamped to the grid. *)
Lemma cache_ijcell_dim_clamp ncell boxx x :
  (1 <= ncell < 2 ^ 64)%Z ->
  cache_ijcell_dim ncell boxx x =
  clamp (Zfloor (1 + x * IZR (ncell - 2) / boxx)) 0 (ncell - 1).
Proof.
  intros Hn. unfold cache_ijcell_dim, size_wrap. rewrite Z.mod_small by lia.
  rewrite lerp_cell. set (t := 1 + x * IZR (ncell - 2) / boxx).
  pose proof (Zfloor_bound t) as Hf. unfold clamp.
  unfold Rltb, Rgeb. destruct (Rlt_dec t 1) as [H1|H1].
  - assert (Zfloor t < 1)%Z by (apply lt_IZR; lra). lia.
  - destruct (Rge_dec t (IZR (ncell - 1))) as [H2|H2].
    + assert (ncell - 1 <= Zfloor t)%Z by (apply Zfloor_lub; lra). lia.
    + assert (1 <= Zfloor t)%Z by (apply Zfloor_lub; lra).
      assert (Zfloor t < ncell - 1)%Z by (apply lt_IZR; lra). lia.
Qed.

Lemma cache_ijcell_dim_range ncell boxx x :
  (1 <= ncell < 2 ^ 64)%Z -> (0 <= cache_ijcell_dim ncell boxx x <= ncell - 1)%Z.
Proof. intros Hn. rewrite cache_ijcell_dim_clamp by assumption. unfold clamp. lia. Qed.

End GeomFacts.

(** ** Adding and removing particles *)

Module PartFacts.
Import Dem DemFacts.

Lemma size_wrap_small v : 0 <= v < 2 ^ 64 -> size_wrap v = v.
Proof. intros H. unfold size_wrap. now apply Z.mod_small. Qed.

Lemma size_wrap_succ v : size_wrap (size_wrap v + 1) = size_wrap (v + 1).
Proof. unfold size_wrap. now rewrite Z.add_mod_idemp_l by lia. Qed.

Lemma run_app MPART a b dem :
  run MPART (a ++ b) dem =
  match run MPART a dem with Some dem' => run MPART b dem' | None => None end.
Proof.
  revert dem; induction a as [|o a IH]; intros dem; cbn [run app]; [reflexivity|].
  destruct (step MPART dem o); [apply IH|reflexivity].
Qed.

Lemma labels_inv_init MPART o : 0 <= MPART -> labels_inv MPART 0 (bmm_dem_def o).
Proof.
  intros H. unfold labels_inv, labels_distinct. cbn. repeat split; try lia.
Qed.

(** A successful add hands out the label [k]. *)
Lemma labels_inv_add MPART k dem :
  MPART <= SIZE_MAX -> labels_inv MPART k dem -> k < 2 ^ 64 ->
  exists k', k <= k' <= k + 1 /\ labels_inv MPART k' (snd (bmm_dem_addpart MPART dem)).
Proof.
  unfold SIZE_MAX. intros HM (Hn & Hk & Hl & Hb & Hd) Hk'.
  unfold bmm_dem_addpart.
  destruct (Z.geb_spec (part_n (part dem)) MPART) as [Hfull|Hfree].
  - exists k. split; [lia|]. cbn [snd]. exact (conj Hn (conj Hk (conj Hl (conj Hb Hd)))).
  - exists (k + 1). split; [lia|]. cbn [snd].
    unfold labels_inv, labels_distinct.
    cbn [part cache set_cache set_part part_n part_l part_lnew].
    rewrite (size_wrap_small (part_n (part dem) + 1)) by lia.
    rewrite Hl, size_wrap_succ, (size_wrap_small k) by lia.
    split; [lia|]. split; [lia|]. split; [reflexivity|]. split.
    + intros i Hi. unfold upd. destruct (Z.eqb_spec i (part_n (part dem))); [lia|].
      assert (0 <= part_l (part dem) i < k) by (apply Hb; lia). lia.
    + intros i j Hi Hj. unfold upd.
      destruct (Z.eqb_spec i (part_n (part dem))) as [->|Hi'];
        destruct (Z.eqb_spec j (part_n (part dem))) as [->|Hj']; intros E.
      * reflexivity.
      * assert (0 <= part_l (part dem) j < k) by (apply Hb; lia). lia.
      * assert (0 <= part_l (part dem) i < k) by (apply Hb; lia). lia.
      * apply Hd; first [lia | exact E].
Qed.

(** Removing a valid index keeps the labels of the remaining slots
    distinct: the last particle moves into the hole with its label. *)
Lemma labels_inv_rem MPART k dem ipart :
  MPART <= SIZE_MAX -> labels_inv MPART k dem -> 0 <= ipart < part_n (part dem) ->
  labels_inv MPART k (bmm_dem_rempart dem ipart).
Proof.
  unfold SIZE_MAX. intros HM (Hn & Hk & Hl & Hb & Hd) Hi.
  unfold bmm_dem_rempart.
  cbn [part set_part set_part_n part_n].
  rewrite (size_wrap_small (part_n (part dem) - 1)) by lia.
  destruct (Z.eqb_spec (part_n (part dem) - 1) ipart) as [E|E]; cbn [negb].
  - unfold labels_inv, labels_distinct.
    cbn [part cache set_cache set_part set_part_n part_n part_l part_lnew].
    split; [lia|]. split; [lia|]. split; [assumption|]. split.
    + intros i Hi'. apply Hb; lia.
    + intros i j Hi' Hj' El. apply Hd; first [lia | exact El].
  - unfold labels_inv, labels_distinct, bmm_dem_reassign.
    cbn [part cache set_cache set_part set_link set_part_n part_n part_l part_lnew].
    split; [lia|]. split; [lia|]. split; [assumption|]. split.
    + intros i Hi'. unfold upd. destruct (Z.eqb_spec i ipart); apply Hb; lia.
    + intros i j Hi' Hj'. unfold upd.
      destruct (Z.eqb_spec i ipart) as [->|Hne1];
        destruct (Z.eqb_spec j ipart) as [->|Hne2]; intros El.
      * reflexivity.
      * assert (part_n (part dem) - 1 = j) by (apply Hd; try lia; exact El). lia.
      * assert (i = part_n (part dem) - 1) by (apply Hd; try lia; exact El). lia.
      * apply Hd; first [lia | exact El].
Qed.

Lemma count_adds_cons o ops :
  count_adds (o :: ops) =
  (match o with Add => 1 | Remove _ => 0 end) + count_adds ops.
Proof. unfold count_adds. destruct o; cbn [filter length]; lia. Qed.

Lemma count_adds_nonneg ops : 0 <= count_adds ops.
Proof. unfold count_adds. lia. Qed.

(** The invariant holds along every run that hands out at most [2 ^ 64]
    labels. *)
Lemma run_labels_inv MPART ops : forall k dem dem',
  MPART <= SIZE_MAX -> labels_inv MPART k dem ->
  k + count_adds ops <= 2 ^ 64 ->
  run MPART ops dem = Some dem' ->
  exists k', labels_inv MPART k' dem'.
Proof.
  induction ops as [|o ops IH]; intros k dem dem' HM Hinv Hc Hrun.
  - cbn in Hrun. injection Hrun as <-. now exists k.
  - rewrite count_adds_cons in Hc. pose proof (count_adds_nonneg ops).
    cbn [run] in Hrun. destruct o as [|ipart]; cbn [step] in Hrun.
    + destruct (labels_inv_add MPART k dem HM Hinv ltac:(lia)) as (k' & Hk' & Hinv').
      apply (IH k' _ dem' HM Hinv'); [lia|exact Hrun].
    + destruct ((0 <=? ipart) && (ipart <? part_n (part dem))) eqn:Ev; [|discriminate].
      apply andb_true_iff in Ev as [E1%Z.leb_le E2%Z.ltb_lt].
      apply (IH k _ dem' HM (labels_inv_rem MPART k dem ipart HM Hinv ltac:(lia)));
        [lia|exact Hrun].
Qed.

(** *** The label counter wraps around *)

(** Adding a second particle and removing it again uses up one label. *)
Lemma add_remove_cycle MPART dem :
  2 <= MPART -> part_n (part dem) = 1 ->
  exists dem', run MPART [Add; Remove 1] dem = Some dem' /\
               part_n (part dem') = 1 /\
               part_lnew (part dem') = size_wrap (part_lnew (part dem) + 1) /\
               part_l (part dem') 0 = part_l (part dem) 0.
Proof.
  intros HM Hn.
  set (d1 := snd (bmm_dem_addpart MPART dem)).
  assert (E1 : part_n (part d1) = 2 /\
               part_lnew (part d1) = size_wrap (part_lnew (part dem) + 1) /\
               part_l (part d1) 0 = part_l (part dem) 0).
  { unfold d1, bmm_dem_addpart. rewrite Hn.
    destruct (Z.geb_spec 1 MPART); [lia|].
    cbn [snd part set_cache set_part part_n part_lnew part_l].
    repeat split; try (apply upd_other; lia). }
  destruct E1 as (A & B & C).
  exists (bmm_dem_rempart d1 1). split.
  - cbn [run step]. fold d1. rewrite A. reflexivity.
  - unfold bmm_dem_rempart. cbn [part set_part set_part_n part_n]. rewrite A.
    change (size_wrap (2 - 1)) with 1. cbn [Z.eqb Pos.eqb negb].
    cbn [part cache set_cache set_part set_part_n part_n part_l part_lnew].
    now rewrite B, C.
Qed.

Lemma size_wrap_range v : 0 <= size_wrap v < 2 ^ 64.
Proof. unfold size_wrap. apply Z.mod_pos_bound. lia. Qed.

Lemma add_remove_cycles MPART m : forall dem,
  2 <= MPART -> part_n (part dem) = 1 -> 0 <= part_lnew (part dem) < 2 ^ 64 ->
  exists dem', run MPART (concat (repeat [Add; Remove 1] m)) dem = Some dem' /\
               part_n (part dem') = 1 /\
               part_lnew (part dem') = size_wrap (part_lnew (part dem) + Z.of_nat m) /\
               part_l (part dem') 0 = part_l (part dem) 0.
Proof.
  induction m as [|m IH]; intros dem HM Hn Hl.
  - exists dem. cbn [repeat concat run]. repeat split; try assumption.
    now rewrite Z.add_0_r, size_wrap_small.
  - destruct (add_remove_cycle MPART dem HM Hn) as (d1 & R1 & N1 & L1 & K1).
    destruct (IH d1 HM N1) as (d2 & R2 & N2 & L2 & K2).
    { rewrite L1. apply size_wrap_range. }
    exists d2. cbn [repeat concat]. rewrite run_app, R1.
    repeat split; try assumption; [|congruence].
    rewrite L2, L1. unfold size_wrap. rewrite Z.add_mod_idemp_l by lia.
    f_equal. lia.
Qed.

(** After [2 ^ 64 + 1] adds the label of the first particle is handed out
    a second time. *)
Lemma labels_wrap_around MPART o :
  2 <= MPART ->
  exists dem', run MPART Examples.ops_wrap_around (bmm_dem_def o) = Some dem' /\
               part_n (part dem') = 2 /\
               part_l (part dem') 0 = part_l (part dem') 1.
Proof.
  intros HM.
  set (d1 := snd (bmm_dem_addpart MPART (bmm_dem_def o))).
  assert (E1 : part_n (part d1) = 1 /\ part_lnew (part d1) = 1 /\
               part_l (part d1) 0 = 0).
  { unfold d1, bmm_dem_addpart. cbn [part bmm_dem_def part_n].
    destruct (Z.geb_spec 0 MPART); [lia|]. cbn. repeat split. }
  destruct E1 as (A & B & C).
  destruct (add_remove_cycles MPART (Z.to_nat (2 ^ 64 - 1)) d1 HM A)
    as (d2 & R2 & N2 & L2 & K2).
  { rewrite B. lia. }
  rewrite B, Z2Nat.id in L2 by lia.
  replace (1 + (2 ^ 64 - 1)) with (2 ^ 64) in L2 by lia.
  unfold size_wrap in L2. rewrite Z.mod_same in L2 by lia.
  exists (snd (bmm_dem_addpart MPART d2)). split.
  - unfold Examples.ops_wrap_around. cbn [run step]. fold d1. rewrite run_app, R2. reflexivity.
  - unfold bmm_dem_addpart. rewrite N2.
    destruct (Z.geb_spec 1 MPART); [lia|].
    cbn [snd part set_cache set_part part_n part_l].
    split; [reflexivity|].
    now rewrite upd_same, upd_other, K2, C, L2 by lia.
Qed.

End PartFacts.

(** ** The rebuild of the neighbour cache *)

Module CacheFacts.
Import Dem DemFacts.

Lemma memb_cons k i l : memb k (i :: l) = (k =? i) || memb k l.
Proof. reflexivity. Qed.

Lemma memb_in k l : memb k l = true <-> In k l.
Proof.
  unfold memb. rewrite existsb_exists. split.
  - intros (x & Hx & ->%Z.eqb_eq). exact Hx.
  - intros H. exists k. split; [exact H|apply Z.eqb_refl].
Qed.

Lemma memb_zrange k n : memb k (zrange n) = true <-> 0 <= k < n.
Proof. rewrite memb_in. apply in_zrange. Qed.

Lemma memb_zrange_true k n : 0 <= k < n -> memb k (zrange n) = true.
Proof. apply memb_zrange. Qed.

Lemma fill_in {T} n (g a : Z -> T) k : 0 <= k < n -> fill n g a k = g k.
Proof. intros H. unfold fill. now rewrite memb_zrange_true. Qed.

Lemma upd_upd {T} (a : Z -> T) i v w : upd (upd a i v) i w = upd a i w.
Proof.
  apply functional_extensionality. intros k. unfold upd. now destruct (k =? i).
Qed.

(** A loop that stores [g i] at index [i] of one array of the state, where
    [g] does not read that array. *)
Lemma loop_field {T : Type} (get : bmm_dem -> Z -> T)
    (set : (Z -> T) -> bmm_dem -> bmm_dem) (g : bmm_dem -> Z -> T) :
  (forall f d, get (set f d) = f) ->
  (forall f f' d, set f (set f' d) = set f d) ->
  (forall d, set (get d) d = d) ->
  (forall f d, g (set f d) = g d) ->
  forall l d,
    fold_left (fun d i => set (upd (get d) i (g d i)) d) l d =
    set (fun k => if memb k l then g d k else get d k) d.
Proof.
  intros Hgs Hss Hsg Hg. induction l as [|i l IH]; intros d; cbn [fold_left].
  - cbn [memb existsb]. apply eq_sym, Hsg.
  - rewrite IH, Hgs, Hg, Hss. f_equal.
    apply functional_extensionality. intros k. rewrite memb_cons. unfold upd.
    destruct (Z.eqb_spec k i) as [->|]; cbn [orb]; [|reflexivity].
    now destruct (memb i l).
Qed.

Lemma set_cache_id dem : set_cache (cache dem) dem = dem.
Proof. now destruct dem. Qed.

Ltac field_loop :=
  intros; first
    [ reflexivity
    | match goal with d : bmm_dem |- _ => destruct d as [? ? ? ? []]; reflexivity end ].

Lemma loop_cache_j l dem :
  fold_left bmm_dem_cache_j l dem =
  set_cache (set_cache_j
    (fun k => if memb k l
              then (part_jred (part dem) k * part_m (part dem) k *
                    bmm_fp_sq (part_r (part dem) k))%R
              else cache_j (cache dem) k) (cache dem)) dem.
Proof.
  apply (loop_field (fun d => cache_j (cache d))
           (fun f d => set_cache (set_cache_j f (cache d)) d)
           (fun d k => (part_jred (part d) k * part_m (part d) k *
                        bmm_fp_sq (part_r (part d) k))%R)); field_loop.
Qed.

Lemma loop_cache_x l dem :
  fold_left bmm_dem_cache_x l dem =
  set_cache (set_cache_x
    (fun k => if memb k l then part_x (part dem) k else cache_x (cache dem) k)
    (cache dem)) dem.
Proof.
  apply (loop_field (fun d => cache_x (cache d))
           (fun f d => set_cache (set_cache_x f (cache d)) d)
           (fun d k => part_x (part d) k)); field_loop.
Qed.

Lemma loop_cache_ijcell l dem :
  fold_left bmm_dem_cache_ijcell l dem =
  set_cache (set_cache_ijcell
    (fun k => if memb k l
              then (cache_ijcell_dim (fst (cache_ncell (opts dem)))
                      (fst (box_x (opts dem))) (fst (cache_x (cache dem) k)),
                    cache_ijcell_dim (snd (cache_ncell (opts dem)))
                      (snd (box_x (opts dem))) (snd (cache_x (cache dem) k)))
              else cache_ijcell (cache dem) k) (cache dem)) dem.
Proof.
  apply (loop_field (fun d => cache_ijcell (cache d))
           (fun f d => set_cache (set_cache_ijcell f (cache d)) d)
           (fun d k =>
              (cache_ijcell_dim (fst (cache_ncell (opts d)))
                 (fst (box_x (opts d))) (fst (cache_x (cache d) k)),
               cache_ijcell_dim (snd (cache_ncell (opts d)))
                 (snd (box_x (opts d))) (snd (cache_x (cache d) k))))); field_loop.
Qed.

Lemma loop_cache_icell l dem :
  fold_left bmm_dem_cache_icell l dem =
  set_cache (set_cache_icell
    (fun k => if memb k l
              then CommonUint.bmm_unhcd 64
                     [fst (cache_ijcell (cache dem) k); snd (cache_ijcell (cache dem) k)]
                     2 [fst (cache_ncell (opts dem)); snd (cache_ncell (opts dem))]
              else cache_icell (cache dem) k) (cache dem)) dem.
Proof.
  apply (loop_field (fun d => cache_icell (cache d))
           (fun f d => set_cache (set_cache_icell f (cache d)) d)
           (fun d k =>
              CommonUint.bmm_unhcd 64
                [fst (cache_ijcell (cache d) k); snd (cache_ijcell (cache d) k)]
                2 [fst (cache_ncell (opts d)); snd (cache_ncell (opts d))])); field_loop.
Qed.

Lemma loop_clrparts NC dem :
  bmm_dem_cache_clrparts NC dem =
  set_cache (set_cache_part
    (fill (NC ^ BMM_NDIM) (fun _ => []) (cache_part (cache dem))) (cache dem)) dem.
Proof.
  unfold bmm_dem_cache_clrparts, fill.
  apply (loop_field (fun d => cache_part (cache d))
           (fun f d => set_cache (set_cache_part f (cache d)) d)
           (fun _ _ => [])); field_loop.
Qed.

Lemma loop_clrneighs dem :
  bmm_dem_cache_clrneighs dem =
  set_cache (set_cache_neigh
    (fill (part_n (part dem)) (fun _ => []) (cache_neigh (cache dem))) (cache dem)) dem.
Proof.
  unfold bmm_dem_cache_clrneighs, fill.
  apply (loop_field (fun d => cache_neigh (cache d))
           (fun f d => set_cache (set_cache_neigh f (cache d)) d)
           (fun _ _ => [])); field_loop.
Qed.

(** The first four loops of the rebuild. *)
Lemma loops_cache_cells dem :
  fold_left bmm_dem_cache_icell (zrange (part_n (part dem)))
    (fold_left bmm_dem_cache_ijcell (zrange (part_n (part dem)))
       (fold_left bmm_dem_cache_x (zrange (part_n (part dem)))
          (fold_left bmm_dem_cache_j (zrange (part_n (part dem))) dem))) =
  cache_cells dem.
Proof.
  rewrite loop_cache_j, loop_cache_x, loop_cache_ijcell, loop_cache_icell.
  reflexivity.
Qed.

(** *** Filling the cell lists *)

Lemma set_cache_part_id c : set_cache_part (cache_part c) c = c.
Proof. now destruct c. Qed.

Lemma set_cache_neigh_id c : set_cache_neigh (cache_neigh c) c = c.
Proof. now destruct c. Qed.

(** Appending [i] to its cell and then the particles of [l] to theirs. *)
Lemma cells_step (part : Z -> list Z) (icell : Z -> Z) i l :
  (fun c => upd part (icell i) (part (icell i) ++ [i]) c ++
            filter (fun j => icell j =? c) l) =
  (fun c => part c ++ filter (fun j => icell j =? c) (i :: l)).
Proof.
  apply functional_extensionality. intros c. cbn [filter]. unfold upd.
  rewrite (Z.eqb_sym c). destruct (Z.eqb_spec (icell i) c) as [<-|].
  - now rewrite <- app_assoc.
  - reflexivity.
Qed.

Lemma addpart_case NG d i :
  (NG <= Z.of_nat (length (cache_part (cache d) (cache_icell (cache d) i))) /\
   bmm_dem_cache_addpart NG d i = (false, d)) \/
  (Z.of_nat (length (cache_part (cache d) (cache_icell (cache d) i))) < NG /\
   bmm_dem_cache_addpart NG d i =
   (true, set_cache (set_cache_part
            (upd (cache_part (cache d)) (cache_icell (cache d) i)
               (cache_part (cache d) (cache_icell (cache d) i) ++ [i]))
            (cache d)) d)).
Proof.
  unfold bmm_dem_cache_addpart.
  destruct (Z.geb_spec (Z.of_nat (length (cache_part (cache d) (cache_icell (cache d) i)))) NG);
    [left|right]; now split.
Qed.

(** A successful pass of [bmm_dem_cache_addpart] over [l]. *)
Lemma addpart_loop NG l : forall d d',
  for_each l (bmm_dem_cache_addpart NG) d = (true, d') ->
  d' = set_cache (set_cache_part
         (fun c => cache_part (cache d) c ++
                   filter (fun j => cache_icell (cache d) j =? c) l)
         (cache d)) d.
Proof.
  induction l as [|i l IH]; intros d d' H.
  - cbn in H. injection H as <-. cbn [filter].
    replace (fun c => cache_part (cache d) c ++ []) with (cache_part (cache d))
      by (apply functional_extensionality; intros; now rewrite app_nil_r).
    now rewrite set_cache_part_id, set_cache_id.
  - cbn [for_each] in H.
    destruct (addpart_case NG d i) as [[_ E]|[_ E]]; rewrite E in H;
      cbn [fst snd] in H; [discriminate|].
    apply IH in H. subst d'.
    cbn [cache set_cache cache_part cache_icell set_cache_part].
    now rewrite (cells_step (cache_part (cache d)) (cache_icell (cache d))).
Qed.

(** The pass succeeds when no cell receives more than [NG] particles. *)
Lemma addpart_loop_ok NG l : forall d,
  (forall c, Z.of_nat (length (cache_part (cache d) c ++
               filter (fun j => cache_icell (cache d) j =? c) l)) <= NG) ->
  fst (for_each l (bmm_dem_cache_addpart NG) d) = true.
Proof.
  induction l as [|i l IH]; intros d H; [reflexivity|].
  cbn [for_each].
  destruct (addpart_case NG d i) as [[Hfull E]|[_ E]]; rewrite E; cbn [fst snd].
  - specialize (H (cache_icell (cache d) i)). cbn [filter] in H.
    rewrite Z.eqb_refl, length_app in H. cbn [length] in H. lia.
  - apply IH. intros c.
    cbn [cache set_cache cache_part cache_icell set_cache_part].
    rewrite (equal_f (cells_step (cache_part (cache d)) (cache_icell (cache d)) i l) c).
    apply H.
Qed.

(** *** Collecting the neighbours of one particle *)

Lemma addfrom_body_case NG i d j :
  (bmm_dem_cache_eligible d i j = false /\ addfrom_body NG i d j = (true, d)) \/
  (bmm_dem_cache_eligible d i j = true /\
   NG * (3 ^ BMM_NDIM / 2) <= Z.of_nat (length (cache_neigh (cache d) i)) /\
   addfrom_body NG i d j = (false, d)) \/
  (bmm_dem_cache_eligible d i j = true /\
   Z.of_nat (length (cache_neigh (cache d) i)) < NG * (3 ^ BMM_NDIM / 2) /\
   addfrom_body NG i d j =
   (true, set_cache (set_cache_neigh
            (upd (cache_neigh (cache d)) i (cache_neigh (cache d) i ++ [j]))
            (cache d)) d)).
Proof.
  unfold addfrom_body. destruct (bmm_dem_cache_eligible d i j); [right|left; now split].
  destruct (Z.geb_spec (Z.of_nat (length (cache_neigh (cache d) i)))
              (NG * (3 ^ BMM_NDIM / 2))); [left|right]; now repeat split.
Qed.

(** A successful inner loop of [bmm_dem_cache_addfrom] over the
    particles of one cell. *)
Lemma addfrom_inner NG i parts : forall d d',
  for_each parts (addfrom_body NG i) d = (true, d') ->
  d' = set_cache (set_cache_neigh
         (upd (cache_neigh (cache d)) i
            (cache_neigh (cache d) i ++ filter (bmm_dem_cache_eligible d i) parts))
         (cache d)) d.
Proof.
  induction parts as [|j parts IH]; intros d d' H.
  - cbn in H. injection H as <-. cbn [filter].
    now rewrite app_nil_r, upd_id, set_cache_neigh_id, set_cache_id.
  - cbn [for_each] in H. cbn [filter].
    destruct (addfrom_body_case NG i d j) as [[El E]|[(El & _ & E)|(El & _ & E)]];
      rewrite E in H; rewrite El; cbn [fst snd] in H; try discriminate.
    + now apply IH in H.
    + apply IH in H. subst d'.
      cbn [cache set_cache cache_neigh set_cache_neigh].
      change (bmm_dem_cache_eligible
                (set_cache (set_cache_neigh
                   (upd (cache_neigh (cache d)) i (cache_neigh (cache d) i ++ [j]))
                   (cache d)) d) i)
        with (bmm_dem_cache_eligible d i).
      rewrite upd_same, upd_upd, <- app_assoc. reflexivity.
Qed.

Lemma addfrom_inner_ok NG i parts : forall d,
  Z.of_nat (length (cache_neigh (cache d) i ++
              filter (bmm_dem_cache_eligible d i) parts)) <=
    NG * (3 ^ BMM_NDIM / 2) ->
  fst (for_each parts (addfrom_body NG i) d) = true.
Proof.
  induction parts as [|j parts IH]; intros d H; [reflexivity|].
  cbn [for_each]. cbn [filter] in H.
  destruct (addfrom_body_case NG i d j) as [[El E]|[(El & Hfull & E)|(El & _ & E)]];
    rewrite E; rewrite El in H; cbn [fst snd].
  - now apply IH.
  - rewrite length_app in H. cbn [length] in H. lia.
  - apply IH. cbn [cache set_cache cache_neigh set_cache_neigh].
    change (bmm_dem_cache_eligible
              (set_cache (set_cache_neigh
                 (upd (cache_neigh (cache d)) i (cache_neigh (cache d) i ++ [j]))
                 (cache d)) d) i)
      with (bmm_dem_cache_eligible d i).
    rewrite upd_same, <- app_assoc. exact H.
Qed.

(** A successful outer loop over the cells. *)
Lemma addfrom_outer NG i cells : forall d d',
  for_each cells
    (fun d icell => for_each (cache_part (cache d) icell) (addfrom_body NG i) d) d
    = (true, d') ->
  d' = set_cache (set_cache_neigh
         (upd (cache_neigh (cache d)) i
            (cache_neigh (cache d) i ++
             filter (bmm_dem_cache_eligible d i)
               (flat_map (cache_part (cache d)) cells)))
         (cache d)) d.
Proof.
  induction cells as [|c cells IH]; intros d d' H.
  - cbn in H. injection H as <-. cbn [flat_map filter].
    now rewrite app_nil_r, upd_id, set_cache_neigh_id, set_cache_id.
  - cbn [for_each] in H.
    destruct (for_each (cache_part (cache d) c) (addfrom_body NG i) d)
      as [ok d1] eqn:E1. cbn [fst snd] in H.
    destruct ok; [|discriminate].
    apply addfrom_inner in E1. apply IH in H. subst d' d1.
    cbn [cache set_cache cache_neigh cache_part set_cache_neigh flat_map].
    rewrite upd_same, upd_upd, filter_app, <- app_assoc. reflexivity.
Qed.

Lemma addfrom_outer_ok NG i cells : forall d,
  Z.of_nat (length (cache_neigh (cache d) i ++
              filter (bmm_dem_cache_eligible d i)
                (flat_map (cache_part (cache d)) cells))) <=
    NG * (3 ^ BMM_NDIM / 2) ->
  fst (for_each cells
         (fun d icell => for_each (cache_part (cache d) icell) (addfrom_body NG i) d) d)
    = true.
Proof.
  induction cells as [|c cells IH]; intros d H; [reflexivity|].
  cbn [for_each flat_map] in *. rewrite filter_app, app_assoc in H.
  assert (Hin : fst (for_each (cache_part (cache d) c) (addfrom_body NG i) d) = true).
  { apply addfrom_inner_ok. rewrite length_app in H. lia. }
  destruct (for_each (cache_part (cache d) c) (addfrom_body NG i) d)
    as [ok d1] eqn:E1. cbn [fst snd] in *. subst ok.
  apply addfrom_inner in E1. subst d1. apply IH.
  cbn [cache set_cache cache_neigh cache_part set_cache_neigh].
  rewrite upd_same. exact H.
Qed.

(** [bmm_dem_cache_addfrom] appends the neighbour list of [i]. *)
Lemma addfrom_spec NG i d d' :
  bmm_dem_cache_addfrom NG d i BMM_NEIGH_MASK_UPPERH = (true, d') ->
  d' = set_cache (set_cache_neigh
         (upd (cache_neigh (cache d)) i (cache_neigh (cache d) i ++ neigh_list d i))
         (cache d)) d.
Proof. apply addfrom_outer. Qed.

Lemma addfrom_ok NG i d :
  Z.of_nat (length (cache_neigh (cache d) i ++ neigh_list d i)) <=
    NG * (3 ^ BMM_NDIM / 2) ->
  fst (bmm_dem_cache_addfrom NG d i BMM_NEIGH_MASK_UPPERH) = true.
Proof. apply addfrom_outer_ok. Qed.

(** The neighbour list of a particle does not depend on the neighbour
    lists collected so far. *)
Lemma neigh_list_frame g d k :
  neigh_list (set_cache (set_cache_neigh g (cache d)) d) k = neigh_list d k.
Proof. reflexivity. Qed.

Lemma set_neigh_twice g h d :
  set_cache (set_cache_neigh g (cache (set_cache (set_cache_neigh h (cache d)) d)))
    (set_cache (set_cache_neigh h (cache d)) d)
  = set_cache (set_cache_neigh g (cache d)) d.
Proof. reflexivity. Qed.

(** A successful pass of [bmm_dem_cache_addfrom] over the particles of
    [l], each visited once. *)
Lemma addfrom_loop NG l : forall d d',
  NoDup l ->
  for_each l (fun d i => bmm_dem_cache_addfrom NG d i BMM_NEIGH_MASK_UPPERH) d
    = (true, d') ->
  d' = set_cache (set_cache_neigh
         (fun k => cache_neigh (cache d) k ++
                   (if memb k l then neigh_list d k else []))
         (cache d)) d.
Proof.
  induction l as [|i l IH]; intros d d' Hnd H.
  - cbn in H. injection H as <-. cbn [memb existsb].
    replace (fun k => cache_neigh (cache d) k ++ []) with (cache_neigh (cache d))
      by (apply functional_extensionality; intros; now rewrite app_nil_r).
    now rewrite set_cache_neigh_id, set_cache_id.
  - cbn [for_each] in H.
    destruct (bmm_dem_cache_addfrom NG d i BMM_NEIGH_MASK_UPPERH) as [ok d1] eqn:E1.
    cbn [fst snd] in H. destruct ok; [|discriminate].
    apply addfrom_spec in E1. inversion Hnd as [|? ? Hni Hnd']; subst.
    apply IH in H; [|assumption]. subst d'.
    rewrite set_neigh_twice.
    apply (f_equal (fun g => set_cache (set_cache_neigh g (cache d)) d)).
    apply functional_extensionality. intros k.
    cbn [cache set_cache cache_neigh set_cache_neigh].
    rewrite neigh_list_frame, memb_cons. unfold upd.
    destruct (Z.eqb_spec k i) as [->|]; cbn [orb]; [|reflexivity].
    destruct (memb i l) eqn:Em; [apply memb_in in Em; contradiction|].
    now rewrite app_nil_r.
Qed.

Lemma addfrom_loop_ok NG l : forall d,
  NoDup l ->
  (forall i, In i l ->
     Z.of_nat (length (cache_neigh (cache d) i ++ neigh_list d i)) <=
       NG * (3 ^ BMM_NDIM / 2)) ->
  fst (for_each l (fun d i => bmm_dem_cache_addfrom NG d i BMM_NEIGH_MASK_UPPERH) d)
    = true.
Proof.
  induction l as [|i l IH]; intros d Hnd H; [reflexivity|].
  cbn [for_each]. inversion Hnd as [|? ? Hni Hnd']; subst.
  assert (Hi : fst (bmm_dem_cache_addfrom NG d i BMM_NEIGH_MASK_UPPERH) = true).
  { apply addfrom_ok. apply H. now left. }
  destruct (bmm_dem_cache_addfrom NG d i BMM_NEIGH_MASK_UPPERH) as [ok d1] eqn:E1.
  cbn [fst snd] in *. subst ok. apply addfrom_spec in E1. subst d1.
  apply IH; [assumption|]. intros k Hk. rewrite neigh_list_frame.
  cbn [cache set_cache cache_neigh set_cache_neigh].
  rewrite upd_other by (intros ->; contradiction). apply H. now right.
Qed.

(** *** The whole rebuild *)

Lemma part_cache_cells dem : part (cache_cells dem) = part dem.
Proof. reflexivity. Qed.

(** [bmm_dem_cache_build] with its first five loops in closed form. *)
Lemma build_unfold NG NC dem :
  bmm_dem_cache_build NG NC dem =
  let r := for_each (zrange (part_n (part dem))) (bmm_dem_cache_addpart NG)
             (bmm_dem_cache_clrparts NC (cache_cells dem)) in
  if negb (fst r) then (false, snd r)
  else
    let dem1 := bmm_dem_cache_clrneighs (snd r) in
    let r := for_each (zrange (part_n (part dem1)))
               (fun dem ipart => bmm_dem_cache_addfrom NG dem ipart BMM_NEIGH_MASK_UPPERH)
               dem1 in
    if negb (fst r) then (false, snd r)
    else (true, set_cache (set_cache_stale false (cache (snd r))) (snd r)).
Proof.
  unfold bmm_dem_cache_build. cbv zeta.
  rewrite loop_cache_j. cbn [part set_cache].
  rewrite loop_cache_x. cbn [part set_cache].
  rewrite loop_cache_ijcell. cbn [part set_cache].
  rewrite loop_cache_icell. cbn [part set_cache].
  rewrite loop_clrparts. cbn [part set_cache].
  rewrite loop_clrparts. reflexivity.
Qed.

Lemma addpart_binned NG NC dem d1 :
  for_each (zrange (part_n (part dem))) (bmm_dem_cache_addpart NG)
    (bmm_dem_cache_clrparts NC (cache_cells dem)) = (true, d1) ->
  d1 = binned NC dem.
Proof.
  rewrite loop_clrparts. intros H. apply addpart_loop in H. exact H.
Qed.

Lemma addfrom_built NG NC dem d2 :
  for_each (zrange (part_n (part dem)))
    (fun dem ipart => bmm_dem_cache_addfrom NG dem ipart BMM_NEIGH_MASK_UPPERH)
    (bmm_dem_cache_clrneighs (binned NC dem)) = (true, d2) ->
  set_cache (set_cache_stale false (cache d2)) d2 = built NC dem.
Proof.
  rewrite loop_clrneighs. intros H.
  apply addfrom_loop in H; [|apply zrange_NoDup]. subst d2.
  unfold built. cbv zeta.
  set (s := binned NC dem).
  change (part_n (part dem)) with (part_n (part s)).
  replace (fill (part_n (part s)) (neigh_list s) (cache_neigh (cache s)))
    with (fun k =>
            fill (part_n (part s)) (fun _ => []) (cache_neigh (cache s)) k ++
            (if memb k (zrange (part_n (part s)))
             then neigh_list s k else [])); [reflexivity|].
  apply functional_extensionality. intros k. unfold fill.
  destruct (memb k (zrange (part_n (part s)))); [reflexivity|apply app_nil_r].
Qed.

Lemma part_clrneighs d : part (bmm_dem_cache_clrneighs d) = part d.
Proof. now rewrite loop_clrneighs. Qed.

(** A rebuild that reports success leaves the closed form [built]. *)
Lemma build_spec NG NC dem dem' :
  bmm_dem_cache_build NG NC dem = (true, dem') -> dem' = built NC dem.
Proof.
  rewrite build_unfold. cbv zeta.
  destruct (for_each (zrange (part_n (part dem))) (bmm_dem_cache_addpart NG)
              (bmm_dem_cache_clrparts NC (cache_cells dem))) as [ok d1] eqn:E1.
  cbn [fst snd]. destruct ok; cbn [negb]; [|discriminate].
  apply addpart_binned in E1. subst d1.
  rewrite part_clrneighs. change (part (binned NC dem)) with (part dem).
  destruct (for_each (zrange (part_n (part dem))) _
              (bmm_dem_cache_clrneighs (binned NC dem))) as [ok d2] eqn:E2.
  cbn [fst snd]. destruct ok; cbn [negb]; [|discriminate].
  intros [= <-]. now apply addfrom_built in E2.
Qed.

End CacheFacts.

(** ** The neighbour cells and the neighbour lists *)

Module NeighFacts.
Import CommonUint Neigh Dem DemFacts CacheFacts RealEval GeomFacts.

(** The model of the neighbour cells reproduces the tests [neigh_ijcpuh],
    [neigh_ijcp] and [neigh_ncp] of [tests.c], which run on 6 by 5 cells
    with the first dimension periodic. *)
Example neigh_ijcpuh_test :
  neigh_cells (4, 4) (6, 5) (true, false) BMM_NEIGH_MASK_UPPERH =
  [(4, 4); (1, 3); (1, 4)].
Proof. reflexivity. Qed.

Example neigh_ijcp_test :
  neigh_cells (1, 1) (6, 5) (true, false) BMM_NEIGH_MASK_FULL =
  [(4, 0); (4, 1); (4, 2); (1, 0); (1, 1); (1, 2); (2, 0); (2, 1); (2, 2)].
Proof. reflexivity. Qed.

Example neigh_ncp_test :
  map (fun ij => bmm_neigh_ncpij ij (6, 5) (true, false) BMM_NEIGH_MASK_FULL)
    [(1, 0); (1, 1); (1, 2); (2, 0); (2, 1); (2, 2); (3, 0); (3, 1); (3, 2)] =
  [6; 9; 9; 6; 9; 9; 6; 9; 9].
Proof. reflexivity. Qed.

(** The index of a cell of a two-dimensional grid. *)
Lemma unhcd_pair a b n0 n1 :
  0 <= a < n0 -> 0 <= b < n1 -> n0 * n1 <= 2 ^ 64 ->
  bmm_unhcd 64 [a; b] 2 [n0; n1] = a * n1 + b.
Proof.
  intros Ha Hb Hn. unfold bmm_unhcd. cbn [seq fold_left].
  unfold unhcd_step. cbn [nth].
  assert (a * n1 + b < n0 * n1) by nia.
  assert (a < 2 ^ 64) by nia.
  rewrite Z.mul_0_l, Zmod_0_l, Z.add_0_l.
  rewrite (Z.mod_small a) by lia.
  rewrite (Z.mod_small (a * n1)) by nia.
  apply Z.mod_small. nia.
Qed.

Lemma unhcd_pair_range a b n0 n1 :
  0 <= a < n0 -> 0 <= b < n1 -> n0 * n1 <= 2 ^ 64 ->
  0 <= bmm_unhcd 64 [a; b] 2 [n0; n1] < n0 * n1.
Proof. intros Ha Hb Hn. rewrite unhcd_pair by assumption. nia. Qed.

Lemma unhcd_pair_inj a b a' b' n0 n1 :
  0 <= a < n0 -> 0 <= b < n1 -> 0 <= a' < n0 -> 0 <= b' < n1 ->
  n0 * n1 <= 2 ^ 64 ->
  bmm_unhcd 64 [a; b] 2 [n0; n1] = bmm_unhcd 64 [a'; b'] 2 [n0; n1] ->
  a = a' /\ b = b'.
Proof.
  intros Ha Hb Ha' Hb' Hn. rewrite !unhcd_pair by assumption. intros E.
  assert (a = a') by nia. subst a'. split; [reflexivity|lia].
Qed.

(** Reading a list back by its indices. *)
Lemma nth_zrange {T} (l : list T) (d : T) :
  map (fun k => nth (Z.to_nat k) l d) (zrange (Z.of_nat (length l))) = l.
Proof.
  unfold zrange. rewrite map_map, Nat2Z.id.
  rewrite (map_ext _ (fun k => nth k l d)) by (intros; now rewrite Nat2Z.id).
  induction l as [|x l IH]; [reflexivity|].
  cbn [length seq map nth]. f_equal. rewrite <- seq_shift, map_map. exact IH.
Qed.

(** The cells visited by [bmm_dem_cache_addfrom], without the counter. *)
Lemma addfrom_cells_eq dem i m :
  addfrom_cells dem i m =
  map (fun c => bmm_unhcd 64 [fst c; snd c] 2
                  [fst (cache_ncell (opts dem)); snd (cache_ncell (opts dem))])
      (neigh_cells (cache_ijcell (cache dem) i) (cache_ncell (opts dem))
         (box_per (opts dem)) m).
Proof.
  unfold addfrom_cells, bmm_neigh_ncpij, bmm_neigh_icpij.
  set (L := neigh_cells _ _ _ _).
  rewrite <- (nth_zrange L (0, 0)) at 2. now rewrite map_map.
Qed.

Lemma neigh_dim_range c off ncell per c' :
  3 <= ncell -> 0 <= c < ncell -> -1 <= off <= 1 ->
  neigh_dim c off ncell per = Some c' -> 0 <= c' < ncell.
Proof.
  intros Hn Hc Ho. unfold neigh_dim. destruct per.
  - destruct (Z.ltb_spec (c + off) 1); [intros [= <-]; lia|].
    destruct (Z.geb_spec (c + off) (ncell - 1)); intros [= <-]; lia.
  - destruct (Z.leb_spec 0 (c + off)); destruct (Z.ltb_spec (c + off) ncell);
      cbn [andb]; try discriminate. intros [= <-]. lia.
Qed.

Lemma offsets_range m off :
  In off (offsets m) -> -1 <= fst off <= 1 /\ -1 <= snd off <= 1.
Proof.
  destruct m; cbn [offsets In]; intros H;
    repeat (destruct H as [<-|H]; [cbn; lia|]); contradiction.
Qed.

(** The neighbour cells of a cell of the grid are cells of the grid. *)
Lemma neigh_cells_range ij ncell per m c :
  3 <= fst ncell -> 3 <= snd ncell ->
  0 <= fst ij < fst ncell -> 0 <= snd ij < snd ncell ->
  In c (neigh_cells ij ncell per m) ->
  0 <= fst c < fst ncell /\ 0 <= snd c < snd ncell.
Proof.
  intros H0 H1 Ha Hb. unfold neigh_cells. rewrite in_flat_map.
  intros (off & Hoff%offsets_range & Hc). unfold neigh_cell in Hc.
  destruct (neigh_dim (fst ij) (fst off) (fst ncell) (fst per)) as [a|] eqn:Ea;
    [|contradiction].
  destruct (neigh_dim (snd ij) (snd off) (snd ncell) (snd per)) as [b|] eqn:Eb;
    [|contradiction].
  destruct Hc as [<-|[]]. cbn [fst snd].
  apply neigh_dim_range in Ea; [|lia..]. apply neigh_dim_range in Eb; [|lia..].
  now split.
Qed.

(** *** Counting occurrences *)

Lemma count_filter (P : Z -> bool) l x :
  count_occ Z.eq_dec (filter P l) x =
  if P x then count_occ Z.eq_dec l x else 0%nat.
Proof.
  induction l as [|y l IH]; cbn [filter]; [now destruct (P x)|].
  destruct (P y) eqn:Ey; cbn [count_occ]; destruct (Z.eq_dec y x) as [->|];
    rewrite ?IH; try reflexivity.
  - now rewrite Ey.
  - now rewrite Ey.
Qed.

Lemma count_zrange n j : 0 <= j < n -> count_occ Z.eq_dec (zrange n) j = 1%nat.
Proof.
  intros H. apply NoDup_count_occ'; [apply zrange_NoDup|now apply in_zrange].
Qed.

(** A particle is found in the lists of the cells [cells] as often as its
    own cell is among them. *)
Lemma count_binned (icell : Z -> Z) n j cells :
  0 <= j < n ->
  count_occ Z.eq_dec
    (flat_map (fun c => filter (fun k => icell k =? c) (zrange n)) cells) j =
  count_occ Z.eq_dec cells (icell j).
Proof.
  intros Hj. induction cells as [|c cells IH]; [reflexivity|].
  cbn [flat_map count_occ]. rewrite count_occ_app, IH, count_filter, count_zrange by assumption.
  destruct (Z.eqb_spec (icell j) c) as [E|E]; destruct (Z.eq_dec c (icell j)); subst;
    try reflexivity; contradiction.
Qed.

Lemma flat_map_ext_in {A B} (f g : A -> list B) l :
  (forall a, In a l -> f a = g a) -> flat_map f l = flat_map g l.
Proof.
  induction l as [|a l IH]; intros H; [reflexivity|].
  cbn [flat_map]. rewrite (H a) by now left.
  rewrite IH; [reflexivity|]. intros b Hb. apply H. now right.
Qed.

Lemma count_map_inj (f : Z * Z -> Z) l x :
  (forall y, In y l -> f y = f x -> y = x) ->
  count_occ Z.eq_dec (map f l) (f x) = count_occ cell_eq_dec l x.
Proof.
  induction l as [|y l IH]; intros H; [reflexivity|].
  cbn [map count_occ]. rewrite IH by (intros z Hz; apply H; now right).
  destruct (Z.eq_dec (f y) (f x)) as [E|E]; destruct (cell_eq_dec y x) as [E'|E'];
    try reflexivity.
  - exfalso. apply E'. apply H; [now left|exact E].
  - exfalso. apply E. now rewrite E'.
Qed.

(** *** Boxes without periodic dimensions *)

(** A cell of the grid is reached from [ij] by the offset [off] exactly
    when [off] is their difference. *)
Lemma neigh_cell_count ij ncell off c :
  0 <= fst c < fst ncell -> 0 <= snd c < snd ncell ->
  count_occ cell_eq_dec (neigh_cell ij ncell (false, false) off) c =
  if cell_eq_dec off (cell_diff c ij) then 1%nat else 0%nat.
Proof.
  intros Ha Hb. destruct ij as [a b], off as [oa ob], c as [a' b'].
  unfold neigh_cell, neigh_dim, cell_diff. cbn [fst snd] in *.
  destruct (cell_eq_dec (oa, ob) (a' - a, b' - b)) as [E|E].
  - injection E as -> ->.
    replace (a + (a' - a)) with a' by lia. replace (b + (b' - b)) with b' by lia.
    destruct (Z.leb_spec 0 a'); [|lia]. destruct (Z.ltb_spec a' (fst ncell)); [|lia].
    destruct (Z.leb_spec 0 b'); [|lia]. destruct (Z.ltb_spec b' (snd ncell)); [|lia].
    cbn [andb count_occ]. now destruct (cell_eq_dec (a', b') (a', b')).
  - destruct ((0 <=? a + oa) && (a + oa <? fst ncell)); [|reflexivity].
    destruct ((0 <=? b + ob) && (b + ob <? snd ncell)); [|reflexivity].
    cbn [count_occ]. destruct (cell_eq_dec (a + oa, b + ob) (a', b')) as [E'|]; [|reflexivity].
    exfalso. apply E. injection E' as <- <-. f_equal; lia.
Qed.

Lemma neigh_cells_count ij ncell m c :
  0 <= fst c < fst ncell -> 0 <= snd c < snd ncell ->
  count_occ cell_eq_dec (neigh_cells ij ncell (false, false) m) c =
  count_occ cell_eq_dec (offsets m) (cell_diff c ij).
Proof.
  intros Ha Hb. unfold neigh_cells.
  induction (offsets m) as [|off offs IH]; [reflexivity|].
  cbn [flat_map count_occ]. rewrite count_occ_app, IH, neigh_cell_count by assumption.
  now destruct (cell_eq_dec off (cell_diff c ij)).
Qed.


Lemma upperh_self :
  count_occ cell_eq_dec (offsets BMM_NEIGH_MASK_UPPERH) (0, 0) = 1%nat.
Proof. reflexivity. Qed.



(** *** The rebuilt cache *)

Section Built.
Variables (NC : Z) (dem : bmm_dem).
Hypothesis Hn0 : 3 <= fst (cache_ncell (opts dem)) <= NC.
Hypothesis Hn1 : 3 <= snd (cache_ncell (opts dem)) <= NC.
Hypothesis HNC : NC * NC <= 2 ^ 64.

Lemma grid_fits : fst (cache_ncell (opts dem)) * snd (cache_ncell (opts dem)) <= 2 ^ 64.
Proof. nia. Qed.

(** The cell index vector of a binned particle lies in the grid. *)
Lemma built_ijcell_range i :
  0 <= i < part_n (part dem) ->
  0 <= fst (cache_ijcell (cache (built NC dem)) i) < fst (cache_ncell (opts dem)) /\
  0 <= snd (cache_ijcell (cache (built NC dem)) i) < snd (cache_ncell (opts dem)).
Proof.
  intros Hi.
  change (cache_ijcell (cache (built NC dem)) i)
    with (cache_ijcell (cache (cache_cells dem)) i).
  unfold cache_cells. cbv zeta. cbn [cache set_cache cache_ijcell].
  rewrite fill_in by assumption. cbn [fst snd].
  pose proof (cache_ijcell_dim_range (fst (cache_ncell (opts dem))) (fst (box_x (opts dem)))
    (fst (fill (part_n (part dem)) (part_x (part dem)) (cache_x (cache dem)) i))).
  pose proof (cache_ijcell_dim_range (snd (cache_ncell (opts dem))) (snd (box_x (opts dem)))
    (snd (fill (part_n (part dem)) (part_x (part dem)) (cache_x (cache dem)) i))).
  assert (NC < 2 ^ 64) by nia. lia.
Qed.

(** The cells visited for a binned particle are cells of the grid. *)
Lemma built_cells_range i c :
  0 <= i < part_n (part dem) ->
  In c (addfrom_cells (built NC dem) i BMM_NEIGH_MASK_UPPERH) ->
  0 <= c < NC ^ BMM_NDIM.
Proof.
  intros Hi. rewrite addfrom_cells_eq, in_map_iff. intros (ab & <- & Hab).
  apply neigh_cells_range in Hab;
    try apply built_ijcell_range; try assumption;
    try (change (cache_ncell (opts (built NC dem))) with (cache_ncell (opts dem)); lia).
  change (cache_ncell (opts (built NC dem))) with (cache_ncell (opts dem)) in *.
  pose proof (unhcd_pair_range (fst ab) (snd ab) (fst (cache_ncell (opts dem))) (snd (cache_ncell (opts dem)))
                (proj1 Hab) (proj2 Hab) grid_fits).
  unfold BMM_NDIM. rewrite Z.pow_2_r. nia.
Qed.

(** The list of a cell of the grid after the rebuild. *)
Lemma built_part c :
  0 <= c < NC ^ BMM_NDIM ->
  cache_part (cache (built NC dem)) c =
  filter (fun j => cache_icell (cache (built NC dem)) j =? c)
         (zrange (part_n (part dem))).
Proof.
  intros Hc.
  change (cache_part (cache (built NC dem)) c)
    with (fill (NC ^ BMM_NDIM) (fun _ => []) (cache_part (cache (cache_cells dem))) c ++
          filter (fun j => cache_icell (cache (built NC dem)) j =? c)
                 (zrange (part_n (part dem)))).
  now rewrite fill_in.
Qed.

(** The neighbour list of a particle after the rebuild. *)
Lemma built_neigh i :
  0 <= i < part_n (part dem) ->
  cache_neigh (cache (built NC dem)) i =
  filter (bmm_dem_cache_eligible (built NC dem) i)
    (flat_map (cache_part (cache (built NC dem)))
       (addfrom_cells (built NC dem) i BMM_NEIGH_MASK_UPPERH)).
Proof.
  intros Hi.
  change (cache_neigh (cache (built NC dem)) i)
    with (fill (part_n (part dem)) (neigh_list (binned NC dem))
            (cache_neigh (cache (binned NC dem))) i).
  now rewrite fill_in.
Qed.

(** How often a particle occurs in a neighbour list. *)
Lemma built_count i j :
  0 <= i < part_n (part dem) -> 0 <= j < part_n (part dem) ->
  count_occ Z.eq_dec (cache_neigh (cache (built NC dem)) i) j =
  if bmm_dem_cache_eligible (built NC dem) i j
  then count_occ Z.eq_dec (addfrom_cells (built NC dem) i BMM_NEIGH_MASK_UPPERH)
         (cache_icell (cache (built NC dem)) j)
  else 0%nat.
Proof.
  intros Hi Hj. rewrite built_neigh, count_filter by assumption.
  destruct (bmm_dem_cache_eligible (built NC dem) i j); [|reflexivity].
  rewrite (flat_map_ext_in _
             (fun c => filter (fun k => cache_icell (cache (built NC dem)) k =? c)
                         (zrange (part_n (part dem))))).
  - now apply count_binned.
  - intros c Hc. apply built_part. now apply (built_cells_range i).
Qed.


Lemma built_icell i :
  0 <= i < part_n (part dem) ->
  cache_icell (cache (built NC dem)) i =
  bmm_unhcd 64 [fst (cache_ijcell (cache (built NC dem)) i);
                snd (cache_ijcell (cache (built NC dem)) i)] 2
    [fst (cache_ncell (opts dem)); snd (cache_ncell (opts dem))].
Proof.
  intros Hi.
  change (cache_icell (cache (built NC dem)) i)
    with (fill (part_n (part dem))
            (fun k => bmm_unhcd 64
               [fst (cache_ijcell (cache (built NC dem)) k);
                snd (cache_ijcell (cache (built NC dem)) k)] 2
               [fst (cache_ncell (opts dem)); snd (cache_ncell (opts dem))])
            (cache_icell (cache dem)) i).
  now rewrite fill_in.
Qed.


(** In a box without periodic dimensions [j] is recorded for [i] once, when
    it is eligible and its cell is in the upper half of the neighbourhood
    of the cell of [i], and not at all otherwise. *)
Lemma built_count_nonper i j :
  box_per (opts dem) = (false, false) ->
  0 <= i < part_n (part dem) -> 0 <= j < part_n (part dem) ->
  count_occ Z.eq_dec (cache_neigh (cache (built NC dem)) i) j =
  if bmm_dem_cache_eligible (built NC dem) i j
  then count_occ cell_eq_dec (offsets BMM_NEIGH_MASK_UPPERH)
         (cell_diff (cache_ijcell (cache (built NC dem)) j)
                    (cache_ijcell (cache (built NC dem)) i))
  else 0%nat.
Proof.
  intros Hper Hi Hj. rewrite built_count by assumption.
  destruct (bmm_dem_cache_eligible (built NC dem) i j); [|reflexivity].
  pose proof (built_ijcell_range i Hi) as [Ha Hb].
  pose proof (built_ijcell_range j Hj) as [Ha' Hb'].
  rewrite addfrom_cells_eq, (built_icell j) by assumption.
  change (cache_ncell (opts (built NC dem))) with (cache_ncell (opts dem)).
  change (box_per (opts (built NC dem))) with (box_per (opts dem)).
  rewrite Hper.
  rewrite (count_map_inj
             (fun c => bmm_unhcd 64 [fst c; snd c] 2
                         [fst (cache_ncell (opts dem)); snd (cache_ncell (opts dem))])
             _ (cache_ijcell (cache (built NC dem)) j)).
  - now apply neigh_cells_count.
  - intros c Hc E. apply neigh_cells_range in Hc; try assumption; try lia.
    apply unhcd_pair_inj in E; try tauto; [|apply grid_fits].
    destruct c, (cache_ijcell (cache (built NC dem)) j). cbn [fst snd] in *.
    destruct E. now subst.
Qed.

End Built.


(** *** Success of the rebuild *)

(** The rebuild succeeds when no cell holds more than [NG] particles and
    no particle has more than [NG * (3 ^ 2 / 2)] neighbours. *)
Lemma build_ok NG NC dem :
  (forall c, Z.of_nat (length (cache_part (cache (binned NC dem)) c)) <= NG) ->
  (forall i, 0 <= i < part_n (part dem) ->
     Z.of_nat (length (neigh_list (binned NC dem) i)) <= NG * (3 ^ BMM_NDIM / 2)) ->
  bmm_dem_cache_build NG NC dem = (true, built NC dem).
Proof.
  intros Hc Hn. rewrite build_unfold. cbv zeta.
  assert (H1 : fst (for_each (zrange (part_n (part dem))) (bmm_dem_cache_addpart NG)
                      (bmm_dem_cache_clrparts NC (cache_cells dem))) = true).
  { rewrite loop_clrparts. apply addpart_loop_ok. intros c. exact (Hc c). }
  destruct (for_each (zrange (part_n (part dem))) (bmm_dem_cache_addpart NG)
              (bmm_dem_cache_clrparts NC (cache_cells dem))) as [ok d1] eqn:E1.
  cbn [fst snd] in *. subst ok. cbn [negb].
  apply addpart_binned in E1. subst d1.
  rewrite part_clrneighs. change (part (binned NC dem)) with (part dem).
  assert (H2 : fst (for_each (zrange (part_n (part dem)))
                      (fun dem ipart =>
                         bmm_dem_cache_addfrom NG dem ipart BMM_NEIGH_MASK_UPPERH)
                      (bmm_dem_cache_clrneighs (binned NC dem))) = true).
  { rewrite loop_clrneighs. apply addfrom_loop_ok; [apply zrange_NoDup|].
    intros i Hi%in_zrange. rewrite neigh_list_frame.
    cbn [cache set_cache cache_neigh set_cache_neigh].
    change (part_n (part (binned NC dem))) with (part_n (part dem)).
    rewrite fill_in by assumption. cbn [app]. now apply Hn. }
  destruct (for_each (zrange (part_n (part dem))) _
              (bmm_dem_cache_clrneighs (binned NC dem))) as [ok d2] eqn:E2.
  cbn [fst snd] in *. subst ok. cbn [negb].
  apply addfrom_built in E2. now rewrite E2.
Qed.

Lemma flat_map_length_le {A B} (f : A -> list B) l m :
  (forall a, In a l -> (length (f a) <= m)%nat) ->
  (length (flat_map f l) <= length l * m)%nat.
Proof.
  induction l as [|a l IH]; intros H; [cbn; lia|].
  cbn [flat_map length]. rewrite length_app.
  specialize (H a (or_introl eq_refl)) as Ha.
  specialize (IH (fun b Hb => H b (or_intror Hb))). lia.
Qed.

(** A cell has at most five cells in the upper half of its
    neighbourhood. *)
Lemma addfrom_cells_length dem i :
  (length (addfrom_cells dem i BMM_NEIGH_MASK_UPPERH) <= 5)%nat.
Proof.
  rewrite addfrom_cells_eq, length_map. unfold neigh_cells.
  change 5%nat with (length (offsets BMM_NEIGH_MASK_UPPERH) * 1)%nat.
  apply flat_map_length_le. intros off _. unfold neigh_cell.
  destruct (neigh_dim _ _ _ _); [|cbn; lia].
  destruct (neigh_dim _ _ _ _); cbn; lia.
Qed.

(** A state with few particles whose cell lists are empty beyond the
    grid is rebuilt successfully: no neighbour list can grow beyond five
    cell lists. *)
Lemma build_ok_few NG NC dem :
  0 <= 5 * part_n (part dem) <= 4 * NG ->
  (forall c, ~ 0 <= c < NC ^ BMM_NDIM -> cache_part (cache dem) c = []) ->
  bmm_dem_cache_build NG NC dem = (true, built NC dem).
Proof.
  intros Hn Hout.
  assert (Hlen : length (zrange (part_n (part dem))) = Z.to_nat (part_n (part dem)))
    by (unfold zrange; now rewrite length_map, length_seq).
  assert (Hcell : forall c,
            (length (cache_part (cache (binned NC dem)) c)
             <= Z.to_nat (part_n (part dem)))%nat).
  { intros c.
    change (cache_part (cache (binned NC dem)) c)
      with (fill (NC ^ BMM_NDIM) (fun _ => []) (cache_part (cache dem)) c ++
            filter (fun j => cache_icell (cache (cache_cells dem)) j =? c)
                   (zrange (part_n (part dem)))).
    replace (fill (NC ^ BMM_NDIM) (fun _ => []) (cache_part (cache dem)) c)
      with (@nil Z).
    - cbn [app]. rewrite <- Hlen. apply filter_length_le.
    - unfold fill. destruct (memb c (zrange (NC ^ BMM_NDIM))) eqn:E; [reflexivity|].
      symmetry. apply Hout. intros Hc. apply memb_zrange_true in Hc. congruence. }
  apply build_ok.
  - intros c. specialize (Hcell c). lia.
  - intros i Hi. unfold neigh_list.
    pose proof (filter_length_le (bmm_dem_cache_eligible (binned NC dem) i)
      (flat_map (cache_part (cache (binned NC dem)))
         (addfrom_cells (binned NC dem) i BMM_NEIGH_MASK_UPPERH))) as H1.
    pose proof (flat_map_length_le (cache_part (cache (binned NC dem)))
      (addfrom_cells (binned NC dem) i BMM_NEIGH_MASK_UPPERH)
      (Z.to_nat (part_n (part dem))) (fun c _ => Hcell c)) as H2.
    pose proof (addfrom_cells_length (binned NC dem) i) as H3.
    change (3 ^ BMM_NDIM / 2) with 4. nia.
Qed.

End NeighFacts.

(** ** The rebuild of the state [dem_adjacent] *)

Module AdjacentFacts.
Import CommonUint Neigh Dem DemFacts CacheFacts RealEval GeomFacts NeighFacts Examples.

(** With room for 8 particles per cell and 8 by 8 cells the rebuild
    succeeds. *)
Lemma adjacent_build :
  bmm_dem_cache_build 8 8 dem_adjacent = (true, built 8 dem_adjacent).
Proof.
  apply build_ok_few.
  - cbn. lia.
  - reflexivity.
Qed.




Lemma adjacent_grid :
  3 <= fst (cache_ncell (opts dem_adjacent)) <= 8 /\
  3 <= snd (cache_ncell (opts dem_adjacent)) <= 8 /\
  8 * 8 <= 2 ^ 64.
Proof. cbn. lia. Qed.



End AdjacentFacts.

(** ** Neighbourhoods in periodic and non-periodic dimensions *)

Module PairFacts.
Import CommonUint Neigh Dem DemFacts CacheFacts RealEval GeomFacts NeighFacts.

(** *** The periodic distance *)




(** *** The neighbours of a cell in one dimension *)





(** *** The neighbours of a cell *)











(** *** The rebuilt cache *)

Section Built.
Variables (NC : Z) (dem : bmm_dem).
Hypothesis Hn0 : 3 <= fst (cache_ncell (opts dem)) <= NC.
Hypothesis Hn1 : 3 <= snd (cache_ncell (opts dem)) <= NC.
Hypothesis HNC : NC * NC <= 2 ^ 64.




End Built.

End PairFacts.

(** ** The rebuild of the state [dem_far] *)

Module FarFacts.
Import CommonUint Neigh Dem DemFacts CacheFacts RealEval GeomFacts NeighFacts.
Import PairFacts Examples.










End FarFacts.

(** ** The rebuild of the state [dem_around] *)

Module AroundFacts.
Import CommonUint Neigh Dem DemFacts CacheFacts RealEval GeomFacts NeighFacts.
Import PairFacts Examples.









End AroundFacts.

(** ** The overflow tests of [scalar_sint.h] *)

Module ScalarSintFacts.
Import Outcome CInt CIntFacts ScalarSint.

(** The limits of a signed type and of the type its operands are computed
    in. *)
Lemma signed_limits A :
  signed A = true -> 2 <= bits A ->
  minval A = - maxval A - 1 /\ 1 <= maxval A /\
  minval (promote A) = - maxval (promote A) - 1 /\
  maxval A <= maxval (promote A).
Proof.
  intros Hs Hb. pose proof (promote_range A ltac:(lia)) as [H1 H2].
  assert (Hmin : minval A = - 2 ^ (bits A - 1)) by (unfold minval; now rewrite Hs).
  assert (Hmax : maxval A = 2 ^ (bits A - 1) - 1) by (unfold maxval; now rewrite Hs).
  pose proof (pow2_le 1 (bits A - 1) ltac:(lia)). change (2 ^ 1) with 2 in *.
  repeat split; try lia.
  unfold promote. destruct (bits A <? bits int); [reflexivity|lia].
Qed.

(** Operands are computed in a type at least as wide as [int]. *)
Lemma promote_wide A :
  signed A = true -> 2 ^ 31 - 1 <= maxval (promote A).
Proof.
  intros Hs. unfold promote.
  destruct (Z.ltb_spec (bits A) (bits int)) as [H|H]; [cbn; lia|].
  cbn [bits int] in H. unfold maxval. rewrite Hs.
  pose proof (pow2_le 31 (bits A - 1) ltac:(lia)). lia.
Qed.

(** Comparisons of the goal are decided case by case. *)
Ltac cmp :=
  repeat match goal with
  | |- context [?a >? ?b] => rewrite (Z.gtb_ltb a b)
  | |- context [?a >=? ?b] => rewrite (Z.geb_leb a b)
  | |- context [?a <? ?b] => destruct (Z.ltb_spec a b)
  | |- context [?a <=? ?b] => destruct (Z.leb_spec a b)
  | |- context [?a =? ?b] => destruct (Z.eqb_spec a b)
  end; cbn [andb orb negb].

Ltac fit := rewrite chk_fits by lia; cbn [bind].

Lemma add_ovf_exact A x y :
  signed A = true -> 2 <= bits A ->
  minval A <= x <= maxval A -> minval A <= y <= maxval A ->
  add_ovf A x y = Val (negb (fits A (x + y))).
Proof.
  intros Hs Hb Hx Hy.
  destruct (signed_limits A Hs Hb) as (Hmin & Hmax & Hpmin & Hpmax).
  unfold add_ovf, or_else, and_then, c_sub, fits. cbn [bind].
  rewrite Hmin in *.
  destruct (Z.gtb_spec y 0).
  - fit. cmp; first [reflexivity | lia].
  - destruct (Z.ltb_spec y 0).
    + fit. cmp; first [reflexivity | lia].
    + cmp; first [reflexivity | lia].
Qed.

Lemma sub_ovf_exact A x y :
  signed A = true -> 2 <= bits A ->
  minval A <= x <= maxval A -> minval A <= y <= maxval A ->
  sub_ovf A x y = Val (negb (fits A (x - y))).
Proof.
  intros Hs Hb Hx Hy.
  destruct (signed_limits A Hs Hb) as (Hmin & Hmax & Hpmin & Hpmax).
  unfold sub_ovf, or_else, and_then, c_add, fits. cbn [bind].
  rewrite Hmin in *.
  destruct (Z.gtb_spec y 0).
  - fit. cmp; first [reflexivity | lia].
  - destruct (Z.ltb_spec y 0).
    + fit. cmp; first [reflexivity | lia].
    + cmp; first [reflexivity | lia].
Qed.

Lemma neg_ovf_exact A x :
  signed A = true -> 2 <= bits A ->
  minval A <= x <= maxval A ->
  neg_ovf A x = Val (negb (fits A (- x))) /\
  (fits A (- x) = false <-> x = minval A).
Proof.
  intros Hs Hb Hx.
  destruct (signed_limits A Hs Hb) as (Hmin & Hmax & Hpmin & Hpmax).
  unfold neg_ovf, or_else, and_then, c_add, fits. cbn [bind].
  rewrite Hmin in *. split.
  - destruct (Z.gtb_spec x 0).
    + fit. cmp; first [reflexivity | lia].
    + destruct (Z.ltb_spec x 0).
      * fit. cmp; first [reflexivity | lia].
      * cmp; first [reflexivity | lia].
  - cmp; split; intros; first [discriminate | lia].
Qed.

(** The truncated quotient of a non-negative number by a positive one. *)
Lemma quot_nonneg_pos a x :
  0 <= a -> 0 < x ->
  Z.quot a x = a / x /\ 0 <= a / x <= a /\
  (forall y, a / x < y <-> a < x * y).
Proof.
  intros Ha Hx. split; [now apply Z.quot_div_nonneg|]. split.
  - split; [apply Z.div_pos; lia|].
    apply Z.div_le_upper_bound; [lia|nia].
  - intros y. split.
    + intros H. pose proof (Z.mul_succ_div_gt a x Hx). nia.
    + intros H. apply Z.div_lt_upper_bound; lia.
Qed.

Lemma mul_ovf_exact A x y :
  signed A = true -> 2 <= bits A ->
  minval A <= x <= maxval A -> minval A <= y <= maxval A ->
  mul_ovf A x y = Val (negb (fits A (x * y))).
Proof.
  intros Hs Hb Hx Hy.
  destruct (signed_limits A Hs Hb) as (Hmin & Hmax & Hpmin & Hpmax).
  unfold mul_ovf, and_then, c_div, c_add, fits. cbn [bind].
  rewrite Hmin in *. set (m := maxval A) in *.
  destruct (Z.eqb_spec x 0) as [->|Hx0]; cbn [negb].
  { rewrite Z.mul_0_l. cmp; first [reflexivity | lia]. }
  destruct (Z.gtb_spec x 0) as [Hxp|Hxn].
  - destruct (Z.eqb_spec x 0); [lia|].
    destruct (Z.gtb_spec y 0) as [Hyp|Hyn].
    + destruct (quot_nonneg_pos m x ltac:(lia) Hxp) as (E & Hq & Hlt).
      rewrite E. fit. specialize (Hlt y).
      cmp; first [reflexivity | nia | lia].
    + destruct (quot_nonneg_pos (m + 1) x ltac:(lia) Hxp) as (E & Hq & Hlt).
      replace (- m - 1) with (- (m + 1)) by lia.
      rewrite Z.quot_opp_l, E by lia. fit. specialize (Hlt (- y)).
      cmp; first [reflexivity | nia | lia].
  - destruct (Z.gtb_spec y 0) as [Hyp|Hyn].
    + destruct (Z.eqb_spec y 0); [lia|].
      destruct (quot_nonneg_pos (m + 1) y ltac:(lia) Hyp) as (E & Hq & Hlt).
      replace (- m - 1) with (- (m + 1)) by lia.
      rewrite Z.quot_opp_l, E by lia. fit. specialize (Hlt (- x)).
      cmp; first [reflexivity | nia | lia].
    + fit. destruct (Z.leb_spec (- m - 1 + m) 0); [|lia].
      destruct (Z.eqb_spec x 0); [lia|].
      destruct (quot_nonneg_pos m (- x) ltac:(lia) ltac:(lia)) as (E & Hq & Hlt).
      replace x with (- - x) at 1 by lia.
      rewrite Z.quot_opp_r, E by lia. fit. specialize (Hlt (- y)).
      cmp; first [reflexivity | nia | lia].
Qed.

(** The limits of a two's complement type pass the assertion of
    [quott_ovf]. *)
Lemma quott_limits_hold A :
  signed A = true -> 2 <= bits A -> quott_limits A = Val true.
Proof.
  intros Hs Hb.
  destruct (signed_limits A Hs Hb) as (Hmin & Hmax & Hpmin & Hpmax).
  pose proof (promote_wide A Hs) as Hw.
  unfold quott_limits, or_else, and_then, c_add, c_div. cbn [bind].
  rewrite Hmin in *. set (m := maxval A) in *.
  fit. destruct (Z.leb_spec (- m - 1 + m) 0); [|lia].
  change (1 + 1) with 2. fit. cbn [Z.eqb].
  destruct (quot_nonneg_pos (m + 1) 2 ltac:(lia) ltac:(lia)) as (E & Hq & Hlt).
  replace (- m - 1) with (- (m + 1)) by lia.
  rewrite Z.quot_opp_l, E by lia. fit.
  assert ((m + 1) / 2 <= m).
  { apply Z.div_le_upper_bound; lia. }
  fit. cmp; first [reflexivity | lia].
Qed.

Lemma quott_ovf_exact A x y :
  signed A = true -> 2 <= bits A ->
  minval A <= x <= maxval A -> minval A <= y <= maxval A ->
  quott_ovf A x y = Val (negb (fits A (Z.quot x y))) /\
  (fits A (Z.quot x y) = false <-> x = minval A /\ y = -1).
Proof.
  intros Hs Hb Hx Hy.
  destruct (signed_limits A Hs Hb) as (Hmin & Hmax & Hpmin & Hpmax).
  assert (Hq : fits A (Z.quot x y) = false <-> x = minval A /\ y = -1).
  { unfold fits. rewrite Hmin in *. set (m := maxval A) in *.
    destruct (Z.eq_dec y (-1)) as [->|Hy1].
    - replace (-1) with (- (1)) by lia. rewrite Z.quot_opp_r, Z.quot_1_r by lia.
      cmp; split; intros; first [discriminate | lia].
    - assert (Hb1 : - m - 1 <= Z.quot x y <= m).
      { destruct (Z.eq_dec y 0) as [->|Hy0].
        - replace (Z.quot x 0) with 0 by (destruct x; reflexivity). lia.
        - destruct (Z.eq_dec y 1) as [->|Hy2]; [rewrite Z.quot_1_r; lia|].
          pose proof (Z.quot_abs x y Hy0) as Ea.
          assert (Hd : Z.abs x / Z.abs y <= Z.abs x / 2).
          { apply Z.div_le_compat_l; lia. }
          rewrite <- Z.quot_div_nonneg in Hd by lia.
          assert (Hh : Z.abs x / 2 <= m).
          { apply Z.div_le_upper_bound; lia. }
          rewrite Ea in Hd. lia. }
      cmp; split; intros; first [discriminate | lia]. }
  split; [|exact Hq].
  destruct (fits A (Z.quot x y)) eqn:Ef; cbn [negb].
  - assert (Hn : ~ (x = minval A /\ y = -1)).
    { intros H. apply Hq in H. discriminate. }
    unfold quott_ovf, and_then, c_add, c_neg. cbn [bind].
    rewrite Hmin in *. set (m := maxval A) in *.
    fit. destruct (Z.leb_spec (- m - 1 + m) 0); [|lia].
    fit. destruct (Z.ltb_spec x (- m)).
    + destruct (Z.ltb_spec y 0); [|reflexivity]. fit. cbn [Z.opp].
      destruct (Z.eqb_spec y (-1)); [|reflexivity]. exfalso. apply Hn. lia.
    + reflexivity.
  - assert (Hn : x = minval A /\ y = -1) by now apply Hq.
    destruct Hn as [-> ->].
    unfold quott_ovf, and_then, c_add, c_neg. cbn [bind].
    rewrite Hmin in *. set (m := maxval A) in *.
    fit. destruct (Z.leb_spec (- m - 1 + m) 0); [|lia].
    fit. destruct (Z.ltb_spec (- m - 1) (- m)); [|lia].
    cbn [Z.ltb Z.compare]. fit. reflexivity.
Qed.

End ScalarSintFacts.

(** ** Quotients, wrapping and hypercubes *)

Module IntExtraFacts.
Import Outcome CInt CIntFacts CommonUint HcFacts Hypercube.

(** *** The unsigned [bmm_quot] and [bmm_uwrap] *)

Lemma quot_uint_spec x y :
  0 <= x -> 0 < y ->
  CommonUint.bmm_quot x y = Val (x / y, x mod y).
Proof.
  intros Hx Hy. unfold CommonUint.bmm_quot.
  destruct (Z.eqb_spec y 0); [lia|].
  now rewrite Z.quot_div_nonneg, Z.rem_mod_nonneg by lia.
Qed.

Lemma uwrap_spec A x b :
  signed A = false -> 1 <= bits A ->
  0 <= x <= maxval A -> 0 < b <= maxval A ->
  bmm_uwrap A x b = Val (x mod b).
Proof.
  intros Hs Hb Hx Hbb.
  destruct (CommonUintFacts.unsigned_range A Hs Hb) as (Hmin & Hmax & Hpmin & Hpmax).
  unfold bmm_uwrap, c_rem. destruct (Z.eqb_spec b 0); [lia|].
  rewrite Z.quot_div_nonneg, Z.rem_mod_nonneg by lia.
  pose proof (Z.div_pos x b ltac:(lia) ltac:(lia)).
  pose proof (Z.div_le_upper_bound x b x ltac:(lia) ltac:(nia)).
  pose proof (Z.mod_pos_bound x b ltac:(lia)).
  rewrite chk_fits by lia. cbn [bind]. apply chk_fits. lia.
Qed.

Lemma wrap_from_zero A x b :
  signed A = false -> 1 <= bits A ->
  0 <= x <= maxval A -> 0 < b <= maxval A ->
  CommonUint.bmm_wrap A x 0 b = Val (x mod b).
Proof.
  intros Hs Hb Hx Hbb.
  destruct (CommonUintFacts.unsigned_range A Hs Hb) as (Hmin & Hmax & Hpmin & Hpmax).
  pose proof (Z.div_pos x b ltac:(lia) ltac:(lia)).
  pose proof (Z.div_le_upper_bound x b x ltac:(lia) ltac:(nia)).
  pose proof (Z.mod_pos_bound x b ltac:(lia)).
  assert (Eb : (b =? 0) = false) by (apply Z.eqb_neq; lia).
  unfold CommonUint.bmm_wrap, c_sub, c_rem, c_add. rewrite Z.sub_0_r.
  repeat (first [ rewrite chk_fits by lia | rewrite Eb
                | rewrite Z.quot_div_nonneg by lia
                | rewrite Z.rem_mod_nonneg by lia
                | rewrite Zdiv_0_l | rewrite Zmod_0_l ]; cbn [bind]).
  destruct (Z.geb_spec (x mod b) 0); [|lia].
  cbn [bind]. rewrite Z.sub_0_r, Z.add_0_r.
  repeat (rewrite chk_fits by lia; cbn [bind]). reflexivity.
Qed.

(** *** The signed [bmm_quot] *)

(** The truncated quotient and remainder of values of a signed type. *)
Lemma quot_rem_bounds m x y :
  1 <= m -> - m - 1 <= x <= m -> - m - 1 <= y <= m -> y <> 0 ->
  ~ (x = - m - 1 /\ y = -1) ->
  x = y * Z.quot x y + Z.rem x y /\ Z.abs (Z.rem x y) < Z.abs y /\
  - m - 1 <= Z.quot x y <= m /\
  (Z.rem x y < 0 -> y < 0 -> Z.quot x y + 1 <= m) /\
  (Z.rem x y < 0 -> 0 < y -> - m - 1 <= Z.quot x y - 1).
Proof.
  intros Hm Hx Hy Hy0 Hn.
  pose proof (Z.quot_rem' x y) as E.
  pose proof (Z.rem_bound_abs x y Hy0) as Hr.
  pose proof (Z.rem_sign_mul x y Hy0) as Hs.
  set (q := Z.quot x y) in *. set (r := Z.rem x y) in *.
  clearbody q r.
  assert (Hc : (0 <= x /\ 0 <= r) \/ (x <= 0 /\ r <= 0)) by nia.
  split; [exact E|]. split; [exact Hr|].
  destruct (Z.lt_total y 0) as [Hy1|[?|Hy1]]; [|contradiction|];
    destruct Hc as [[Hx0 Hr0]|[Hx0 Hr0]];
    (split; [nia|]); (split; intros; nia).
Qed.

Lemma quot_sint_euclid A x y :
  signed A = true -> 2 <= bits A ->
  minval A <= x <= maxval A -> minval A <= y <= maxval A -> y <> 0 ->
  ~ (x = minval A /\ y = -1) -> minval (promote A) < y ->
  exists q r, CommonSint.bmm_quot A x y = Val (q, r) /\
              q * y + r = x /\ 0 <= r < Z.abs y.
Proof.
  intros Hs Hb Hx Hy Hy0 Hn Hp.
  destruct (ScalarSintFacts.signed_limits A Hs Hb) as (Hmin & Hmax & Hpmin & Hpmax).
  rewrite Hmin in *. set (m := maxval A) in *.
  destruct (quot_rem_bounds m x y Hmax Hx Hy Hy0 Hn) as (E & Hr & Hq & Hq1 & Hq2).
  assert (Eb : (y =? 0) = false) by (apply Z.eqb_neq; lia).
  unfold CommonSint.bmm_quot, c_div, c_rem, c_sub, c_mul, c_add.
  rewrite !Eb.
  repeat (rewrite chk_fits by lia; cbn [bind]).
  destruct (Z.geb_spec (Z.rem x y) 0) as [Hge|Hlt].
  - repeat (rewrite chk_fits by lia; cbn [bind]).
    eexists _, _. split; [reflexivity|]. lia.
  - destruct (Z.ltb_spec y 0) as [Hyn|Hyp].
    + repeat (rewrite chk_fits by lia; cbn [bind]).
      eexists _, _. split; [reflexivity|]. lia.
    + repeat (rewrite chk_fits by lia; cbn [bind]).
      eexists _, _. split; [reflexivity|]. lia.
Qed.

(** *** Hypercubes *)

Lemma fold_left_ext_in {S T} (f g : S -> T -> S) l : forall acc,
  (forall a s, In a l -> f s a = g s a) ->
  fold_left f l acc = fold_left g l acc.
Proof.
  induction l as [|a l IH]; intros acc H; [reflexivity|].
  cbn [fold_left]. rewrite (H a acc) by now left.
  apply IH. intros b s Hb. apply H. now right.
Qed.

Lemma nth_repeat_lt {T} (a d : T) n k : (k < n)%nat -> nth k (repeat a n) d = a.
Proof.
  revert k. induction n as [|n IH]; intros [|k] H; cbn; try lia; [reflexivity|].
  apply IH. lia.
Qed.

(** [bmm_hc] and [bmm_unhc] are [bmm_hcd] and [bmm_unhcd] with the same
    side length in every dimension. *)
Lemma hc_is_hcd pij i ndim nper :
  bmm_hc pij i ndim nper = bmm_hcd pij i ndim (repeat nper ndim).
Proof.
  unfold bmm_hc, bmm_hcd. f_equal. apply fold_left_ext_in.
  intros idim st Hi%in_seq. unfold hc_step, hcd_step.
  now rewrite nth_repeat_lt by lia.
Qed.

Lemma unhc_is_unhcd w ij ndim nper :
  bmm_unhc w ij ndim nper = bmm_unhcd w ij ndim (repeat nper ndim).
Proof.
  unfold bmm_unhc, bmm_unhcd. apply fold_left_ext_in.
  intros idim acc Hi%in_seq. unfold unhc_step, unhcd_step.
  now rewrite nth_repeat_lt by lia.
Qed.

Lemma prod_repeat nper ndim : prod (repeat nper ndim) = nper ^ Z.of_nat ndim.
Proof.
  unfold prod. induction ndim as [|n IH]; [reflexivity|].
  cbn [repeat fold_right]. rewrite IH, Nat2Z.inj_succ, Z.pow_succ_r by lia.
  reflexivity.
Qed.

(** *** Indices beyond the hypercuboid *)

(** [bmm_hcd] reads an index modulo the number of cells. *)
Lemma hcd_mod : forall nper pij i,
  length pij = length nper -> Forall (fun m => 0 < m) nper -> 0 <= i ->
  bmm_hcd pij i (length nper) nper =
  bmm_hcd pij (i mod prod nper) (length nper) nper.
Proof.
  induction nper as [|m nper IH] using rev_ind; intros pij i Hp Hn Hi.
  - destruct pij; [|discriminate]. reflexivity.
  - apply Forall_app in Hn as [Hn Hm]. apply Forall_cons_iff in Hm as [Hm _].
    rewrite length_app in Hp |- *. cbn [length] in Hp |- *.
    rewrite Nat.add_1_r in Hp |- *.
    destruct (snoc_length pij (length nper) Hp) as (pij' & p & -> & Hp').
    assert (HP : 0 < prod nper).
    { clear - Hn. unfold prod. induction Hn; cbn [fold_right]; nia. }
    rewrite !hcd_snoc by assumption.
    destruct (Z.eqb_spec m 0); [lia|].
    rewrite prod_app, (Z.mul_comm (prod nper) m), Z.rem_mul_r by lia.
    assert (Hr : 0 <= i mod m < m) by (apply Z.mod_pos_bound; lia).
    assert (Hq : 0 <= (i / m) mod prod nper < prod nper)
      by (apply Z.mod_pos_bound; lia).
    rewrite !Z.quot_div_nonneg, !Z.rem_mod_nonneg by nia.
    rewrite (Z.mul_comm m), Z.div_add, Z.mod_add by lia.
    rewrite (Z.div_small (i mod m) m), Z.mod_mod, Z.add_0_l by lia.
    rewrite <- (IH pij' (i / m)); [reflexivity|assumption|assumption|].
    apply Z.div_pos; lia.
Qed.

(** *** The truncated mean of [tests.c] *)

(** The values of [signed char]. *)
Lemma signed_char_values x :
  -128 <= x <= 127 -> In x (map (fun k => Z.of_nat k - 128) (seq 0 256)).
Proof.
  intros H. apply in_map_iff. exists (Z.to_nat (x + 128)). split; [lia|].
  apply in_seq. lia.
Qed.

(** Every pair of [signed char] values, tried in turn. *)
Lemma tamean2_all :
  forallb (fun x =>
    forallb (fun y =>
      match Tamean.tamean2 x y with
      | Val v => v =? Z.quot (x + y) 2
      | _ => false
      end) (map (fun k => Z.of_nat k - 128) (seq 0 256)))
    (map (fun k => Z.of_nat k - 128) (seq 0 256)) = true.
Proof. vm_compute. reflexivity. Qed.

Lemma tamean2_spec x y :
  -128 <= x <= 127 -> -128 <= y <= 127 ->
  Tamean.tamean2 x y = Val (Z.quot (x + y) 2).
Proof.
  intros Hx%signed_char_values Hy%signed_char_values.
  pose proof tamean2_all as H. rewrite forallb_forall in H.
  specialize (H x Hx). rewrite forallb_forall in H. specialize (H y Hy).
  destruct (Tamean.tamean2 x y); try discriminate.
  apply Z.eqb_eq in H. now subst.
Qed.

Lemma ref_spec x y :
  -128 <= x <= 127 -> -128 <= y <= 127 ->
  Tamean.ref x y = Val (Z.quot (x + y) 2).
Proof.
  intros Hx Hy. unfold Tamean.ref, c_add, c_div.
  rewrite chk_fits by (cbn; lia). cbn [bind Z.eqb].
  apply chk_fits.
  assert (- 256 <= Z.quot (x + y) 2 <= 254); [|cbn; lia].
  pose proof (Z.quot_rem' (x + y) 2).
  pose proof (Z.rem_bound_abs (x + y) 2 ltac:(lia)). lia.
Qed.

End IntExtraFacts.

(** ** More on the rebuilt cache *)

Module CacheExtraFacts.
Import CommonUint Neigh Dem DemMore DemFacts CacheFacts RealEval GeomFacts NeighFacts.

(** No particle is eligible as its own neighbour. *)
Lemma eligible_irrefl d i : bmm_dem_cache_eligible d i i = false.
Proof.
  unfold bmm_dem_cache_eligible. cbv zeta.
  now rewrite Z.eqb_refl, Z.leb_refl.
Qed.


Lemma offsets_upperh_NoDup : NoDup (offsets BMM_NEIGH_MASK_UPPERH).
Proof.
  cbn [offsets]. repeat constructor; cbn [In]; intuition congruence.
Qed.

Section Built.
Variables (NC : Z) (dem : bmm_dem).
Hypothesis Hn0 : 3 <= fst (cache_ncell (opts dem)) <= NC.
Hypothesis Hn1 : 3 <= snd (cache_ncell (opts dem)) <= NC.
Hypothesis HNC : NC * NC <= 2 ^ 64.

(** The entries of a neighbour list. *)
Lemma built_neigh_in i j :
  0 <= i < part_n (part dem) ->
  In j (cache_neigh (cache (built NC dem)) i) ->
  0 <= j < part_n (part dem) /\ j <> i /\
  bmm_dem_cache_eligible (built NC dem) i j = true.
Proof.
  intros Hi Hj. rewrite (built_neigh NC dem) in Hj by assumption.
  apply filter_In in Hj as [Hj He].
  apply in_flat_map in Hj as (c & Hc & Hj).
  apply (built_cells_range NC dem Hn0 Hn1 HNC i c Hi) in Hc.
  rewrite (built_part NC dem c Hc) in Hj. apply filter_In in Hj as [Hj _].
  apply in_zrange in Hj. split; [exact Hj|]. split; [|exact He].
  intros ->. now rewrite eligible_irrefl in He.
Qed.

(** The cell index of a binned particle is a cell of the grid. *)
Lemma built_icell_range j :
  0 <= j < part_n (part dem) ->
  0 <= cache_icell (cache (built NC dem)) j < NC ^ BMM_NDIM.
Proof.
  intros Hj. rewrite (built_icell NC dem j Hj).
  destruct (built_ijcell_range NC dem Hn0 Hn1 HNC j Hj) as [Ha Hb].
  pose proof (unhcd_pair_range _ _ _ _ Ha Hb (grid_fits NC dem Hn0 Hn1 HNC)).
  unfold BMM_NDIM. rewrite Z.pow_2_r. nia.
Qed.

(** Without periodic dimensions no particle is recorded twice. *)
Lemma built_neigh_NoDup i :
  box_per (opts dem) = (false, false) ->
  0 <= i < part_n (part dem) ->
  NoDup (cache_neigh (cache (built NC dem)) i).
Proof.
  intros Hper Hi. apply (NoDup_count_occ Z.eq_dec). intros j.
  destruct (in_dec Z.eq_dec j (cache_neigh (cache (built NC dem)) i)) as [Hj|Hj].
  - apply built_neigh_in in Hj as (Hj & _ & _); [|assumption].
    rewrite (built_count_nonper NC dem Hn0 Hn1 HNC i j Hper Hi Hj).
    destruct (bmm_dem_cache_eligible (built NC dem) i j); [|lia].
    apply NoDup_count_occ. apply offsets_upperh_NoDup.
  - apply (count_occ_not_In Z.eq_dec) in Hj. lia.
Qed.

End Built.

(** *** What a rebuild leaves alone *)

Lemma same_model_refl d : same_model d d.
Proof. now repeat split. Qed.

Lemma same_model_trans d1 d2 d3 :
  same_model d1 d2 -> same_model d2 d3 -> same_model d1 d3.
Proof. unfold same_model. intuition congruence. Qed.



Lemma fold_same_model (f : bmm_dem -> Z -> bmm_dem) l : forall d,
  (forall d i, same_model d (f d i)) -> same_model d (fold_left f l d).
Proof.
  induction l as [|i l IH]; intros d H; [apply same_model_refl|].
  cbn [fold_left]. eapply same_model_trans; [apply H|]. now apply IH.
Qed.




(** *** When a rebuild succeeds *)








End CacheExtraFacts.

(** ** Estimators *)

Module EstimFacts.
Import Dem DemMore DemFacts RealEval GeomFacts.
Local Open Scope R_scope.

(** The running maximum of a loop that starts from zero. *)
Lemma fold_Rmax (g : Z -> R) l : forall s,
  let r := fold_left (fun r k => Rmax r (g k)) l s in
  s <= r /\ (forall k, In k l -> g k <= r) /\
  (r = s \/ exists k, In k l /\ r = g k).
Proof.
  induction l as [|i l IH]; intros s; cbv zeta; cbn [fold_left].
  - split; [lra|]. split; [contradiction|now left].
  - destruct (IH (Rmax s (g i))) as (H1 & H2 & H3). cbv zeta in H1, H2, H3.
    pose proof (Rmax_l s (g i)). pose proof (Rmax_r s (g i)).
    split; [lra|]. split.
    + intros k [<-|Hk]; [lra|now apply H2].
    + destruct H3 as [H3|(k & Hk & H3)].
      * rewrite H3. destruct (Rmax_case s (g i) (fun r => r = s \/ r = g i));
          [now left|now right|now left|].
        right. exists i. split; [now left|assumption].
      * right. exists k. split; [now right|assumption].
Qed.

Lemma maxrad_spec dem :
  0 <= bmm_dem_maxrad dem /\
  (forall k, (0 <= k < part_n (part dem))%Z ->
     part_r (part dem) k <= bmm_dem_maxrad dem) /\
  (bmm_dem_maxrad dem = 0 \/
   exists k, (0 <= k < part_n (part dem))%Z /\
             bmm_dem_maxrad dem = part_r (part dem) k).
Proof.
  unfold bmm_dem_maxrad.
  destruct (fold_Rmax (part_r (part dem)) (zrange (part_n (part dem))) 0)
    as (H1 & H2 & H3). cbv zeta in H1, H2, H3.
  split; [exact H1|]. split.
  - intros k Hk. apply H2. now apply in_zrange.
  - destruct H3 as [H3|(k & Hk%in_zrange & H3)]; [now left|].
    right. now exists k.
Qed.

Lemma maxvel_spec dem :
  0 <= fst (bmm_dem_maxvel dem) /\ 0 <= snd (bmm_dem_maxvel dem) /\
  forall k, (0 <= k < part_n (part dem))%Z ->
    fst (part_v (part dem) k) <= fst (bmm_dem_maxvel dem) /\
    snd (part_v (part dem) k) <= snd (bmm_dem_maxvel dem).
Proof.
  unfold bmm_dem_maxvel. cbn [fst snd].
  destruct (fold_Rmax (fun k => fst (part_v (part dem) k))
              (zrange (part_n (part dem))) 0) as (H1 & H2 & _).
  destruct (fold_Rmax (fun k => snd (part_v (part dem) k))
              (zrange (part_n (part dem))) 0) as (H3 & H4 & _).
  cbv zeta in H1, H2, H3, H4.
  split; [exact H1|]. split; [exact H3|].
  intros k Hk%in_zrange. split; [now apply H2|now apply H4].
Qed.

End EstimFacts.

(** ** Removing particles and bonds *)

Module PartExtraFacts.
Import Dem DemMore DemFacts PartFacts.

(** [bmm_dem_rempart] on a valid index: the last particle moves into the
    freed slot; no other slot and no bond of another particle changes. *)
Lemma rempart_spec dem ipart :
  0 <= ipart < part_n (part dem) -> part_n (part dem) <= 2 ^ 64 ->
  let last := part_n (part dem) - 1 in
  let d' := bmm_dem_rempart dem ipart in
  part_n (part d') = last /\
  part_lnew (part d') = part_lnew (part dem) /\
  cache_stale (cache d') = true /\
  opts d' = opts dem /\
  (forall k, particle d' k = particle dem (if k =? ipart then last else k)) /\
  (forall k, k <> ipart -> link d' k = link dem k).
Proof.
  intros Hi Hn. cbv zeta. unfold bmm_dem_rempart.
  cbn [part set_part set_part_n part_n].
  rewrite (size_wrap_small (part_n (part dem) - 1)) by lia.
  destruct (Z.eqb_spec (part_n (part dem) - 1) ipart) as [E|E]; cbn [negb].
  - repeat split. intros k. destruct (Z.eqb_spec k ipart) as [->|]; [|reflexivity].
    now rewrite E.
  - unfold bmm_dem_reassign.
    repeat split.
    + intros k. unfold particle.
      cbn [part cache link set_cache set_part set_link set_part_n
           part_l part_role part_r part_m part_jred part_x part_v part_a
           part_phi part_omega part_alpha part_f part_tau part_n].
      unfold upd. now destruct (Z.eqb_spec k ipart).
    + intros k Hk. cbn [link set_cache set_link]. now apply upd_other.
Qed.

(** Adding a particle and removing it again. *)
Lemma addpart_rempart MPART dem :
  0 <= part_n (part dem) < MPART -> MPART <= SIZE_MAX ->
  let d' := bmm_dem_rempart (snd (bmm_dem_addpart MPART dem)) (part_n (part dem)) in
  part_n (part d') = part_n (part dem) /\
  part_lnew (part d') = size_wrap (part_lnew (part dem) + 1) /\
  cache_stale (cache d') = true /\ opts d' = opts dem /\ link d' = link dem /\
  (forall k, k <> part_n (part dem) -> particle d' k = particle dem k).
Proof.
  intros Hn HM. cbv zeta. unfold SIZE_MAX in HM.
  unfold bmm_dem_addpart. destruct (Z.geb_spec (part_n (part dem)) MPART); [lia|].
  cbn [snd]. unfold bmm_dem_rempart.
  cbn [part set_part set_cache set_part_n part_n].
  rewrite (size_wrap_small (part_n (part dem) + 1)) by lia.
  replace (part_n (part dem) + 1 - 1) with (part_n (part dem)) by lia.
  rewrite (size_wrap_small (part_n (part dem))) by lia.
  rewrite Z.eqb_refl. cbn [negb].
  repeat split.
  intros k Hk. unfold particle.
  cbn [part cache link set_cache set_part set_link set_part_n
       part_l part_role part_r part_m part_jred part_x part_v part_a
       part_phi part_omega part_alpha part_f part_tau part_n].
  now rewrite !upd_other by exact Hk.
Qed.

(** [bmm_dem_unlink] drops the bonds of the active particles and nothing
    else. *)
Lemma unlink_spec dem :
  let d' := snd (bmm_dem_unlink dem) in
  fst (bmm_dem_unlink dem) = true /\
  opts d' = opts dem /\ part d' = part dem /\ cache d' = cache dem /\
  forall k, link d' k =
            if memb k (zrange (part_n (part dem)))
            then set_link_n 0 (link dem k) else link dem k.
Proof.
  cbv zeta. unfold bmm_dem_unlink. cbn [fst snd].
  split; [reflexivity|].
  generalize (zrange (part_n (part dem))). intros l.
  induction l as [|i l IH] using rev_ind.
  - now repeat split.
  - rewrite fold_left_app. cbn [fold_left].
    destruct IH as (Eo & Ep & Ec & El).
    cbn [opts part cache link set_link].
    split; [exact Eo|]. split; [exact Ep|]. split; [exact Ec|].
    intros k. unfold upd. rewrite El.
    unfold memb. rewrite existsb_app. cbn [existsb].
    rewrite orb_false_r.
    destruct (Z.eqb_spec k i) as [->|Hk].
    + rewrite orb_true_r. now destruct (existsb (Z.eqb i) l).
    + now rewrite orb_false_r.
Qed.

End PartExtraFacts.

(** ** Facts about doubles *)

Module DoubleFacts.
Import PrimFloat SpecFloat FloatOps FloatAxioms Double.

(** *** Valid mantissas and exponents *)

Lemma digits2_pos_bounds m :
  2 ^ (Zpos (digits2_pos m) - 1) <= Zpos m < 2 ^ Zpos (digits2_pos m).
Proof.
  induction m as [m IH|m IH|]; cbn [digits2_pos].
  - rewrite Pos2Z.inj_succ. replace (Z.succ (Zpos (digits2_pos m)) - 1) with (Zpos (digits2_pos m)) by lia.
    rewrite Z.pow_succ_r by lia.
    replace (Zpos (digits2_pos m)) with ((Zpos (digits2_pos m) - 1) + 1) at 1 by lia.
    rewrite Z.pow_add_r, Z.pow_1_r by lia. lia.
  - rewrite Pos2Z.inj_succ. replace (Z.succ (Zpos (digits2_pos m)) - 1) with (Zpos (digits2_pos m)) by lia.
    rewrite Z.pow_succ_r by lia.
    replace (Zpos (digits2_pos m)) with ((Zpos (digits2_pos m) - 1) + 1) at 1 by lia.
    rewrite Z.pow_add_r, Z.pow_1_r by lia. lia.
  - cbn. lia.
Qed.

Lemma valid_finite s m e :
  valid_binary (S754_finite s m e) = true ->
  -1074 <= e <= 971 /\ Zpos m < 2 ^ 53 /\ (e = -1074 \/ 2 ^ 52 <= Zpos m).
Proof.
  cbn [SpecFloat.valid_binary]. unfold bounded, canonical_mantissa, fexp, emin, prec, emax.
  intros H. apply andb_prop in H. destruct H as [H1 H2].
  apply Z.eqb_eq in H1. apply Z.leb_le in H2.
  pose proof (digits2_pos_bounds m) as [Hl Hu].
  assert (Hd : Zpos (digits2_pos m) <= 53) by lia.
  split; [lia|]. split.
  - apply Z.lt_le_trans with (1 := Hu). apply Z.pow_le_mono_r; lia.
  - destruct (Z.eq_dec e (-1074)) as [|He]; [now left|right].
    assert (Zpos (digits2_pos m) = 53) by lia.
    replace 52 with (Zpos (digits2_pos m) - 1) by lia. exact Hl.
Qed.

(** Of two valid mantissas the one at the larger exponent is larger. *)
Lemma scaled_lt_exp m1 e1 m2 e2 :
  valid_binary (S754_finite false m1 e1) = true ->
  valid_binary (S754_finite false m2 e2) = true ->
  e1 < e2 ->
  Zpos m1 * 2 ^ (e1 + 1074) < Zpos m2 * 2 ^ (e2 + 1074).
Proof.
  intros V1 V2 H. apply valid_finite in V1, V2.
  destruct V1 as (He1 & Hm1 & _), V2 as (He2 & _ & [He|Hm2]); [lia|].
  replace (e2 + 1074) with ((e1 + 1074) + (e2 - e1)) by lia.
  rewrite (Z.pow_add_r 2 (e1 + 1074) (e2 - e1)) by lia.
  assert (P : 0 < 2 ^ (e1 + 1074)) by (apply Z.pow_pos_nonneg; lia).
  assert (Q : 2 ^ 1 <= 2 ^ (e2 - e1)) by (apply Z.pow_le_mono_r; lia).
  change (2 ^ 1) with 2 in Q. change (2 ^ 53) with 9007199254740992 in *.
  change (2 ^ 52) with 4503599627370496 in *.
  set (p := 2 ^ (e1 + 1074)) in *. set (q := 2 ^ (e2 - e1)) in *.
  assert (A : 9007199254740992 <= Zpos m2 * q) by nia.
  apply Z.lt_le_trans with (9007199254740992 * p); [nia|].
  rewrite (Z.mul_comm p q), Z.mul_assoc. nia.
Qed.

Lemma compare_pos_scaled m1 e1 m2 e2 :
  valid_binary (S754_finite false m1 e1) = true ->
  valid_binary (S754_finite false m2 e2) = true ->
  match e1 ?= e2 with
  | Lt => Lt
  | Gt => Gt
  | Eq => Pos.compare_cont Eq m1 m2
  end = (Zpos m1 * 2 ^ (e1 + 1074) ?= Zpos m2 * 2 ^ (e2 + 1074)).
Proof.
  intros V1 V2. destruct (Z.compare_spec e1 e2) as [E|E|E].
  - subst e2. apply valid_finite in V1. destruct V1 as (He1 & _).
    change (Pos.compare_cont Eq m1 m2) with (Zpos m1 ?= Zpos m2).
    apply Zmult_compare_compat_r. apply Z.lt_gt, Z.pow_pos_nonneg; lia.
  - symmetry. apply Z.compare_lt_iff. now apply scaled_lt_exp.
  - symmetry. apply Z.compare_gt_iff. now apply scaled_lt_exp.
Qed.

(** Comparison of finite doubles is comparison of their exact values. *)
Lemma SFcompare_scaled f1 f2 :
  valid_binary f1 = true -> valid_binary f2 = true ->
  SFnumber f1 = true -> SFnumber f2 = true ->
  SFcompare f1 f2 = Some (SFscaled f1 ?= SFscaled f2).
Proof.
  intros V1 V2 N1 N2.
  destruct f1 as [s1|s1| |s1 m1 e1]; try discriminate;
    destruct f2 as [s2|s2| |s2 m2 e2]; try discriminate;
    cbn [SFcompare SFscaled].
  - reflexivity.
  - apply valid_finite in V2. destruct V2 as (He2 & _).
    assert (0 < 2 ^ (e2 + 1074)) by (apply Z.pow_pos_nonneg; lia).
    destruct s2; cbn [cond_Zopp]; f_equal; symmetry;
      [apply Z.compare_gt_iff|apply Z.compare_lt_iff]; nia.
  - apply valid_finite in V1. destruct V1 as (He1 & _).
    assert (0 < 2 ^ (e1 + 1074)) by (apply Z.pow_pos_nonneg; lia).
    destruct s1; cbn [cond_Zopp]; f_equal; symmetry;
      [apply Z.compare_lt_iff|apply Z.compare_gt_iff]; nia.
  - assert (V1' : valid_binary (S754_finite false m1 e1) = true) by exact V1.
    assert (V2' : valid_binary (S754_finite false m2 e2) = true) by exact V2.
    pose proof (compare_pos_scaled m1 e1 m2 e2 V1' V2') as C.
    pose proof (compare_pos_scaled m2 e2 m1 e1 V2' V1') as C'.
    apply valid_finite in V1, V2. destruct V1 as (He1 & _), V2 as (He2 & _).
    assert (0 < 2 ^ (e1 + 1074)) by (apply Z.pow_pos_nonneg; lia).
    assert (0 < 2 ^ (e2 + 1074)) by (apply Z.pow_pos_nonneg; lia).
    destruct s1, s2; cbn [cond_Zopp]; f_equal.
    + rewrite Z.compare_opp, <- C'.
      rewrite (Z.compare_antisym e1 e2).
      destruct (e1 ?= e2); cbn [CompOpp]; try reflexivity.
      now rewrite Pos.compare_cont_antisym.
    + symmetry. apply Z.compare_lt_iff. nia.
    + symmetry. apply Z.compare_gt_iff. nia.
    + exact C.
Qed.

(** *** Exact conversions *)

Lemma iter_xO p k :
  Zpos (Pos.iter xO p k) = Zpos p * 2 ^ Zpos k /\
  Zpos (digits2_pos (Pos.iter xO p k)) = Zpos (digits2_pos p) + Zpos k.
Proof.
  induction k as [|k IH] using Pos.peano_ind.
  - cbn [Pos.iter digits2_pos]. rewrite Pos2Z.inj_succ. split; lia.
  - rewrite Pos.iter_succ. cbn [digits2_pos]. destruct IH as [IH1 IH2].
    rewrite !Pos2Z.inj_succ, Pos2Z.inj_xO, IH1, IH2, Z.pow_succ_r by lia.
    split; lia.
Qed.

Lemma shl_align_spec p e e' :
  e' <= e ->
  snd (shl_align p e e') = e' /\
  Zpos (fst (shl_align p e e')) = Zpos p * 2 ^ (e - e') /\
  Zpos (digits2_pos (fst (shl_align p e e'))) = Zpos (digits2_pos p) + (e - e').
Proof.
  intros H. unfold shl_align. destruct (e' - e) as [|k|k] eqn:E; cbn [fst snd].
  - assert (e' = e) by lia. subst e'. rewrite Z.sub_diag. cbn. lia.
  - lia.
  - destruct (iter_xO p k) as [H1 H2]. rewrite H1, H2.
    replace (e - e') with (Zpos k) by lia. repeat split; lia.
Qed.

(** A number [p * 2 ^ e] whose mantissa has at most 53 digits is a double:
    rounding only normalises it. *)
Lemma binary_round_exact s p e :
  Zpos (digits2_pos p) <= 53 -> -1074 <= e -> Zpos (digits2_pos p) + e <= 1024 ->
  exists m e',
    binary_round prec emax s p e = S754_finite s m e' /\
    valid_binary (S754_finite s m e') = true /\
    e' <= e /\ Zpos m = Zpos p * 2 ^ (e - e').
Proof.
  intros Hd He Hu. unfold binary_round.
  set (e' := fexp prec emax (Zpos (digits2_pos p) + e)).
  assert (He' : e' <= e /\ -1074 <= e' <= 971).
  { unfold e', fexp, emin, prec, emax. lia. }
  destruct (shl_align_spec p e e' (proj1 He')) as (E1 & E2 & E3).
  destruct (shl_align p e e') as [mz ez]. cbn [fst snd] in *. subst ez.
  exists mz, e'.
  assert (F : fexp prec emax (Zpos (digits2_pos mz) + e') = e').
  { rewrite E3. replace (Zpos (digits2_pos p) + (e - e') + e')
      with (Zpos (digits2_pos p) + e) by lia. reflexivity. }
  split; [|split; [|split; [lia|exact E2]]].
  - unfold binary_round_aux, shr_fexp. cbn [Zdigits2 shr_record_of_loc].
    rewrite F, Z.sub_diag. cbn [shr shr_m loc_of_shr_record round_nearest_even Zdigits2].
    rewrite F, Z.sub_diag. cbn [shr shr_m shr_record_of_loc].
    unfold prec, emax. destruct (Z.leb_spec e' (1024 - 53)); [reflexivity|lia].
  - cbn [SpecFloat.valid_binary]. unfold bounded, canonical_mantissa.
    rewrite F, Z.eqb_refl. cbn [andb]. apply Z.leb_le. unfold prec, emax. lia.
Qed.

Lemma digits2_pos_le p k : Zpos p < 2 ^ k -> Zpos (digits2_pos p) <= k.
Proof.
  intros H. pose proof (digits2_pos_bounds p) as [Hl _].
  destruct (Z.le_gt_cases (Zpos (digits2_pos p)) k) as [|G]; [assumption|exfalso].
  assert (0 <= k) by (destruct (Z.lt_ge_cases k 0) as [N|]; [|assumption];
                      rewrite (Z.pow_neg_r 2 k N) in H; lia).
  assert (2 ^ k <= 2 ^ (Zpos (digits2_pos p) - 1)) by (apply Z.pow_le_mono_r; lia).
  lia.
Qed.

(** Integers below [2 ^ 53] convert to doubles exactly. *)
Lemma of_Z_exact z :
  0 <= z < 2 ^ 53 ->
  SFnumber (Prim2SF (of_Z z)) = true /\ SFscaled (Prim2SF (of_Z z)) = z * 2 ^ 1074.
Proof.
  intros Hz. unfold of_Z. destruct z as [|p|p]; [split; reflexivity| |lia].
  cbn [binary_normalize].
  destruct (binary_round_exact false p 0) as (m & e' & E & V & He & Hm).
  - apply digits2_pos_le. lia.
  - lia.
  - pose proof (digits2_pos_le p 53 (proj2 Hz)). lia.
  - rewrite E, (Prim2SF_SF2Prim _ V). split; [reflexivity|].
    cbn [SFscaled cond_Zopp]. rewrite Hm. apply valid_finite in V.
    rewrite <- Z.mul_assoc, <- Z.pow_add_r by lia. f_equal. f_equal. lia.
Qed.

(** The floor of a finite double is the floor of its exact value. *)
Lemma SFfloor_scaled f :
  valid_binary f = true -> SFnumber f = true ->
  SFfloor f = Some (SFscaled f / 2 ^ 1074).
Proof.
  intros V N. destruct f as [s|s| |s m e]; try discriminate; [reflexivity|].
  apply valid_finite in V. destruct V as (He & _).
  cbn [SFfloor SFscaled]. f_equal.
  replace (cond_Zopp s (Zpos m * 2 ^ (e + 1074)))
    with (cond_Zopp s (Zpos m) * 2 ^ (e + 1074)) by (destruct s; unfold cond_Zopp; [rewrite Z.mul_opp_l|]; reflexivity).
  destruct (Z.lt_ge_cases e 0) as [Hn|Hp].
  - rewrite Z.shiftl_div_pow2 by lia.
    replace (2 ^ 1074) with (2 ^ (- e) * 2 ^ (e + 1074))
      by (rewrite <- Z.pow_add_r by lia; f_equal; lia).
    rewrite Z.div_mul_cancel_r; [reflexivity| |];
      apply Z.pow_nonzero; lia.
  - rewrite Z.shiftl_mul_pow2 by lia.
    rewrite Z.pow_add_r, Z.mul_assoc by lia.
    rewrite Z.div_mul; [reflexivity|]. apply Z.pow_nonzero; lia.
Qed.

(** *** Classes and comparisons *)

Lemma SFcompare_refl f : f <> S754_nan -> SFcompare f f = Some Eq.
Proof.
  destruct f as [s|s| |s m e]; intros H; try contradiction; cbn [SFcompare].
  - reflexivity.
  - now destruct s.
  - rewrite Z.compare_refl.
    change (Pos.compare_cont Eq m m) with (Pos.compare m m).
    rewrite Pos.compare_refl. now destruct s.
Qed.

Lemma is_nan_spec x :
  is_nan x = match Prim2SF x with S754_nan => true | _ => false end.
Proof.
  unfold is_nan. rewrite eqb_spec. unfold SFeqb.
  destruct (Prim2SF x) as [s|s| |s m e] eqn:E; try reflexivity;
    rewrite SFcompare_refl by discriminate; reflexivity.
Qed.

Lemma is_finite_spec x : is_finite x = SFnumber (Prim2SF x).
Proof.
  unfold is_finite, is_infinity. rewrite is_nan_spec, eqb_spec, abs_spec.
  change (Prim2SF infinity) with (S754_infinity false).
  destruct (Prim2SF x) as [s|s| |s m e]; reflexivity.
Qed.

Lemma SFcompare_swap f1 f2 :
  SFcompare f2 f1 = option_map CompOpp (SFcompare f1 f2).
Proof.
  destruct f1 as [s1|s1| |s1 m1 e1], f2 as [s2|s2| |s2 m2 e2];
    cbn [SFcompare option_map]; try reflexivity;
    try (destruct s1; reflexivity); try (destruct s2; reflexivity);
    try (destruct s1, s2; reflexivity).
  destruct s1, s2; try reflexivity; f_equal;
    rewrite (Z.compare_antisym e1 e2); destruct (e1 ?= e2); cbn [CompOpp];
    try reflexivity; rewrite (Pos.compare_cont_antisym m1 m2 Eq);
    cbn [CompOpp]; now destruct (Pos.compare_cont Eq m1 m2).
Qed.

Lemma eqb_geb x y : (x =? y)%float = true -> (y <=? x)%float = true.
Proof.
  rewrite eqb_spec, leb_spec. unfold SFeqb, SFleb.
  rewrite (SFcompare_swap (Prim2SF x) (Prim2SF y)).
  now destruct (SFcompare (Prim2SF x) (Prim2SF y)) as [[]|].
Qed.

Lemma ltb_not_geb x y : (x <? y)%float = true -> (y <=? x)%float = false.
Proof.
  rewrite ltb_spec, leb_spec. unfold SFltb, SFleb.
  rewrite (SFcompare_swap (Prim2SF x) (Prim2SF y)).
  now destruct (SFcompare (Prim2SF x) (Prim2SF y)) as [[]|].
Qed.

(** The difference of a finite double and itself is [+0]. *)
Lemma sub_self x : is_finite x = true -> (x - x)%float = 0%float.
Proof.
  rewrite is_finite_spec. intros H. apply Prim2SF_inj. rewrite sub_spec.
  change (Prim2SF 0) with (S754_zero false).
  destruct (Prim2SF x) as [s|s| |s m e]; try discriminate.
  - now destruct s.
  - unfold SF64sub, SFsub. rewrite Z.sub_diag. reflexivity.
Qed.

(** *** Doubles and integers *)

Lemma SFfloor_number f z : SFfloor f = Some z -> SFnumber f = true.
Proof. destruct f; cbn; congruence. Qed.

(** A double is below an integer when its floor is. *)
Lemma ltb_int_floor t i z :
  0 <= i < 2 ^ 53 -> SFfloor (Prim2SF t) = Some z ->
  ltb t (of_Z i) = (z <? i).
Proof.
  intros Hi Hz. pose proof (SFfloor_number _ _ Hz) as N.
  pose proof (Prim2SF_valid t) as V.
  destruct (of_Z_exact i Hi) as [Ni Si].
  rewrite (SFfloor_scaled _ V N) in Hz. injection Hz as <-.
  rewrite ltb_spec. unfold SFltb.
  rewrite (SFcompare_scaled _ _ V (Prim2SF_valid (of_Z i)) N Ni), Si.
  assert (P : 0 < 2 ^ 1074) by (apply Z.pow_pos_nonneg; lia).
  destruct (Z.compare_spec (SFscaled (Prim2SF t)) (i * 2 ^ 1074)) as [C|C|C];
    symmetry.
  - apply Z.ltb_ge. rewrite C, Z.div_mul by lia. lia.
  - apply Z.ltb_lt. apply Z.div_lt_upper_bound; lia.
  - apply Z.ltb_ge. apply Z.div_le_lower_bound; lia.
Qed.

(** A double is at or above an integer when its floor is. *)
Lemma leb_int_floor t i z :
  0 <= i < 2 ^ 53 -> SFfloor (Prim2SF t) = Some z ->
  leb (of_Z i) t = (i <=? z).
Proof.
  intros Hi Hz. pose proof (SFfloor_number _ _ Hz) as N.
  pose proof (Prim2SF_valid t) as V.
  destruct (of_Z_exact i Hi) as [Ni Si].
  rewrite (SFfloor_scaled _ V N) in Hz. injection Hz as <-.
  rewrite leb_spec. unfold SFleb.
  rewrite (SFcompare_scaled _ _ (Prim2SF_valid (of_Z i)) V Ni N), Si.
  assert (P : 0 < 2 ^ 1074) by (apply Z.pow_pos_nonneg; lia).
  destruct (Z.compare_spec (i * 2 ^ 1074) (SFscaled (Prim2SF t))) as [C|C|C];
    symmetry.
  - apply Z.leb_le. rewrite <- C, Z.div_mul by lia. lia.
  - apply Z.leb_le. apply Z.div_le_lower_bound; lia.
  - apply Z.leb_gt. apply Z.div_lt_upper_bound; lia.
Qed.

(** The conversion to [size_t] of a double that is not negative and below
    [2 ^ 64] yields its floor. *)
Lemma to_size_floor t z :
  SFfloor (Prim2SF t) = Some z -> 0 <= z < 2 ^ 64 -> to_size t = Val z.
Proof.
  intros Hz Hr. unfold to_size.
  destruct (Prim2SF t) as [s|s| |s m e] eqn:E; try discriminate.
  - cbn in Hz. congruence.
  - cbn [SFfloor] in Hz. injection Hz as Hz.
    destruct s; cbn [cond_Zopp] in *.
    + exfalso. assert (Z.shiftl (Z.neg m) e < 0); [|change (- Z.pos m) with (Z.neg m) in Hz; lia].
      apply Z.shiftl_neg. lia.
    + rewrite Hz. apply CIntFacts.chk_fits.
      change (CInt.minval CInt.size_t) with 0.
      change (CInt.maxval CInt.size_t) with 18446744073709551615.
      change (2 ^ 64) with 18446744073709551616 in Hr. lia.
Qed.

End DoubleFacts.

(** ** The functions of [dem.c] in doubles *)

Module Dem64Facts.
Import PrimFloat SpecFloat FloatOps FloatAxioms.
Import CInt CIntFacts Double DoubleFacts Fp64 Dem DemFacts Dem64.

(** *** The cell of a particle *)

Lemma one_scaled :
  Prim2SF 1 = S754_finite false 4503599627370496 (-52) /\
  SFscaled (Prim2SF 1) = 2 ^ 1074.
Proof. split; reflexivity. Qed.

(** The cell index is the clamped floor of the interpolated coordinate. *)
Lemma cache_ijcell_dim_spec ncell boxx x :
  1 <= ncell <= 2 ^ 53 ->
  cache_ijcell_dim ncell boxx x =
  match clamp_floor (cache_ijcell_t ncell boxx x) 0 (ncell - 1) with
  | Some j => Val j
  | None => Undefined
  end.
Proof.
  intros Hn. unfold cache_ijcell_dim. cbv zeta.
  assert (Ei : size_wrap (ncell - 1) = ncell - 1).
  { unfold size_wrap. apply Z.mod_small. change (2 ^ 53) with 9007199254740992 in Hn.
    change (2 ^ 64) with 18446744073709551616. lia. }
  set (t := cache_ijcell_t ncell boxx x). rewrite Ei.
  destruct (of_Z_exact (ncell - 1)) as [Nb Sb]; [lia|].
  pose proof (Prim2SF_valid (of_Z (ncell - 1))) as Vb.
  pose proof (Prim2SF_valid t) as Vt.
  destruct one_scaled as [E1 S1].
  pose proof (Prim2SF_valid 1) as V1.
  unfold geb. rewrite ltb_spec, leb_spec. unfold SFltb, SFleb, clamp_floor, to_size, clamp.
  assert (P : 0 < 2 ^ 1074) by (apply Z.pow_pos_nonneg; lia).
  destruct (Prim2SF t) as [s|s| |s m e] eqn:Et.
  - rewrite E1. cbn [SFcompare SFfloor option_map]. f_equal. lia.
  - destruct s.
    + rewrite E1. reflexivity.
    + rewrite E1. cbn [SFcompare].
      destruct (Prim2SF (of_Z (ncell - 1))) as [sb|sb| |sb mb eb];
        try discriminate; reflexivity.
  - rewrite E1. cbn [SFcompare].
    destruct (Prim2SF (of_Z (ncell - 1))) as [sb|sb| |sb mb eb]; reflexivity.
  - rewrite (SFcompare_scaled _ _ Vt V1 eq_refl eq_refl), S1.
    rewrite (SFcompare_scaled _ _ Vb Vt Nb eq_refl), Sb.
    rewrite (SFfloor_scaled _ Vt eq_refl). cbn [option_map].
    set (S := SFscaled (S754_finite s m e)) in *.
    destruct (Z.compare_spec S (2 ^ 1074)) as [C|C|C].
    + (* t = 1 *)
      assert (Ez : S / 2 ^ 1074 = 1) by (rewrite C; apply Z.div_same; lia).
      rewrite Ez.
      destruct (Z.compare_spec ((ncell - 1) * 2 ^ 1074) S) as [D|D|D].
      * f_equal. nia.
      * f_equal. nia.
      * assert (Hs : s = false).
        { destruct s; [|reflexivity]. unfold S in C. cbn [SFscaled cond_Zopp] in C. lia. }
        subst s. cbn [cond_Zopp].
        assert (Ef : SFfloor (S754_finite false m e) = Some 1)
          by (rewrite (SFfloor_scaled _ Vt eq_refl); fold S; now rewrite Ez).
        cbn [SFfloor cond_Zopp] in Ef. injection Ef as ->.
        rewrite chk_fits; [f_equal; lia|].
        change (minval size_t) with 0.
        change (maxval size_t) with 18446744073709551615. lia.
    + f_equal.
      assert (S / 2 ^ 1074 < 1) by (apply Z.div_lt_upper_bound; lia). lia.
    + assert (Hz : 1 <= S / 2 ^ 1074) by (apply Z.div_le_lower_bound; lia).
      destruct (Z.compare_spec ((ncell - 1) * 2 ^ 1074) S) as [D|D|D].
      * f_equal.
        assert (ncell - 1 <= S / 2 ^ 1074) by (apply Z.div_le_lower_bound; lia). lia.
      * f_equal.
        assert (ncell - 1 <= S / 2 ^ 1074) by (apply Z.div_le_lower_bound; lia). lia.
      * assert (Hu : S / 2 ^ 1074 < ncell - 1) by (apply Z.div_lt_upper_bound; lia).
        assert (Hs : s = false).
        { destruct s; [|reflexivity]. unfold S in C. cbn [SFscaled cond_Zopp] in C. lia. }
        subst s. cbn [cond_Zopp].
        assert (Ef : SFfloor (S754_finite false m e) = Some (S / 2 ^ 1074))
          by (now rewrite (SFfloor_scaled _ Vt eq_refl)).
        cbn [SFfloor cond_Zopp] in Ef. injection Ef as ->.
        rewrite chk_fits; [f_equal; lia|].
        change (minval size_t) with 0.
        change (maxval size_t) with 18446744073709551615.
        change (2 ^ 53) with 9007199254740992 in Hn. lia.
Qed.


(** [bmm_dem_cache_ijcell] stores the two clamped floors, and is undefined
    when one of the interpolated coordinates is a NaN. *)
Lemma cache_ijcell_store dem ipart :
  1 <= fst (cache_ncell (opts dem)) <= 2 ^ 53 ->
  1 <= snd (cache_ncell (opts dem)) <= 2 ^ 53 ->
  bmm_dem_cache_ijcell dem ipart =
  match clamp_floor (cache_ijcell_t (fst (cache_ncell (opts dem)))
                       (fst (box_x (opts dem))) (fst (cache_x (cache dem) ipart)))
          0 (fst (cache_ncell (opts dem)) - 1),
        clamp_floor (cache_ijcell_t (snd (cache_ncell (opts dem)))
                       (snd (box_x (opts dem))) (snd (cache_x (cache dem) ipart)))
          0 (snd (cache_ncell (opts dem)) - 1)
  with
  | Some j0, Some j1 =>
      Val (set_cache (set_cache_ijcell
             (upd (cache_ijcell (cache dem)) ipart (j0, j1)) (cache dem)) dem)
  | _, _ => Undefined
  end.
Proof.
  intros H0 H1. unfold bmm_dem_cache_ijcell. cbv zeta.
  rewrite !cache_ijcell_dim_spec by assumption.
  destruct (clamp_floor _ 0 (fst (cache_ncell (opts dem)) - 1)); [|reflexivity].
  cbn [bind].
  destruct (clamp_floor _ 0 (snd (cache_ncell (opts dem)) - 1)); reflexivity.
Qed.

(** The conversion of [bmm_dem_cache_ijcell] is reached with a number
    between the two ends only, unless the interpolated coordinate is a
    NaN. *)
Lemma cache_ijcell_dim_cases ncell boxx x :
  1 <= ncell <= 2 ^ 53 ->
  is_nan (cache_ijcell_t ncell boxx x) = false ->
  ltb (cache_ijcell_t ncell boxx x) 1 = false ->
  geb (cache_ijcell_t ncell boxx x) (of_Z (ncell - 1)) = false ->
  exists j, to_size (cache_ijcell_t ncell boxx x) = Val j /\ 1 <= j < ncell - 1.
Proof.
  intros Hn. set (t := cache_ijcell_t ncell boxx x). intros Hnan Hlt Hge.
  rewrite is_nan_spec in Hnan. unfold geb in Hge.
  change (2 ^ 53) with 9007199254740992 in Hn.
  destruct (SFfloor (Prim2SF t)) as [z|] eqn:Ez.
  - change 1%float with (of_Z 1) in Hlt.
    rewrite (ltb_int_floor t 1 z) in Hlt by (try assumption; cbn; lia).
    rewrite (leb_int_floor t (ncell - 1) z) in Hge
      by (try assumption; change (2 ^ 53) with 9007199254740992; lia).
    apply Z.ltb_ge in Hlt. apply Z.leb_gt in Hge.
    exists z. split; [|lia]. apply to_size_floor; [assumption|].
    change (2 ^ 64) with 18446744073709551616. lia.
  - exfalso. destruct (Prim2SF t) as [s|s| |s m e] eqn:Et; try discriminate.
    destruct (of_Z_exact (ncell - 1)) as [Nb _];
      [change (2 ^ 53) with 9007199254740992; lia|].
    destruct s.
    + rewrite ltb_spec, Et in Hlt. discriminate.
    + rewrite leb_spec, Et in Hge. unfold SFleb in Hge.
      destruct (Prim2SF (of_Z (ncell - 1))) as [sb|sb| |sb mb eb];
        discriminate.
Qed.

Lemma clamp_floor_range t lo hi j :
  lo <= hi -> clamp_floor t lo hi = Some j -> lo <= j <= hi.
Proof.
  intros H. unfold clamp_floor, clamp.
  destruct (Prim2SF t) as [s|s| |s m e]; cbn [SFfloor option_map];
    try discriminate; intros [= <-]; try lia.
  destruct s; lia.
Qed.

Lemma clamp_floor_nan t lo hi : clamp_floor t lo hi = None <-> is_nan t = true.
Proof.
  rewrite is_nan_spec. unfold clamp_floor.
  destruct (Prim2SF t) as [s|s| |s m e]; cbn [SFfloor option_map];
    split; congruence.
Qed.

(** *** The expiry of the cache *)

Lemma cache_expired_true dem :
  bmm_dem_cache_expired dem = true <->
  exists idim ipart, 0 <= idim < 2 /\ 0 <= ipart < part_n (part dem) /\
                     geb (drift dem idim ipart) (safe_radius dem idim ipart) = true.
Proof.
  unfold bmm_dem_cache_expired. rewrite existsb_exists. split.
  - intros (idim & Hd%in_zrange & H). apply existsb_exists in H.
    destruct H as (ipart & Hp%in_zrange & H). exists idim, ipart.
    unfold BMM_NDIM in Hd. tauto.
  - intros (idim & ipart & Hd & Hp & H). exists idim.
    split; [now apply in_zrange|]. apply existsb_exists. exists ipart.
    split; [now apply in_zrange|exact H].
Qed.

(** *** The force between two particles *)

(** [fmax(0.0, z)] is [z] when [z] is positive and [0.0] otherwise, also
    for a NaN. *)
Lemma fmax_zero z : fmax 0 z = if ltb 0 z then z else 0%float.
Proof.
  unfold fmax, geb. rewrite is_nan_spec, leb_spec, ltb_spec. unfold SFleb, SFltb.
  rewrite (SFcompare_swap (Prim2SF z) (Prim2SF 0)).
  change (Prim2SF 0) with (S754_zero false).
  destruct (Prim2SF z) as [s|s| |s m e]; cbn [SFcompare option_map CompOpp orb];
    try reflexivity; now destruct s.
Qed.

Lemma fmax_zero_of_zero u s : Prim2SF u = S754_zero s -> fmax 0 u = 0%float.
Proof.
  intros H. rewrite fmax_zero, ltb_spec, H. reflexivity.
Qed.

(** A finite factor times zero is a zero, and adding a zero to [z] leaves
    [z] as it is unless [z] is a zero itself: the stiffness term
    [Y * 0] does not show in [fmax(0.0, Y * 0 + z)]. *)
Lemma fmax_zero_skip y z :
  is_finite y = true -> fmax 0 (y * 0 + z) = fmax 0 z.
Proof.
  rewrite is_finite_spec. intros Hy.
  assert (Hw : exists s, Prim2SF (y * 0) = S754_zero s).
  { rewrite mul_spec. change (Prim2SF 0) with (S754_zero false).
    destruct (Prim2SF y) as [s|s| |s m e]; try discriminate; eexists; reflexivity. }
  destruct Hw as [sw Hw].
  destruct (Prim2SF z) as [s|s| |s m e] eqn:Ez.
  - rewrite (fmax_zero_of_zero z s Ez).
    assert (Hs : exists s', Prim2SF (y * 0 + z) = S754_zero s').
    { rewrite add_spec, Hw, Ez. destruct sw, s; eexists; reflexivity. }
    destruct Hs as [s' Hs]. now rewrite (fmax_zero_of_zero _ s' Hs).
  - f_equal. apply Prim2SF_inj. rewrite add_spec, Hw, Ez. reflexivity.
  - f_equal. apply Prim2SF_inj. rewrite add_spec, Hw, Ez. reflexivity.
  - f_equal. apply Prim2SF_inj. rewrite add_spec, Hw, Ez. reflexivity.
Qed.

(** The contact of a pair whose distance is the sum of the radii. *)
Lemma contact_touching dem i j c :
  force_pair_contact dem i j = Some c ->
  opts_fnorm (opts dem) = BMM_DEM_FNORM_DASHPOT ->
  sqrt (pair_d2 dem i j) = pair_r dem i j ->
  is_finite (pair_r dem i j) = true ->
  c_xi c = 0%float /\
  c_fn c = fmax 0 (opts_part_y (opts dem) * 0 + dashpot_gamma (opts dem) * c_dotxi c).
Proof.
  unfold force_pair_contact, pair_d2, pair_r. cbv zeta. intros E Hf Hd Hfin.
  destruct (_ || _); [discriminate|]. injection E as <-.
  cbn [c_xi c_fn c_dotxi]. rewrite Hf, Hd, (sub_self _ Hfin). now split.
Qed.

Lemma contact_none dem i j :
  force_pair_contact dem i j = None <->
  gtb (pair_d2 dem i j) (bmm_fp_sq (pair_r dem i j)) || eqb (pair_d2 dem i j) 0 = true.
Proof.
  unfold force_pair_contact, pair_d2, pair_r. cbv zeta.
  destruct (_ || _); split; congruence.
Qed.

(** What [bmm_dem_force_pair] stores for a pair in contact. *)
Lemma force_pair_f dem i j c :
  force_pair_contact dem i j = Some c -> i <> j ->
  part_f (part (bmm_dem_force_pair dem i j)) i =
    bmm_geom2d_addto
      (bmm_geom2d_addto (part_f (part dem) i)
         (bmm_geom2d_scale (c_xnorm c) (- c_fn c)))
      (bmm_geom2d_scale (c_xtang c) (c_ft c)) /\
  part_f (part (bmm_dem_force_pair dem i j)) j =
    bmm_geom2d_addto
      (bmm_geom2d_addto (part_f (part dem) j)
         (bmm_geom2d_scale (bmm_geom2d_scale (c_xnorm c) (- c_fn c)) (-1)))
      (bmm_geom2d_scale (bmm_geom2d_scale (c_xtang c) (c_ft c)) (-1)) /\
  part_tau (part (bmm_dem_force_pair dem i j)) i =
    (part_tau (part dem) i + c_ft c * part_r (part dem) i)%float /\
  part_tau (part (bmm_dem_force_pair dem i j)) j =
    (part_tau (part dem) j + c_ft c * part_r (part dem) j)%float.
Proof.
  intros E Hij. unfold bmm_dem_force_pair. rewrite E. cbv zeta.
  unfold add_f, add_tau.
  cbn [part set_part part_f part_tau part_r set_part_f set_part_tau].
  assert (Hji : j <> i) by congruence.
  repeat (first [rewrite upd_same | rewrite upd_other by assumption]).
  repeat split.
Qed.

(** [bmm_dem_force_pair] writes to the forces and the torques of the two
    particles only. *)
Lemma force_pair_frame dem i j :
  opts (bmm_dem_force_pair dem i j) = opts dem /\
  cache (bmm_dem_force_pair dem i j) = cache dem /\
  part_n (part (bmm_dem_force_pair dem i j)) = part_n (part dem) /\
  part_r (part (bmm_dem_force_pair dem i j)) = part_r (part dem) /\
  part_x (part (bmm_dem_force_pair dem i j)) = part_x (part dem) /\
  part_v (part (bmm_dem_force_pair dem i j)) = part_v (part dem) /\
  part_omega (part (bmm_dem_force_pair dem i j)) = part_omega (part dem) /\
  forall k, k <> i -> k <> j ->
    part_f (part (bmm_dem_force_pair dem i j)) k = part_f (part dem) k /\
    part_tau (part (bmm_dem_force_pair dem i j)) k = part_tau (part dem) k.
Proof.
  unfold bmm_dem_force_pair.
  destruct (force_pair_contact dem i j) as [c|]; [|repeat split].
  cbv zeta. unfold add_f, add_tau.
  cbn [opts cache part set_part part_n part_r part_x part_v part_omega part_f
       part_tau set_part_f set_part_tau].
  repeat split; cbn [part_f part_tau];
    repeat (first [rewrite upd_same | rewrite upd_other by assumption]);
    reflexivity.
Qed.


(** *** The example states of the rebuild, in doubles

    The coordinates of the states [dem_adjacent], [dem_far] and
    [dem_around] are doubles, and the double arithmetic is exact on them:
    it bins them to the same cells and finds the same squared distances
    as the real arithmetic. *)
Example example_cells :
  map (cache_ijcell_dim 6 4) [2.5; 1.75]%float = [Val 3; Val 2] /\
  map (cache_ijcell_dim 5 1) [0.5; 0.3125; 0.75; 0.125; 0.875]%float =
    [Val 2; Val 1; Val 3; Val 1; Val 3].
Proof. split; reflexivity. Qed.

Example example_distances :
  bmm_geom2d_norm2
    (bmm_geom2d_cpdiff (2.5, 2.5)%float (1.75, 2.5)%float (4, 4)%float (false, false)) =
    0.5625%float /\
  bmm_geom2d_norm2
    (bmm_geom2d_cpdiff (0.5, 0.3125)%float (0.5, 0.75)%float (1, 1)%float (true, false)) =
    0.19140625%float /\
  bmm_geom2d_norm2
    (bmm_geom2d_cpdiff (0.125, 0.5)%float (0.875, 0.5)%float (1, 1)%float (true, false)) =
    0.0625%float.
Proof. repeat split. Qed.

Import Examples64.

(** Both outcomes occur for a pair whose distance is, as a double, the
    sum of the radii: the pair of [dem_touching] is in contact, the pair
    of [dem_grazing] is not, because its squared distance exceeds the
    rounded square of the sum of the radii. *)
Example touching_in_contact_or_not :
  (sqrt (pair_d2 dem_touching 0 1) = pair_r dem_touching 0 1 /\
   gtb (pair_d2 dem_touching 0 1) (bmm_fp_sq (pair_r dem_touching 0 1))
     || eqb (pair_d2 dem_touching 0 1) 0 = false) /\
  (sqrt (pair_d2 dem_grazing 0 1) = pair_r dem_grazing 0 1 /\
   is_finite (pair_r dem_grazing 0 1) = true /\
   gtb (pair_d2 dem_grazing 0 1) (bmm_fp_sq (pair_r dem_grazing 0 1)) = true /\
   force_pair_contact dem_grazing 0 1 = None /\
   bmm_dem_force_pair dem_grazing 0 1 = dem_grazing).
Proof. repeat split. Qed.

End Dem64Facts.

(** * The claims *)

Module Claims.
Import CIntFacts CommonUintFacts CommonSintFacts HcFacts.
Import Dem DemFacts RealEval GeomFacts Examples.

(** C5 (defect).  The signed [bmm_wrap] instantiated at [int] overflows
    for bounds of different signs that are more than [INT_MAX] apart: the
    difference [b - a] is computed in [int] before it is widened to
    [long long], so [bmm_wrap(0, INT_MIN, INT_MAX)] is undefined, whatever
    the number of rounds allowed to its loops. *)
Theorem wrap_int_overflows (fuel : nat) :
  CommonSint.bmm_wrap fuel int 0 (-2147483648) 2147483647 = Undefined.
Proof. reflexivity. Qed.

(** C6 (as stated, refuted).  With extents [2^63, 4], whose product does
    not fit [size_t], the index vector [2^62, 0] lies inside the
    hypercuboid, yet packing it wraps around to 0, which unpacks to
    [0, 0]. *)
Lemma unhcd_wraps_around :
  Forall2 (fun d m => 0 <= d < m) [2 ^ 62; 0] [2 ^ 63; 4] /\
  CommonUint.bmm_hcd [0; 0] (CommonUint.bmm_unhcd 64 [2 ^ 62; 0] 2 [2 ^ 63; 4]) 2
    [2 ^ 63; 4] = Val [0; 0].
Proof.
  split; [|reflexivity].
  repeat constructor; cbn; lia.
Qed.

(** C6 (amended).  For every unsigned width [w], extents [nper] and buffer
    [pij] of the same length: unpacking an index [i] below the number of
    cells with [bmm_hcd] and packing it again with [bmm_unhcd] yields [i];
    and packing an index vector componentwise below [nper] and unpacking it
    yields the vector again, provided the number of cells does not exceed
    [2 ^ w], so that the packed index does not wrap around. *)
Theorem hcd_unhcd_roundtrip (w : Z) (nper pij : list Z) :
  0 <= w -> length pij = length nper ->
  (forall i, Forall (fun m => 0 <= m) nper ->
     0 <= i < CommonUint.prod nper -> i < 2 ^ w ->
     exists ij, CommonUint.bmm_hcd pij i (length nper) nper = Val ij /\
                CommonUint.bmm_unhcd w ij (length nper) nper = i) /\
  (forall ij, Forall2 (fun d m => 0 <= d < m) ij nper ->
     CommonUint.prod nper <= 2 ^ w ->
     CommonUint.bmm_hcd pij (CommonUint.bmm_unhcd w ij (length nper) nper)
       (length nper) nper = Val ij).
Proof.
  intros Hw Hp. split.
  - intros i Hn Hi Hi2.
    destruct (unhcd_hcd w Hw nper pij i Hp Hn Hi Hi2) as (ij & E1 & E2 & _).
    exists ij. now split.
  - intros ij F Hprod. now apply (hcd_unhcd w Hw nper pij ij Hp F Hprod).
Qed.

Lemma hcd_unhcd_roundtrip_witness :
  0 <= 64 /\ length [0; 0] = length [6; 5] /\
  CommonUint.bmm_hcd [0; 0] (CommonUint.bmm_unhcd 64 [3; 2] 2 [6; 5]) 2 [6; 5]
    = Val [3; 2].
Proof.
  split; [lia|]. split; [reflexivity|].
  apply (proj2 (hcd_unhcd_roundtrip 64 [6; 5] [0; 0] ltac:(lia) eq_refl)).
  - repeat constructor; lia.
  - cbn. lia.
Defined.

(** C7.  In a state with [0 <= n <= BMM_MPART] (and [BMM_MPART] a value
    of [size_t]): if [n] equals the capacity, [bmm_dem_addpart] returns the
    sentinel [SIZE_MAX] and leaves the whole state unchanged; otherwise it
    returns the index [n], the count becomes [n + 1], the new particle is
    at the origin with zero velocity and carries the label [lnew], [lnew]
    is incremented (in [size_t]), the cache is marked stale, and the
    labels, positions and velocities of the other slots are kept. *)
Theorem addpart_spec (MPART : Z) (dem : bmm_dem) :
  0 <= part_n (part dem) <= MPART -> MPART <= SIZE_MAX ->
  (part_n (part dem) = MPART -> bmm_dem_addpart MPART dem = (SIZE_MAX, dem)) /\
  (part_n (part dem) <> MPART ->
     fst (bmm_dem_addpart MPART dem) = part_n (part dem) /\
     part_n (part (snd (bmm_dem_addpart MPART dem))) = part_n (part dem) + 1 /\
     part_x (part (snd (bmm_dem_addpart MPART dem))) (part_n (part dem)) = (0, 0)%R /\
     part_v (part (snd (bmm_dem_addpart MPART dem))) (part_n (part dem)) = (0, 0)%R /\
     part_l (part (snd (bmm_dem_addpart MPART dem))) (part_n (part dem)) =
       part_lnew (part dem) /\
     part_lnew (part (snd (bmm_dem_addpart MPART dem))) =
       size_wrap (part_lnew (part dem) + 1) /\
     cache_stale (cache (snd (bmm_dem_addpart MPART dem))) = true /\
     forall k, k <> part_n (part dem) ->
       part_l (part (snd (bmm_dem_addpart MPART dem))) k = part_l (part dem) k /\
       part_x (part (snd (bmm_dem_addpart MPART dem))) k = part_x (part dem) k /\
       part_v (part (snd (bmm_dem_addpart MPART dem))) k = part_v (part dem) k).
Proof.
  intros Hn HM. unfold bmm_dem_addpart, SIZE_MAX in *. split.
  - intros E. destruct (Z.geb_spec (part_n (part dem)) MPART); [reflexivity|lia].
  - intros E. destruct (Z.geb_spec (part_n (part dem)) MPART); [lia|].
    cbn [fst snd part cache set_cache set_part part_n part_x part_v part_l
         part_lnew cache_stale set_cache_stale].
    rewrite !upd_same. unfold size_wrap at 1. rewrite Z.mod_small by lia.
    repeat split; try reflexivity; now apply upd_other.
Qed.

Lemma addpart_spec_witness :
  0 <= part_n (part (bmm_dem_def opts_ex)) <= 4 /\ 4 <= SIZE_MAX /\
  fst (bmm_dem_addpart 4 (bmm_dem_def opts_ex)) = 0 /\
  part_l (part (snd (bmm_dem_addpart 4 (bmm_dem_def opts_ex)))) 0 = 0.
Proof.
  assert (H1 : 0 <= part_n (part (bmm_dem_def opts_ex)) <= 4) by (cbn; lia).
  assert (H2 : 4 <= SIZE_MAX) by (unfold SIZE_MAX; lia).
  assert (H3 : part_n (part (bmm_dem_def opts_ex)) <> 4) by (cbn; lia).
  split; [exact H1|]. split; [exact H2|].
  destruct (proj2 (addpart_spec 4 (bmm_dem_def opts_ex) H1 H2) H3)
    as (E1 & _ & _ & _ & E2 & _).
  split; [exact E1|exact E2].
Defined.

(** C9.  The cohesive-bond pass changes nothing: [bmm_dem_force_link]
    returns the state it is given for every bond, and the pass over all
    stored bonds leaves the forces, the torques and the whole link store
    (hence every bond) as they were. *)
Theorem force_link_changes_nothing (dem : bmm_dem) :
  (forall ipart ilink,
     bmm_dem_force_link dem ipart (link_i (link dem ipart) ilink) ilink = dem) /\
  force_links dem = dem /\
  part_f (part (force_links dem)) = part_f (part dem) /\
  part_tau (part (force_links dem)) = part_tau (part dem) /\
  link (force_links dem) = link dem.
Proof.
  split; [reflexivity|]. rewrite force_links_id. repeat split.
Qed.

(** C10.  With the ambient law CREEPING the force accumulator produces the
    same forces and torques as with any other ambient law, in particular
    the laws QUAD and CORR that multiply by 1: the ambient pass runs on the
    forces that were just zeroed and changes nothing. *)
Theorem force_creeping_is_identity (dem : bmm_dem) (a : bmm_dem_famb) :
  part_f (part (bmm_dem_force (set_famb BMM_DEM_FAMB_CREEPING dem))) =
    part_f (part (bmm_dem_force (set_famb a dem))) /\
  part_tau (part (bmm_dem_force (set_famb BMM_DEM_FAMB_CREEPING dem))) =
    part_tau (part (bmm_dem_force (set_famb a dem))) /\
  force_ambients (force_clear (set_famb BMM_DEM_FAMB_CREEPING dem)) =
    force_clear (set_famb BMM_DEM_FAMB_CREEPING dem).
Proof.
  rewrite !force_famb. repeat split. apply force_ambients_clear.
Qed.

Import Neigh CacheFacts NeighFacts AdjacentFacts PairFacts FarFacts AroundFacts.



(** C8 (as stated, refuted).  The label counter [lnew] is a [size_t] and
    wraps around: with room for two particles (here a capacity of 1024),
    the operations [ops_wrap_around], one add followed by [2 ^ 64 − 1]
    rounds of add and remove and a final add, leave two active particles
    that carry the same label. *)
Lemma labels_repeat_after_wrap_around :
  exists dem', run 1024 ops_wrap_around (bmm_dem_def opts_ex) = Some dem' /\
               part_n (part dem') = 2 /\
               part_l (part dem') 0 = part_l (part dem') 1.
Proof. apply PartFacts.labels_wrap_around. lia. Qed.

(** C8 (amended).  Starting from the initial state, after any sequence of
    add operations and remove operations (each remove applied to a valid
    index [i < n]) that contains at most [2 ^ 64] adds, the particle count
    satisfies [0 <= n <= BMM_MPART] and the labels [l[0..n)] of the active
    slots are pairwise distinct. *)
Theorem add_remove_invariant (MPART : Z) (o : bmm_dem_opts) (ops : list op)
    (dem' : bmm_dem) :
  0 <= MPART <= SIZE_MAX ->
  count_adds ops <= 2 ^ 64 ->
  run MPART ops (bmm_dem_def o) = Some dem' ->
  0 <= part_n (part dem') <= MPART /\ labels_distinct dem'.
Proof.
  intros HM Hc Hrun.
  destruct (PartFacts.run_labels_inv MPART ops 0 (bmm_dem_def o) dem')
    as (k & Hn & _ & _ & _ & Hd); try assumption; try lia.
  - apply PartFacts.labels_inv_init. lia.
  - now split.
Qed.

Lemma add_remove_invariant_witness :
  0 <= 4 <= SIZE_MAX /\
  count_adds [Add; Add; Remove 0; Add] <= 2 ^ 64 /\
  run 4 [Add; Add; Remove 0; Add] (bmm_dem_def opts_ex) =
    Some (snd (bmm_dem_addpart 4
           (bmm_dem_rempart
              (snd (bmm_dem_addpart 4 (snd (bmm_dem_addpart 4 (bmm_dem_def opts_ex)))))
              0))) /\
  labels_distinct
    (snd (bmm_dem_addpart 4
       (bmm_dem_rempart
          (snd (bmm_dem_addpart 4 (snd (bmm_dem_addpart 4 (bmm_dem_def opts_ex)))))
          0))).
Proof.
  assert (H1 : 0 <= 4 <= SIZE_MAX) by (unfold SIZE_MAX; lia).
  assert (H2 : count_adds [Add; Add; Remove 0; Add] <= 2 ^ 64) by (cbn; lia).
  assert (H3 : run 4 [Add; Add; Remove 0; Add] (bmm_dem_def opts_ex) =
    Some (snd (bmm_dem_addpart 4
           (bmm_dem_rempart
              (snd (bmm_dem_addpart 4 (snd (bmm_dem_addpart 4 (bmm_dem_def opts_ex)))))
              0)))) by reflexivity.
  split; [exact H1|]. split; [exact H2|]. split; [exact H3|].
  exact (proj2 (add_remove_invariant 4 opts_ex [Add; Add; Remove 0; Add] _ H1 H2 H3)).
Defined.

(** The claims on the cell of a particle, the expiry of the cache and the
    force between two particles turn on the values that the double
    arithmetic produces; they are stated over doubles. *)
Import PrimFloat Double DoubleFacts Fp64 Dem64 Dem64Facts Examples64.

(** C2 (as stated, refuted).  In [dem_drifted] no drift exceeds the safe
    radius: the first particle has moved by exactly the safe radius
    [4 / (2 (6 - 2)) - 1/4 = 1/4] along the first axis (all the numbers
    are doubles and the operations exact), nothing else has moved.  The
    cache is nevertheless reported as expired. *)
Lemma expired_at_safe_radius :
  (forall idim ipart, 0 <= idim < 2 -> 0 <= ipart < part_n (part dem_drifted) ->
     leb (drift dem_drifted idim ipart) (safe_radius dem_drifted idim ipart) = true) /\
  eqb (drift dem_drifted 0 0) (safe_radius dem_drifted 0 0) = true /\
  bmm_dem_cache_expired dem_drifted = true.
Proof.
  split; [|split; reflexivity].
  intros idim ipart Hd Hp. cbn in Hp.
  assert (C : (idim = 0 \/ idim = 1) /\ (ipart = 0 \/ ipart = 1)) by lia.
  destruct C as [[-> | ->] [-> | ->]]; reflexivity.
Qed.

(** C2 (amended).  [bmm_dem_cache_expired] returns [true] exactly when, for
    some particle [i] and dimension [d], the comparison [drift >= safe
    radius] of doubles holds, where the drift is
    [fabs(swrap(x[i][d] − cache.x[i][d], box.x[d]))] and the safe radius is
    [box.x[d] / (double) ((ncell[d] − 2) · 2) − r[i]], each operation
    rounded.  So a particle whose drift equals the safe radius does
    trigger a rebuild, as does one beyond it, and the cache is not expired
    when every drift is strictly below the safe radius.  (A comparison
    with a NaN does not hold.) *)
Theorem cache_expired_spec (dem : bmm_dem) :
  (bmm_dem_cache_expired dem = true <->
   exists idim ipart, 0 <= idim < 2 /\ 0 <= ipart < part_n (part dem) /\
                      geb (drift dem idim ipart) (safe_radius dem idim ipart) = true) /\
  (forall idim ipart, 0 <= idim < 2 -> 0 <= ipart < part_n (part dem) ->
     eqb (drift dem idim ipart) (safe_radius dem idim ipart) = true ->
     bmm_dem_cache_expired dem = true) /\
  ((forall idim ipart, 0 <= idim < 2 -> 0 <= ipart < part_n (part dem) ->
      ltb (drift dem idim ipart) (safe_radius dem idim ipart) = true) ->
   bmm_dem_cache_expired dem = false).
Proof.
  split; [apply cache_expired_true|]. split.
  - intros idim ipart Hd Hp E. apply cache_expired_true.
    exists idim, ipart. split; [exact Hd|]. split; [exact Hp|].
    unfold geb. now apply eqb_geb.
  - intros H. apply Bool.not_true_iff_false. intros E.
    apply cache_expired_true in E. destruct E as (idim & ipart & Hd & Hp & G).
    unfold geb in G. rewrite (ltb_not_geb _ _ (H idim ipart Hd Hp)) in G.
    discriminate.
Qed.

(** C3 (as stated, refuted).  With 6 cells over a box of extent 4 the
    cached coordinates (0, 0), which lie in the box, are binned to the
    cell (1, 1), whereas the formula of the claim gives
    [clamp(⌊0 · (6 − 1) / 4⌋, 0, 6 − 1) = 0]. *)
Lemma ijcell_of_origin :
  cache_x (cache dem_touching) 0 = (0, 0)%float /\
  (exists dem', bmm_dem_cache_ijcell dem_touching 0 = Val dem' /\
                cache_ijcell (cache dem') 0 = (1, 1)) /\
  clamp_floor (0 * of_Z (6 - 1) / 4) 0 (6 - 1) = Some 0.
Proof.
  split; [reflexivity|]. split; [|reflexivity].
  eexists. split; reflexivity.
Qed.

(** C3 (amended).  For a particle [i] and [1 <= ncell[d] <= 2 ^ 53] in
    both dimensions, let [t_d] be the double that
    [bmm_fp_lerp(cache.x[i][d], 0, box.x[d], 1, ncell[d] − 1)] yields, that
    is [(x − 0) · ((ncell[d] − 1) − 1) / (box.x[d] − 0) + 1] with every
    operation rounded.  [bmm_dem_cache_ijcell] stores the cell index
    [clamp(⌊t_d⌋, 0, ncell[d] − 1)] in the dimension [d], where [⌊t_d⌋] is
    the floor of the exact value of the double [t_d] (an infinite [t_d] is
    clamped to the end on its side); when a [t_d] is a NaN the conversion
    to [size_t] is undefined. *)
Theorem cache_ijcell_spec (dem : bmm_dem) (ipart : Z) :
  1 <= fst (cache_ncell (opts dem)) <= 2 ^ 53 ->
  1 <= snd (cache_ncell (opts dem)) <= 2 ^ 53 ->
  bmm_dem_cache_ijcell dem ipart =
  match clamp_floor (cache_ijcell_t (fst (cache_ncell (opts dem)))
                       (fst (box_x (opts dem))) (fst (cache_x (cache dem) ipart)))
          0 (fst (cache_ncell (opts dem)) - 1),
        clamp_floor (cache_ijcell_t (snd (cache_ncell (opts dem)))
                       (snd (box_x (opts dem))) (snd (cache_x (cache dem) ipart)))
          0 (snd (cache_ncell (opts dem)) - 1)
  with
  | Some j0, Some j1 =>
      Val (set_cache (set_cache_ijcell
             (upd (cache_ijcell (cache dem)) ipart (j0, j1)) (cache dem)) dem)
  | _, _ => Undefined
  end.
Proof. apply cache_ijcell_store. Qed.

Lemma cache_ijcell_spec_witness :
  1 <= fst (cache_ncell (opts dem_drifted)) <= 2 ^ 53 /\
  1 <= snd (cache_ncell (opts dem_drifted)) <= 2 ^ 53 /\
  bmm_dem_cache_ijcell dem_drifted 0 =
  match clamp_floor (cache_ijcell_t (fst (cache_ncell (opts dem_drifted)))
                       (fst (box_x (opts dem_drifted)))
                       (fst (cache_x (cache dem_drifted) 0)))
          0 (fst (cache_ncell (opts dem_drifted)) - 1),
        clamp_floor (cache_ijcell_t (snd (cache_ncell (opts dem_drifted)))
                       (snd (box_x (opts dem_drifted)))
                       (snd (cache_x (cache dem_drifted) 0)))
          0 (snd (cache_ncell (opts dem_drifted)) - 1)
  with
  | Some j0, Some j1 =>
      Val (set_cache (set_cache_ijcell
             (upd (cache_ijcell (cache dem_drifted)) 0 (j0, j1))
             (cache dem_drifted)) dem_drifted)
  | _, _ => Undefined
  end.
Proof.
  assert (H0 : 1 <= fst (cache_ncell (opts dem_drifted)) <= 2 ^ 53) by (cbn; lia).
  assert (H1 : 1 <= snd (cache_ncell (opts dem_drifted)) <= 2 ^ 53) by (cbn; lia).
  split; [exact H0|]. split; [exact H1|].
  apply (cache_ijcell_spec dem_drifted 0 H0 H1).
Defined.

(** C4 (as stated, refuted).  The two particles of [dem_touching] have
    radius 1 and centres exactly 2 apart, the normal law is the dashpot
    and the first particle moves towards the second with speed 1.  The
    pair is in contact with the normal force [fn = 1], and
    [bmm_dem_force_pair] adds the force [(−1, 0)] to the first particle
    and [(1, 0)] to the second (the tangential force is zero). *)
Lemma touching_pair_gets_force :
  opts_fnorm (opts dem_touching) = BMM_DEM_FNORM_DASHPOT /\
  sqrt (pair_d2 dem_touching 0 1) = pair_r dem_touching 0 1 /\
  (exists c, force_pair_contact dem_touching 0 1 = Some c /\
             c_xi c = 0%float /\ c_fn c = 1%float) /\
  part_f (part dem_touching) 0 = (0, 0)%float /\
  part_f (part dem_touching) 1 = (0, 0)%float /\
  part_f (part (bmm_dem_force_pair dem_touching 0 1)) 0 = (-1, 0)%float /\
  part_f (part (bmm_dem_force_pair dem_touching 0 1)) 1 = (1, 0)%float.
Proof.
  split; [reflexivity|]. split; [reflexivity|]. split.
  - eexists. split; [reflexivity|]. split; reflexivity.
  - repeat split.
Qed.

(** C4 (amended).  For two different particles whose centre distance
    [d = sqrt(d2)] is, as a double, exactly the finite sum [r_i + r_j] of
    the radii, with [fnorm = DASHPOT]: either [bmm_dem_force_pair] returns
    at once and changes nothing, which it does exactly when
    [d2 > (r_i + r_j)^2] or [d2 == 0] holds for the doubles (the square
    rounded); or the overlap [ξ] is exactly zero,
    the normal force is [fn = fmax(0, Y·0 + γ_n·ξ̇)], which for a finite
    [Y] is [γ_n·ξ̇] when that is positive and zero otherwise, and
    [bmm_dem_force_pair] adds [−fn·n] and then the tangential force to
    [f[i]], and their opposites to [f[j]]. *)
Theorem force_pair_touching (dem : bmm_dem) (ipart jpart : Z) :
  opts_fnorm (opts dem) = BMM_DEM_FNORM_DASHPOT ->
  ipart <> jpart ->
  sqrt (pair_d2 dem ipart jpart) = pair_r dem ipart jpart ->
  is_finite (pair_r dem ipart jpart) = true ->
  match force_pair_contact dem ipart jpart with
  | None =>
      gtb (pair_d2 dem ipart jpart) (bmm_fp_sq (pair_r dem ipart jpart))
        || eqb (pair_d2 dem ipart jpart) 0 = true /\
      bmm_dem_force_pair dem ipart jpart = dem
  | Some c =>
      gtb (pair_d2 dem ipart jpart) (bmm_fp_sq (pair_r dem ipart jpart))
        || eqb (pair_d2 dem ipart jpart) 0 = false /\
      c_xi c = 0%float /\
      c_fn c = fmax 0 (opts_part_y (opts dem) * 0 +
                       dashpot_gamma (opts dem) * c_dotxi c) /\
      (is_finite (opts_part_y (opts dem)) = true ->
       c_fn c = if ltb 0 (dashpot_gamma (opts dem) * c_dotxi c)
                then (dashpot_gamma (opts dem) * c_dotxi c)%float
                else 0%float) /\
      part_f (part (bmm_dem_force_pair dem ipart jpart)) ipart =
        bmm_geom2d_addto
          (bmm_geom2d_addto (part_f (part dem) ipart)
             (bmm_geom2d_scale (c_xnorm c) (- c_fn c)))
          (bmm_geom2d_scale (c_xtang c) (c_ft c)) /\
      part_f (part (bmm_dem_force_pair dem ipart jpart)) jpart =
        bmm_geom2d_addto
          (bmm_geom2d_addto (part_f (part dem) jpart)
             (bmm_geom2d_scale (bmm_geom2d_scale (c_xnorm c) (- c_fn c)) (-1)))
          (bmm_geom2d_scale (bmm_geom2d_scale (c_xtang c) (c_ft c)) (-1))
  end.
Proof.
  intros Hf Hij Hd Hfin.
  destruct (force_pair_contact dem ipart jpart) as [c|] eqn:E.
  - destruct (contact_touching dem ipart jpart c E Hf Hd Hfin) as [Hxi Hfn].
    destruct (force_pair_f dem ipart jpart c E Hij) as (Fi & Fj & _).
    split.
    { apply Bool.not_true_iff_false. intros Hc.
      apply contact_none in Hc. congruence. }
    split; [exact Hxi|]. split; [exact Hfn|]. split; [|split; assumption].
    intros HY. now rewrite Hfn, (fmax_zero_skip _ _ HY), fmax_zero.
  - split; [now apply contact_none|].
    unfold bmm_dem_force_pair. now rewrite E.
Qed.

Lemma force_pair_touching_witness :
  opts_fnorm (opts dem_touching) = BMM_DEM_FNORM_DASHPOT /\
  sqrt (pair_d2 dem_touching 0 1) = pair_r dem_touching 0 1 /\
  is_finite (pair_r dem_touching 0 1) = true /\
  match force_pair_contact dem_touching 0 1 with
  | None =>
      gtb (pair_d2 dem_touching 0 1) (bmm_fp_sq (pair_r dem_touching 0 1))
        || eqb (pair_d2 dem_touching 0 1) 0 = true /\
      bmm_dem_force_pair dem_touching 0 1 = dem_touching
  | Some c =>
      gtb (pair_d2 dem_touching 0 1) (bmm_fp_sq (pair_r dem_touching 0 1))
        || eqb (pair_d2 dem_touching 0 1) 0 = false /\
      c_xi c = 0%float /\
      c_fn c = fmax 0 (opts_part_y (opts dem_touching) * 0 +
                       dashpot_gamma (opts dem_touching) * c_dotxi c) /\
      (is_finite (opts_part_y (opts dem_touching)) = true ->
       c_fn c = if ltb 0 (dashpot_gamma (opts dem_touching) * c_dotxi c)
                then (dashpot_gamma (opts dem_touching) * c_dotxi c)%float
                else 0%float) /\
      part_f (part (bmm_dem_force_pair dem_touching 0 1)) 0 =
        bmm_geom2d_addto
          (bmm_geom2d_addto (part_f (part dem_touching) 0)
             (bmm_geom2d_scale (c_xnorm c) (- c_fn c)))
          (bmm_geom2d_scale (c_xtang c) (c_ft c)) /\
      part_f (part (bmm_dem_force_pair dem_touching 0 1)) 1 =
        bmm_geom2d_addto
          (bmm_geom2d_addto (part_f (part dem_touching) 1)
             (bmm_geom2d_scale (bmm_geom2d_scale (c_xnorm c) (- c_fn c)) (-1)))
          (bmm_geom2d_scale (bmm_geom2d_scale (c_xtang c) (c_ft c)) (-1))
  end.
Proof.
  assert (H1 : opts_fnorm (opts dem_touching) = BMM_DEM_FNORM_DASHPOT) by reflexivity.
  assert (H2 : 0 <> 1) by lia.
  assert (H3 : sqrt (pair_d2 dem_touching 0 1) = pair_r dem_touching 0 1)
    by reflexivity.
  assert (H4 : is_finite (pair_r dem_touching 0 1) = true) by reflexivity.
  split; [exact H1|]. split; [exact H3|]. split; [exact H4|].
  apply (force_pair_touching dem_touching 0 1 H1 H2 H3 H4).
Defined.
End Claims.

(** * Further properties of the code *)

Module Extras.
Import Outcome CInt CIntFacts CommonUint HcFacts Hypercube ScalarSint.
Import ScalarSintFacts IntExtraFacts.

(** X1.  [add_ovf] of [scalar_sint.h] is exact and safe: for all values
    [x], [y] of a signed two's complement type it evaluates without any
    overflow of its own, and it returns [true] exactly when the sum
    [x + y] lies outside the range of the type. *)
Theorem add_ovf_detects_overflow (A : ctype) (x y : Z) :
  signed A = true -> 2 <= bits A ->
  minval A <= x <= maxval A -> minval A <= y <= maxval A ->
  add_ovf A x y = Val (negb (fits A (x + y))).
Proof. apply add_ovf_exact. Qed.

Lemma add_ovf_detects_overflow_witness :
  add_ovf signed_char 100 100 = Val (negb (fits signed_char (100 + 100))).
Proof.
  apply (add_ovf_detects_overflow signed_char 100 100);
    first [reflexivity | cbn; lia].
Defined.

(** X2.  [sub_ovf] is exact and safe: for all values [x], [y] of a signed
    two's complement type it evaluates without overflow and returns [true]
    exactly when the difference [x - y] lies outside the range of the
    type. *)
Theorem sub_ovf_detects_overflow (A : ctype) (x y : Z) :
  signed A = true -> 2 <= bits A ->
  minval A <= x <= maxval A -> minval A <= y <= maxval A ->
  sub_ovf A x y = Val (negb (fits A (x - y))).
Proof. apply sub_ovf_exact. Qed.

Lemma sub_ovf_detects_overflow_witness :
  sub_ovf signed_char (-100) 100 = Val (negb (fits signed_char (-100 - 100))).
Proof.
  apply (sub_ovf_detects_overflow signed_char (-100) 100);
    first [reflexivity | cbn; lia].
Defined.

(** X3.  [neg_ovf] is exact and safe: it evaluates without overflow and
    returns [true] exactly when [- x] is not a value of the type, which
    for a two's complement type happens at [x = minval] only. *)
Theorem neg_ovf_detects_overflow (A : ctype) (x : Z) :
  signed A = true -> 2 <= bits A -> minval A <= x <= maxval A ->
  neg_ovf A x = Val (negb (fits A (- x))) /\
  (neg_ovf A x = Val true <-> x = minval A).
Proof.
  intros Hs Hb Hx. destruct (neg_ovf_exact A x Hs Hb Hx) as [E H].
  split; [exact E|]. rewrite E, <- H.
  destruct (fits A (- x)); cbn [negb]; split; intros; congruence.
Qed.

Lemma neg_ovf_detects_overflow_witness :
  neg_ovf int (-2147483648) = Val (negb (fits int (- -2147483648))) /\
  (neg_ovf int (-2147483648) = Val true <-> -2147483648 = minval int).
Proof.
  apply (neg_ovf_detects_overflow int (-2147483648));
    first [reflexivity | cbn; lia].
Defined.

(** X4.  [mul_ovf] is exact and safe: for all values [x], [y] of a signed
    two's complement type its divisions never divide by zero or overflow,
    and it returns [true] exactly when the product [x * y] lies outside
    the range of the type. *)
Theorem mul_ovf_detects_overflow (A : ctype) (x y : Z) :
  signed A = true -> 2 <= bits A ->
  minval A <= x <= maxval A -> minval A <= y <= maxval A ->
  mul_ovf A x y = Val (negb (fits A (x * y))).
Proof. apply mul_ovf_exact. Qed.

Lemma mul_ovf_detects_overflow_witness :
  mul_ovf int (-65536) 32768 = Val (negb (fits int (-65536 * 32768))).
Proof.
  apply (mul_ovf_detects_overflow int (-65536) 32768);
    first [reflexivity | cbn; lia].
Defined.

(** X5.  [quott_ovf]: the limits of a two's complement type pass the
    assertion at its entry, and for all values [x], [y] of the type it
    returns [true] exactly when the truncated quotient is not a value of
    the type, that is at [x = minval], [y = -1] only. *)
Theorem quott_ovf_detects_overflow (A : ctype) (x y : Z) :
  signed A = true -> 2 <= bits A ->
  minval A <= x <= maxval A -> minval A <= y <= maxval A ->
  quott_limits A = Val true /\
  quott_ovf A x y = Val (negb (fits A (Z.quot x y))) /\
  (quott_ovf A x y = Val true <-> x = minval A /\ y = -1).
Proof.
  intros Hs Hb Hx Hy. split; [now apply quott_limits_hold|].
  destruct (quott_ovf_exact A x y Hs Hb Hx Hy) as [E H].
  split; [exact E|]. rewrite E, <- H.
  destruct (fits A (Z.quot x y)); cbn [negb]; split; intros; congruence.
Qed.

Lemma quott_ovf_detects_overflow_witness :
  quott_limits signed_char = Val true /\
  quott_ovf signed_char (-128) (-1) =
    Val (negb (fits signed_char (Z.quot (-128) (-1)))) /\
  (quott_ovf signed_char (-128) (-1) = Val true <->
   -128 = minval signed_char /\ -1 = -1).
Proof.
  apply (quott_ovf_detects_overflow signed_char (-128) (-1));
    first [reflexivity | cbn; lia].
Defined.

(** X6.  The signed [bmm_quot] of [common_sint.h] returns the Euclidean
    quotient and remainder, [quot * y + rem = x] with [0 <= rem < |y|],
    and no operation on the way overflows, for every divisor [y <> 0] and
    every [x] of the type except [x = minval], [y = -1], provided [- y]
    is a value of the type the operands are computed in ([int] for the
    types narrower than [int]). *)
Theorem quot_signed_is_euclidean (A : ctype) (x y : Z) :
  signed A = true -> 2 <= bits A ->
  minval A <= x <= maxval A -> minval A <= y <= maxval A -> y <> 0 ->
  ~ (x = minval A /\ y = -1) -> minval (promote A) < y ->
  exists q r, CommonSint.bmm_quot A x y = Val (q, r) /\
              q * y + r = x /\ 0 <= r < Z.abs y.
Proof. apply quot_sint_euclid. Qed.

Lemma quot_signed_is_euclidean_witness :
  exists q r, CommonSint.bmm_quot signed_char (-7) (-2) = Val (q, r) /\
              q * -2 + r = -7 /\ 0 <= r < Z.abs (-2).
Proof.
  apply (quot_signed_is_euclidean signed_char (-7) (-2));
    first [reflexivity | cbn; lia].
Defined.

(** X7.  The unsigned [bmm_quot] of [common_uint.h] returns the quotient
    and the remainder of the division: [quot * y + rem = x] and
    [0 <= rem < y], for every [x >= 0] and [y > 0]. *)
Theorem quot_unsigned_divides (x y : Z) :
  0 <= x -> 0 < y ->
  exists q r, CommonUint.bmm_quot x y = Val (q, r) /\
              q * y + r = x /\ 0 <= r < y.
Proof.
  intros Hx Hy. exists (x / y), (x mod y). split; [now apply quot_uint_spec|].
  pose proof (Z.div_mod x y ltac:(lia)).
  pose proof (Z.mod_pos_bound x y Hy). lia.
Qed.

Lemma quot_unsigned_divides_witness :
  exists q r, CommonUint.bmm_quot 17 5 = Val (q, r) /\
              q * 5 + r = 17 /\ 0 <= r < 5.
Proof. apply (quot_unsigned_divides 17 5); lia. Defined.

(** X8.  For an unsigned type, [bmm_uwrap(x, b)] is [bmm_wrap(x, 0, b)],
    as its documentation says: both return [x mod b] without any
    wrap-around, for [0 < b]. *)
Theorem uwrap_is_wrap_from_zero (A : ctype) (x b : Z) :
  signed A = false -> 1 <= bits A ->
  0 <= x <= maxval A -> 0 < b <= maxval A ->
  bmm_uwrap A x b = CommonUint.bmm_wrap A x 0 b /\
  bmm_uwrap A x b = Val (x mod b).
Proof.
  intros Hs Hb Hx Hbb.
  rewrite uwrap_spec, wrap_from_zero by assumption. now split.
Qed.

Lemma uwrap_is_wrap_from_zero_witness :
  bmm_uwrap unsigned_char 200 7 = CommonUint.bmm_wrap unsigned_char 200 0 7 /\
  bmm_uwrap unsigned_char 200 7 = Val (200 mod 7).
Proof.
  apply (uwrap_is_wrap_from_zero unsigned_char 200 7);
    first [reflexivity | cbn; lia].
Defined.

(** X9.  [bmm_hc] and [bmm_unhc] are [bmm_hcd] and [bmm_unhcd] with the
    side length [nper] in every dimension, and unpacking an index below
    [nper ^ ndim] with [bmm_hc] and packing it again with [bmm_unhc]
    yields the index. *)
Theorem hc_unhc_roundtrip (w : Z) (ndim : nat) (nper : Z) (pij : list Z) (i : Z) :
  0 <= w -> length pij = ndim -> 0 <= nper ->
  0 <= i < nper ^ Z.of_nat ndim -> i < 2 ^ w ->
  bmm_hc pij i ndim nper = bmm_hcd pij i ndim (repeat nper ndim) /\
  (forall ij, bmm_unhc w ij ndim nper = bmm_unhcd w ij ndim (repeat nper ndim)) /\
  exists ij, bmm_hc pij i ndim nper = Val ij /\ bmm_unhc w ij ndim nper = i.
Proof.
  intros Hw Hp Hn Hi Hi2.
  split; [apply hc_is_hcd|]. split; [intros; apply unhc_is_unhcd|].
  destruct (unhcd_hcd w Hw (repeat nper ndim) pij i) as (ij & E1 & E2 & _).
  - now rewrite repeat_length.
  - apply Forall_forall. intros m Hm%repeat_spec. now subst.
  - now rewrite prod_repeat.
  - exact Hi2.
  - rewrite repeat_length in E1, E2. exists ij.
    now rewrite hc_is_hcd, unhc_is_unhcd.
Qed.

Lemma hc_unhc_roundtrip_witness :
  bmm_hc [0; 0] 17 2 5 = bmm_hcd [0; 0] 17 2 (repeat 5 2) /\
  (forall ij, bmm_unhc 64 ij 2 5 = bmm_unhcd 64 ij 2 (repeat 5 2)) /\
  exists ij, bmm_hc [0; 0] 17 2 5 = Val ij /\ bmm_unhc 64 ij 2 5 = 17.
Proof.
  apply (hc_unhc_roundtrip 64 2 5 [0; 0] 17);
    first [reflexivity | cbn; lia].
Defined.

(** X10.  [bmm_hcd] reads an index modulo the number of cells: for
    positive side lengths and any index [i >= 0], also one beyond the
    hypercuboid, it yields the index vector of [i mod prod nper], whose
    components lie below the side lengths. *)
Theorem hcd_wraps_index (nper pij : list Z) (i : Z) :
  length pij = length nper -> Forall (fun m => 0 < m) nper -> 0 <= i ->
  exists ij, bmm_hcd pij i (length nper) nper = Val ij /\
             bmm_hcd pij (i mod prod nper) (length nper) nper = Val ij /\
             Forall2 (fun d m => 0 <= d < m) ij nper.
Proof.
  intros Hp Hn Hi.
  assert (HP : 0 < prod nper).
  { clear - Hn. unfold prod. induction Hn; cbn [fold_right]; nia. }
  pose proof (Z.mod_pos_bound i (prod nper) HP) as Hm.
  pose proof (Z.log2_log2_up_spec (prod nper) HP) as [_ Hl].
  destruct (unhcd_hcd (Z.log2_up (prod nper)) (Z.log2_up_nonneg _) nper pij
              (i mod prod nper)) as (ij & E1 & _ & F); try assumption; try lia.
  - eapply Forall_impl; [|exact Hn]. cbn. intros; lia.
  - exists ij. rewrite hcd_mod by assumption. now repeat split.
Qed.

Lemma hcd_wraps_index_witness :
  exists ij, bmm_hcd [0; 0] 47 (length [6; 5]) [6; 5] = Val ij /\
             bmm_hcd [0; 0] (47 mod prod [6; 5]) (length [6; 5]) [6; 5] = Val ij /\
             Forall2 (fun d m => 0 <= d < m) ij [6; 5].
Proof.
  apply (hcd_wraps_index [6; 5] [0; 0] 47);
    first [reflexivity | lia | repeat constructor; lia].
Defined.

(** X11.  [tamean2] of [tests.c] is the truncated arithmetic mean: for all
    [signed char] values [x] and [y] it returns [(x + y) / 2] rounded
    towards zero, the value of its reference [ref], and none of its
    operations overflows. *)
Theorem tamean2_is_truncated_mean (x y : Z) :
  -128 <= x <= 127 -> -128 <= y <= 127 ->
  Tamean.tamean2 x y = Val (Z.quot (x + y) 2) /\
  Tamean.tamean2 x y = Tamean.ref x y.
Proof.
  intros Hx Hy. rewrite tamean2_spec, ref_spec by assumption. now split.
Qed.

Lemma tamean2_is_truncated_mean_witness :
  Tamean.tamean2 (-128) (-127) = Val (Z.quot (-128 + -127) 2) /\
  Tamean.tamean2 (-128) (-127) = Tamean.ref (-128) (-127).
Proof. apply (tamean2_is_truncated_mean (-128) (-127)); lia. Defined.
Import Fp Neigh Dem DemMore DemFacts RealEval GeomFacts Examples.
Import CacheFacts NeighFacts AdjacentFacts CacheExtraFacts.
Import EstimFacts PartExtraFacts.




(** X14.  In a box without periodic dimensions, after a successful rebuild
    no neighbour list of an active particle holds a particle twice. *)
Theorem neighbours_are_distinct (NG NC : Z) (dem dem' : bmm_dem) (i : Z) :
  3 <= fst (cache_ncell (opts dem)) <= NC ->
  3 <= snd (cache_ncell (opts dem)) <= NC ->
  NC * NC <= 2 ^ 64 ->
  box_per (opts dem) = (false, false) ->
  bmm_dem_cache_build NG NC dem = (true, dem') ->
  0 <= i < part_n (part dem) ->
  NoDup (cache_neigh (cache dem') i).
Proof.
  intros H0 H1 HNC Hper Hb Hi. apply build_spec in Hb. subst dem'.
  now apply built_neigh_NoDup.
Qed.

Lemma neighbours_are_distinct_witness :
  NoDup (cache_neigh (cache (built 8 dem_adjacent)) 1).
Proof.
  destruct adjacent_grid as (H0 & H1 & H2).
  apply (neighbours_are_distinct 8 8 dem_adjacent (built 8 dem_adjacent) 1
           H0 H1 H2 eq_refl adjacent_build).
  cbn. lia.
Defined.

(** X15.  After a successful rebuild with [3 <= ncell[d] <= BMM_NCELL] the
    cell lists partition the active particles: the cell index of every
    active particle is a cell of the grid, and the list of a cell [c] of
    the grid holds, without repetition, exactly the active particles whose
    cell index is [c]. *)
Theorem cells_partition_particles (NG NC : Z) (dem dem' : bmm_dem) :
  3 <= fst (cache_ncell (opts dem)) <= NC ->
  3 <= snd (cache_ncell (opts dem)) <= NC ->
  NC * NC <= 2 ^ 64 ->
  bmm_dem_cache_build NG NC dem = (true, dem') ->
  (forall j, 0 <= j < part_n (part dem) ->
     0 <= cache_icell (cache dem') j < NC ^ BMM_NDIM) /\
  (forall c, 0 <= c < NC ^ BMM_NDIM ->
     NoDup (cache_part (cache dem') c) /\
     forall j, In j (cache_part (cache dem') c) <->
               0 <= j < part_n (part dem) /\ cache_icell (cache dem') j = c).
Proof.
  intros H0 H1 HNC Hb. apply build_spec in Hb. subst dem'. split.
  - intros j Hj. now apply built_icell_range.
  - intros c Hc. rewrite (built_part NC dem c Hc). split.
    + apply NoDup_filter, zrange_NoDup.
    + intros j. rewrite filter_In, in_zrange, Z.eqb_eq. tauto.
Qed.

Lemma cells_partition_particles_witness :
  (forall j, 0 <= j < part_n (part dem_adjacent) ->
     0 <= cache_icell (cache (built 8 dem_adjacent)) j < 8 ^ BMM_NDIM) /\
  (forall c, 0 <= c < 8 ^ BMM_NDIM ->
     NoDup (cache_part (cache (built 8 dem_adjacent)) c) /\
     forall j, In j (cache_part (cache (built 8 dem_adjacent)) c) <->
               0 <= j < part_n (part dem_adjacent) /\
               cache_icell (cache (built 8 dem_adjacent)) j = c).
Proof.
  destruct adjacent_grid as (H0 & H1 & H2).
  exact (cells_partition_particles 8 8 dem_adjacent (built 8 dem_adjacent)
           H0 H1 H2 adjacent_build).
Defined.



(** X22.  [bmm_dem_rempart] on a valid index [ipart < n]: the count
    becomes [n - 1], the cache is marked stale, the particle of the last
    slot [n - 1] moves into the slot [ipart], every other slot is as
    before, and the bonds stored on the other particles are not touched
    (they keep the indices they held). *)
Theorem rempart_moves_last (dem : bmm_dem) (ipart : Z) :
  0 <= ipart < part_n (part dem) -> part_n (part dem) <= 2 ^ 64 ->
  part_n (part (bmm_dem_rempart dem ipart)) = part_n (part dem) - 1 /\
  part_lnew (part (bmm_dem_rempart dem ipart)) = part_lnew (part dem) /\
  cache_stale (cache (bmm_dem_rempart dem ipart)) = true /\
  opts (bmm_dem_rempart dem ipart) = opts dem /\
  (forall k, particle (bmm_dem_rempart dem ipart) k =
             particle dem (if k =? ipart then part_n (part dem) - 1 else k)) /\
  (forall k, k <> ipart -> link (bmm_dem_rempart dem ipart) k = link dem k).
Proof. apply rempart_spec. Qed.

Lemma rempart_moves_last_witness :
  part_n (part (bmm_dem_rempart dem_touching 0)) = part_n (part dem_touching) - 1 /\
  part_lnew (part (bmm_dem_rempart dem_touching 0)) = part_lnew (part dem_touching) /\
  cache_stale (cache (bmm_dem_rempart dem_touching 0)) = true /\
  opts (bmm_dem_rempart dem_touching 0) = opts dem_touching /\
  (forall k, particle (bmm_dem_rempart dem_touching 0) k =
             particle dem_touching
               (if k =? 0 then part_n (part dem_touching) - 1 else k)) /\
  (forall k, k <> 0 -> link (bmm_dem_rempart dem_touching 0) k = link dem_touching k).
Proof. apply (rempart_moves_last dem_touching 0); cbn; lia. Defined.

(** X23.  Adding a particle and removing it again,
    [bmm_dem_rempart(dem, bmm_dem_addpart(dem))], restores the count and
    leaves every other slot and all bonds as they were; the label counter
    has advanced by one and the cache is marked stale. *)
Theorem addpart_then_rempart (MPART : Z) (dem : bmm_dem) :
  0 <= part_n (part dem) < MPART -> MPART <= SIZE_MAX ->
  let d' := bmm_dem_rempart (snd (bmm_dem_addpart MPART dem)) (part_n (part dem)) in
  part_n (part d') = part_n (part dem) /\
  part_lnew (part d') = size_wrap (part_lnew (part dem) + 1) /\
  cache_stale (cache d') = true /\ opts d' = opts dem /\ link d' = link dem /\
  (forall k, k <> part_n (part dem) -> particle d' k = particle dem k).
Proof. apply addpart_rempart. Qed.

Lemma addpart_then_rempart_witness :
  let d' := bmm_dem_rempart (snd (bmm_dem_addpart 4 dem_touching))
              (part_n (part dem_touching)) in
  part_n (part d') = part_n (part dem_touching) /\
  part_lnew (part d') = size_wrap (part_lnew (part dem_touching) + 1) /\
  cache_stale (cache d') = true /\ opts d' = opts dem_touching /\
  link d' = link dem_touching /\
  (forall k, k <> part_n (part dem_touching) ->
     particle d' k = particle dem_touching k).
Proof.
  apply (addpart_then_rempart 4 dem_touching); [cbn; lia|unfold SIZE_MAX; lia].
Defined.

(** X24.  [bmm_dem_unlink] returns [true], sets the number of bonds of
    every active particle to zero and changes nothing else: the bonds of
    the slots beyond [n], the particles, the options and the cache are as
    before. *)
Theorem unlink_drops_bonds (dem : bmm_dem) :
  fst (bmm_dem_unlink dem) = true /\
  opts (snd (bmm_dem_unlink dem)) = opts dem /\
  part (snd (bmm_dem_unlink dem)) = part dem /\
  cache (snd (bmm_dem_unlink dem)) = cache dem /\
  forall k, link (snd (bmm_dem_unlink dem)) k =
            if (0 <=? k) && (k <? part_n (part dem))
            then set_link_n 0 (link dem k) else link dem k.
Proof.
  destruct (unlink_spec dem) as (H1 & H2 & H3 & H4 & H5).
  split; [exact H1|]. split; [exact H2|]. split; [exact H3|]. split; [exact H4|].
  intros k. rewrite H5.
  destruct (memb k (zrange (part_n (part dem)))) eqn:E.
  - apply memb_zrange in E.
    destruct (Z.leb_spec 0 k); destruct (Z.ltb_spec k (part_n (part dem)));
      cbn [andb]; first [reflexivity | lia].
  - destruct (Z.leb_spec 0 k); destruct (Z.ltb_spec k (part_n (part dem)));
      cbn [andb]; try reflexivity.
    rewrite memb_zrange_true in E by lia. discriminate.
Qed.

(** X25.  The estimators [bmm_dem_maxrad] and [bmm_dem_maxvel]:
    [bmm_dem_maxrad] is the largest of zero and the radii of the active
    particles (an upper bound that is attained, and zero for no
    particles), and every component of [bmm_dem_maxvel] is non-negative
    and at least the same component of the velocity of every active
    particle. *)
Theorem maxrad_is_maximum (dem : bmm_dem) :
  (0 <= bmm_dem_maxrad dem)%R /\
  (forall k, 0 <= k < part_n (part dem) ->
     (part_r (part dem) k <= bmm_dem_maxrad dem)%R) /\
  (bmm_dem_maxrad dem = 0%R \/
   exists k, 0 <= k < part_n (part dem) /\
             bmm_dem_maxrad dem = part_r (part dem) k) /\
  (0 <= fst (bmm_dem_maxvel dem))%R /\ (0 <= snd (bmm_dem_maxvel dem))%R /\
  forall k, 0 <= k < part_n (part dem) ->
    (fst (part_v (part dem) k) <= fst (bmm_dem_maxvel dem))%R /\
    (snd (part_v (part dem) k) <= snd (bmm_dem_maxvel dem))%R.
Proof.
  destruct (maxrad_spec dem) as (H1 & H2 & H3).
  destruct (maxvel_spec dem) as (H4 & H5 & H6).
  repeat split; try assumption; now apply H6.
Qed.

Import PrimFloat Double Fp64 Dem64 Dem64Facts.

(** X18.  [bmm_dem_force_pair] writes to the forces and the torques of the
    two particles it is called for, and to nothing else: the options, the
    cache, the number of particles, the radii, the positions, the
    velocities and the angular velocities are as before, and so are the
    force and the torque of every other particle.  For a pair in contact
    what it adds to [f[j]] is, term by term, [−1.0] times what it adds to
    [f[i]]: first the normal force [−fn·n], then the tangential force
    [ft·t]. *)
Theorem force_pair_writes_pair_only (dem : bmm_dem) (i j : Z) :
  opts (bmm_dem_force_pair dem i j) = opts dem /\
  cache (bmm_dem_force_pair dem i j) = cache dem /\
  part_n (part (bmm_dem_force_pair dem i j)) =
    part_n (part dem) /\
  part_r (part (bmm_dem_force_pair dem i j)) =
    part_r (part dem) /\
  part_x (part (bmm_dem_force_pair dem i j)) =
    part_x (part dem) /\
  part_v (part (bmm_dem_force_pair dem i j)) =
    part_v (part dem) /\
  part_omega (part (bmm_dem_force_pair dem i j)) =
    part_omega (part dem) /\
  (forall k, k <> i -> k <> j ->
     part_f (part (bmm_dem_force_pair dem i j)) k =
       part_f (part dem) k /\
     part_tau (part (bmm_dem_force_pair dem i j)) k =
       part_tau (part dem) k) /\
  (forall c, force_pair_contact dem i j = Some c -> i <> j ->
     part_f (part (bmm_dem_force_pair dem i j)) i =
       bmm_geom2d_addto
         (bmm_geom2d_addto (part_f (part dem) i)
            (bmm_geom2d_scale (c_xnorm c) (- c_fn c)))
         (bmm_geom2d_scale (c_xtang c) (c_ft c)) /\
     part_f (part (bmm_dem_force_pair dem i j)) j =
       bmm_geom2d_addto
         (bmm_geom2d_addto (part_f (part dem) j)
            (bmm_geom2d_scale
               (bmm_geom2d_scale (c_xnorm c) (- c_fn c))
               (-1)))
         (bmm_geom2d_scale
            (bmm_geom2d_scale (c_xtang c) (c_ft c)) (-1))).
Proof.
  destruct (force_pair_frame dem i j)
    as (H1 & H2 & H3 & H4 & H5 & H6 & H7 & H8).
  split; [exact H1|]. split; [exact H2|]. split; [exact H3|].
  split; [exact H4|]. split; [exact H5|]. split; [exact H6|].
  split; [exact H7|]. split; [exact H8|].
  intros c E Hij.
  destruct (force_pair_f dem i j c E Hij) as (Fi & Fj & _).
  now split.
Qed.

(** X17.  One round of [bmm_dem_cache_ijcell] with
    [1 <= ncell[d] <= 2 ^ 53] is undefined exactly when the interpolated
    coordinate [t] is a NaN, and otherwise yields a cell index of the
    grid, [0 <= j <= ncell[d] − 1].  When the conversion [(size_t) t] is
    reached with a number, it is defined and its value satisfies
    [1 <= j < ncell[d] − 1]: the assertion [j < i] of the source cannot
    fail. *)
Theorem ijcell_truncation_is_valid (ncell : Z) (boxx x : float) :
  1 <= ncell <= 2 ^ 53 ->
  (cache_ijcell_dim ncell boxx x = Undefined <->
   is_nan (cache_ijcell_t ncell boxx x) = true) /\
  (forall j, cache_ijcell_dim ncell boxx x = Val j -> 0 <= j <= ncell - 1) /\
  (is_nan (cache_ijcell_t ncell boxx x) = false ->
   ltb (cache_ijcell_t ncell boxx x) 1 = false ->
   geb (cache_ijcell_t ncell boxx x) (of_Z (ncell - 1)) = false ->
   exists j, to_size (cache_ijcell_t ncell boxx x) = Val j /\
             cache_ijcell_dim ncell boxx x = Val j /\ 1 <= j < ncell - 1).
Proof.
  intros Hn. rewrite (cache_ijcell_dim_spec ncell boxx x Hn). split; [|split].
  - rewrite <- (clamp_floor_nan (cache_ijcell_t ncell boxx x) 0 (ncell - 1)).
    destruct (clamp_floor _ 0 (ncell - 1)); split; congruence.
  - intros j. destruct (clamp_floor _ 0 (ncell - 1)) as [z|] eqn:E; [|discriminate].
    intros [= <-].
    apply (clamp_floor_range (cache_ijcell_t ncell boxx x) 0 (ncell - 1) z); [lia|exact E].
  - intros Hnan Hlt Hge.
    destruct (cache_ijcell_dim_cases ncell boxx x Hn Hnan Hlt Hge) as (j & Ej & Hj).
    exists j. split; [exact Ej|]. split; [|exact Hj].
    rewrite <- (cache_ijcell_dim_spec ncell boxx x Hn).
    unfold cache_ijcell_dim. cbv zeta.
    assert (Ei : Dem.size_wrap (ncell - 1) = ncell - 1).
    { unfold Dem.size_wrap. apply Z.mod_small.
      change (2 ^ 53) with 9007199254740992 in Hn.
      change (2 ^ 64) with 18446744073709551616. lia. }
    rewrite Ei, Hlt, Hge. exact Ej.
Qed.

Lemma ijcell_truncation_is_valid_witness :
  1 <= 6 <= 2 ^ 53 /\
  cache_ijcell_dim 6 4 2.5 = Val 3 /\
  exists j, to_size (cache_ijcell_t 6 4 2.5) = Val j /\
            cache_ijcell_dim 6 4 2.5 = Val j /\ 1 <= j < 6 - 1.
Proof.
  assert (H : 1 <= 6 <= 2 ^ 53) by lia.
  split; [exact H|]. split; [reflexivity|].
  apply (proj2 (proj2 (ijcell_truncation_is_valid 6 4 2.5 H))); reflexivity.
Defined.

End Extras.
